(** * Magiofiles: the tag-hierarchy grouping engine of [src/main.ts]

    A shallow embedding of the grouping helpers of the plugin
    ([normalizeTag], [parseTagsInput], [collectTagsForFile],
    [tagMatchesAny], [propagateLevel], [stripHash], [countFiles],
    [addFileToFolderTree], [getSortedEntries]), of the tree construction
    in [MagiofilesView.renderTree] and of the handler of the Delete button
    in [MagiofilesView.renderControls], followed by the properties the
    specification states about them.

    JavaScript strings are sequences of UTF-16 code units, a [Set] and a
    [Map] are lists in insertion order, a computation that may throw
    returns an [option].  The host supplies the vault, the metadata cache
    and [localeCompare]; they are parameters. *)

From Stdlib Require Import Ascii String.
From Stdlib Require Import List ZArith NArith Lia Bool.
From Stdlib Require Import Permutation Sorted.
Import ListNotations.

(** ** JavaScript strings

    A JavaScript string is a finite sequence of UTF-16 code units.  Code
    units are kept as [N]; the operations below never produce a value
    outside the range of their inputs. *)
Module JsString.

Definition char := N.
Definition jsstring := list char.

(** String literals of the source, all of them ASCII. *)
Definition js (s : String.string) : jsstring :=
  List.map N_of_ascii (String.list_ascii_of_string s).
Arguments js s%_string.

Definition char_eq_dec : forall a b : char, {a = b} + {a <> b} := N.eq_dec.

Definition jsstring_eq_dec : forall a b : jsstring, {a = b} + {a <> b} :=
  list_eq_dec char_eq_dec.

(** [a === b] on strings. *)
Definition str_eqb (a b : jsstring) : bool :=
  if jsstring_eq_dec a b then true else false.

(** ECMAScript [WhiteSpace] and [LineTerminator] code points, the ones
    [String.prototype.trim] removes: TAB, VT, FF, SP, NBSP, ZWNBSP, the
    Unicode space separators, and LF, CR, LS, PS. *)
Definition isWhiteSpace (c : char) : bool :=
  ((c =? 9) || (c =? 10) || (c =? 11) || (c =? 12) || (c =? 13) ||
   (c =? 32) || (c =? 160) || (c =? 5760) ||
   ((8192 <=? c) && (c <=? 8202)) ||
   (c =? 8232) || (c =? 8233) || (c =? 8239) || (c =? 8287) ||
   (c =? 12288) || (c =? 65279))%N.

Fixpoint trimStart (s : jsstring) : jsstring :=
  match s with
  | [] => []
  | c :: r => if isWhiteSpace c then trimStart r else s
  end.

Definition trimEnd (s : jsstring) : jsstring := rev (trimStart (rev s)).

(** [s.trim()] *)
Definition trim (s : jsstring) : jsstring := trimEnd (trimStart s).

(** [s.startsWith(p)] *)
Fixpoint startsWith (p s : jsstring) : bool :=
  match p, s with
  | [], _ => true
  | _ :: _, [] => false
  | a :: p', b :: s' => (a =? b)%N && startsWith p' s'
  end.

(** [s.slice(1)] *)
Definition slice1 (s : jsstring) : jsstring := tl s.

(** [s.split(sep)] for a separator of one code unit.  The result is
    never the empty array: the empty string splits into [[""]]. *)
Fixpoint split (sep : char) (s : jsstring) : list jsstring :=
  match s with
  | [] => [[]]
  | c :: r =>
      if (c =? sep)%N then [] :: split sep r
      else match split sep r with
           | [] => [[c]]
           | w :: ws => (c :: w) :: ws
           end
  end.

(** Truthiness of a string: only the empty string is falsy. *)
Definition nonEmpty (s : jsstring) : bool :=
  match s with [] => false | _ :: _ => true end.

End JsString.
Import JsString.


(** ** JavaScript [Set] and [Map]

    Both keep insertion order, which the source observes whenever it
    iterates ([for ... of], [values()], [entries()]).  A [Set] is the list
    of its elements in insertion order, a [Map] the list of its entries in
    insertion order; [add] and [set] keep the position of an element or
    key that is already present. *)
Section JsCollections.

Context {K V : Type} (K_eq_dec : forall a b : K, {a = b} + {a <> b}).

(** [s.has(x)] *)
Definition set_has (s : list K) (x : K) : bool :=
  if in_dec K_eq_dec x s then true else false.

(** [s.add(x)] *)
Definition set_add (s : list K) (x : K) : list K :=
  if set_has s x then s else s ++ [x].

(** [m.get(k)] *)
Fixpoint map_get (m : list (K * V)) (k : K) : option V :=
  match m with
  | [] => None
  | (k', v) :: r => if K_eq_dec k k' then Some v else map_get r k
  end.

(** [m.set(k, v)] *)
Fixpoint map_set (m : list (K * V)) (k : K) (v : V) : list (K * V) :=
  match m with
  | [] => [(k, v)]
  | (k', v') :: r =>
      if K_eq_dec k k' then (k, v) :: r else (k', v') :: map_set r k v
  end.

(** [m.values()] *)
Definition map_values (m : list (K * V)) : list V := List.map snd m.

(** [m.keys()] *)
Definition map_keys (m : list (K * V)) : list K := List.map fst m.

End JsCollections.

(** ** Exceptions

    A computation that may throw (here only [TypeError], from reading a
    property of [undefined] or iterating it) returns [None] when it
    throws. *)
Definition bind {A B : Type} (c : option A) (k : A -> option B) : option B :=
  match c with
  | Some a => k a
  | None => None
  end.

Notation "x <- c ;; k" := (bind c (fun x => k))
  (at level 61, c at next level, right associativity).

(** ** Data model *)

(** A [TFile] of the host.  The vault holds one [TFile] object per path,
    so identity of objects is equality of these records. *)
Record TFile : Type := mkTFile {
  path : jsstring;
  basename : jsstring
}.

Definition TFile_eq_dec : forall a b : TFile, {a = b} + {a <> b}.
Proof. decide equality; apply jsstring_eq_dec. Defined.

(** [type Level = { name: string; tags: string[] }] *)
Record Level : Type := mkLevel {
  level_name : jsstring;
  level_tags : list jsstring
}.

(** [type ViewCfg = { id: string; name: string; levels: Level[] }] *)
Record ViewCfg : Type := mkViewCfg {
  view_id : jsstring;
  view_name : jsstring;
  view_levels : list Level
}.

Inductive SortMode : Type := Alpha | AlphaDesc | Count.

(** [interface MagiofilesSettings] *)
Record MagiofilesSettings : Type := mkSettings {
  views : list ViewCfg;
  activeViewId : option jsstring;
  sortMode : SortMode;
  showFileIcons : bool;
  showCounts : bool
}.

(** [type GroupNode]: both [children] and [files] are optional fields.
    The induction principle that fits the nesting is [GroupNode_ind]
    below. *)
Unset Elimination Schemes.
Inductive GroupNode : Type := mkGroupNode {
  name : jsstring;
  level : Z;
  children : option (list (jsstring * GroupNode));
  files : option (list TFile)
}.
Set Elimination Schemes.

(** Induction on a node, with the property known for the nodes of its
    children map. *)
Definition GroupNode_ind (P : GroupNode -> Prop)
  (step : forall nm lv ch fs,
      match ch with
      | Some l => Forall (fun kc => P (snd kc)) l
      | None => True
      end -> P (mkGroupNode nm lv ch fs))
  : forall n, P n :=
  fix F (n : GroupNode) : P n :=
    match n with
    | mkGroupNode nm lv ch fs =>
        step nm lv ch fs
          match ch return match ch with
                          | Some l => Forall (fun kc => P (snd kc)) l
                          | None => True
                          end with
          | Some l =>
              (fix G (l : list (jsstring * GroupNode))
                 : Forall (fun kc => P (snd kc)) l :=
                 match l with
                 | [] => Forall_nil _
                 | kc :: t => Forall_cons kc (F (snd kc)) (G t)
                 end) l
          | None => I
          end
    end.

Definition with_children (n : GroupNode) (ch : list (jsstring * GroupNode)) : GroupNode :=
  mkGroupNode (name n) (level n) (Some ch) (files n).

Definition with_files (n : GroupNode) (fs : list TFile) : GroupNode :=
  mkGroupNode (name n) (level n) (children n) (Some fs).

(** [node.children ?? new Map()] and [node.files ?? new Set()] *)
Definition children_of (n : GroupNode) : list (jsstring * GroupNode) :=
  match children n with Some ch => ch | None => [] end.

Definition files_of (n : GroupNode) : list TFile :=
  match files n with Some fs => fs | None => [] end.

(** *** What the metadata cache of the host returns for a file *)

(** An element of a frontmatter [tags] array.  [String(t)] is the identity
    on a string; any other value is carried with the string [String(t)]
    converts it to. *)
Inductive FmItem : Type :=
| ItemString (s : jsstring)
| ItemOther (rendered : jsstring).

(** [String(t)] *)
Definition String_of (t : FmItem) : jsstring :=
  match t with
  | ItemString s => s
  | ItemOther r => r
  end.

(** [fm?.tags], of type [any]: absent ([undefined], also when there is no
    frontmatter), a string, an array, or anything else (a number, a
    boolean, [null], an object). *)
Inductive FmTags : Type :=
| FmAbsent
| FmString (s : jsstring)
| FmArray (items : list FmItem)
| FmOther.

(** [CachedMetadata], as far as the source reads it: [cache.tags] (the
    [tag] field of each inline tag) and [cache.frontmatter]. *)
Record CachedMetadata : Type := mkCache {
  cache_tags : option (list jsstring);
  cache_frontmatter : option FmTags
}.

(** [app.metadataCache.getFileCache], which may return [null]. *)
Definition App : Type := TFile -> option CachedMetadata.

(** ** Tags *)

(** [normalizeTag] (lines 24-28).  The empty string is the result that
    says there is no tag. *)
Definition normalizeTag (tag : jsstring) : jsstring :=
  let t := trim tag in
  if negb (nonEmpty t) then []
  else if startsWith (js "#") t then t else js "#" ++ t.

(** [parseTagsInput] (lines 30-35) *)
Definition parseTagsInput (input : jsstring) : list jsstring :=
  List.filter nonEmpty (List.map normalizeTag (split 44%N input)).

(** [stripHash] (lines 795-797) *)
Definition stripHash (tag : jsstring) : jsstring :=
  if startsWith (js "#") tag then slice1 tag else tag.

(** [cache?.tags ?? []], each element read through its [tag] field. *)
Definition inlineTags (app : App) (file : TFile) : list jsstring :=
  match app file with
  | Some c => match cache_tags c with Some l => l | None => [] end
  | None => []
  end.

(** [cache?.frontmatter?.tags] *)
Definition frontmatterTags (app : App) (file : TFile) : FmTags :=
  match app file with
  | Some c => match cache_frontmatter c with Some t => t | None => FmAbsent end
  | None => FmAbsent
  end.

(** [collectTagsForFile] (lines 717-729).  Inline tags are added as the
    host gives them; frontmatter tags go through [normalizeTag]. *)
Definition collectTagsForFile (app : App) (file : TFile) : list jsstring :=
  let out : list jsstring := [] in
  let inline := inlineTags app file in
  let out := fold_left (set_add jsstring_eq_dec) inline out in
  let fmTags := frontmatterTags app file in
  match fmTags with
  | FmString s => set_add jsstring_eq_dec out (normalizeTag s)
  | FmArray items =>
      fold_left (fun o t => set_add jsstring_eq_dec o (normalizeTag (String_of t)))
                items out
  | FmAbsent | FmOther => out
  end.

(** [tagMatchesAny] (lines 744-752): the first wanted pattern, in the
    order of [wanted], that some tag of the set equals or extends by a
    ['/']; [None] is [null]. *)
Definition tagMatches (w t : jsstring) : bool :=
  str_eqb t w || startsWith (w ++ js "/") t.

Fixpoint tagMatchesAny (tagSet : list jsstring) (wanted : list jsstring)
  : option jsstring :=
  match wanted with
  | [] => None
  | w :: ws =>
      if existsb (tagMatches w) tagSet then Some w else tagMatchesAny tagSet ws
  end.

(** Truthiness of a [string | null]: [null] and the empty string are
    falsy.  Both callers of [tagMatchesAny] test its result this way. *)
Definition truthy (m : option jsstring) : bool :=
  match m with
  | Some s => nonEmpty s
  | None => false
  end.

(** ** Trees *)

(** [countFiles] (lines 799-804) *)
Fixpoint countFiles (node : GroupNode) : Z :=
  let sum := 0%Z in
  let sum :=
    match files node with
    | Some fs => (sum + Z.of_nat (length fs))%Z
    | None => sum
    end in
  match children node with
  | Some ch => fold_left (fun sum kc => (sum + countFiles (snd kc))%Z) ch sum
  | None => sum
  end.

(** The object literal that creates a bucket in [propagateLevel]. *)
Definition newBucket (key : jsstring) (levelIdx : Z) : GroupNode :=
  mkGroupNode key levelIdx (Some []) (Some []).

(** [let bucket = children.get(key); if (!bucket) { bucket = {...};
    children.set(key, bucket); }  bucket.files!.add(f)].  The bucket is
    changed in place, so it keeps its position in the map; a bucket
    without a [files] set makes [bucket.files!.add] throw. *)
Definition addToBucket (ch : list (jsstring * GroupNode)) (key : jsstring)
  (levelIdx : Z) (f : TFile) : option (list (jsstring * GroupNode)) :=
  let bucket :=
    match map_get jsstring_eq_dec ch key with
    | Some b => b
    | None => newBucket key levelIdx
    end in
  match files bucket with
  | Some fs =>
      Some (map_set jsstring_eq_dec ch key
                    (with_files bucket (set_add TFile_eq_dec fs f)))
  | None => None
  end.

(** [tagMatchesAny(fileTags.get(f)!, levelTags)]: when the map has no
    entry for [f], the inner [for ... of] iterates [undefined] and throws,
    unless [levelTags] is empty and the inner loop is never reached. *)
Definition matchOf (fileTags : list (TFile * list jsstring))
  (levelTags : list jsstring) (f : TFile) : option (option jsstring) :=
  match map_get TFile_eq_dec fileTags f with
  | Some tagSet => Some (tagMatchesAny tagSet levelTags)
  | None => match levelTags with [] => Some None | _ :: _ => None end
  end.

(** One iteration of [for (const f of node.files)] in [propagateLevel]:
    the state is the children map and the [remaining] array. *)
Definition splitStep (levelTags : list jsstring)
  (fileTags : list (TFile * list jsstring)) (levelIdx : Z)
  (st : option (list (jsstring * GroupNode) * list TFile)) (f : TFile)
  : option (list (jsstring * GroupNode) * list TFile) :=
  s <- st ;;
  m <- matchOf fileTags levelTags f ;;
  match m with
  | Some w =>
      if nonEmpty w then
        ch <- addToBucket (fst s) (stripHash w) levelIdx f ;;
        Some (ch, snd s)
      else Some (fst s, snd s ++ [f])
  | None => Some (fst s, snd s ++ [f])
  end.

(** The body of the loop of [propagateLevel] for a node that holds
    files [fs] (lines 764-792). *)
Definition splitNode (node : GroupNode) (fs : list TFile)
  (levelTags : list jsstring) (fileTags : list (TFile * list jsstring))
  (levelIdx : Z) : option GroupNode :=
  s <- fold_left (splitStep levelTags fileTags levelIdx) fs
         (Some (children_of node, [])) ;;
  ch <- fold_left
          (fun acc f => c <- acc ;; addToBucket c (js "Others") levelIdx f)
          (snd s) (Some (fst s)) ;;
  Some (mkGroupNode (name node) (level node) (Some ch) (Some [])).

(** The visit of the children of a node that holds no files: each child
    is handed to [visit] and keeps its key and its position. *)
Fixpoint visitChildren (visit : GroupNode -> option GroupNode)
  (l : list (jsstring * GroupNode)) : option (list (jsstring * GroupNode)) :=
  match l with
  | [] => Some []
  | kc :: t =>
      c' <- visit (snd kc) ;;
      t' <- visitChildren visit t ;;
      Some ((fst kc, c') :: t')
  end.

(** *** The work list of [propagateLevel]

    The work list holds references to nodes of the tree under [root].  A
    reference is the path of keys that leads from [root] to the node;
    a change made to a node through its reference is the changed node
    written back at its path. *)
Fixpoint nodeAt (root : GroupNode) (p : list jsstring) : option GroupNode :=
  match p with
  | [] => Some root
  | k :: p' =>
      match map_get jsstring_eq_dec (children_of root) k with
      | Some c => nodeAt c p'
      | None => None
      end
  end.

Fixpoint replaceAt (root : GroupNode) (p : list jsstring) (node' : GroupNode)
  : GroupNode :=
  match p with
  | [] => node'
  | k :: p' =>
      match map_get jsstring_eq_dec (children_of root) k with
      | Some c =>
          with_children root
            (map_set jsstring_eq_dec (children_of root) k (replaceAt c p' node'))
      | None => root
      end
  end.

(** [while (queue.length) { const node = queue.pop()!; ... }] (lines
    756-792).  The array [queue] is kept with its last element first, so
    [pop] takes the head and [push] adds at the head.  A node that holds
    no files has its children pushed; a node that holds files is split and
    its new children are not pushed.  The loop is given [fuel] iterations
    and fails when they do not suffice. *)
Fixpoint propagateLevel_loop (fuel : nat) (root : GroupNode)
  (queue : list (list jsstring)) (levelTags : list jsstring)
  (fileTags : list (TFile * list jsstring)) (levelIdx : Z) : option GroupNode :=
  match queue with
  | [] => Some root
  | p :: queue' =>
      match fuel with
      | O => None
      | S fuel' =>
          node <- nodeAt root p ;;
          match files node with
          | Some (f :: r) =>
              node' <- splitNode node (f :: r) levelTags fileTags levelIdx ;;
              propagateLevel_loop fuel' (replaceAt root p node') queue'
                                  levelTags fileTags levelIdx
          | _ =>
              propagateLevel_loop fuel' root
                (fold_left (fun q kc => (p ++ [fst kc]) :: q)
                           (children_of node) queue')
                levelTags fileTags levelIdx
          end
      end
  end.

(** The number of nodes of a tree: no run of the loop takes more
    iterations, since every iteration pops another node of the tree the
    loop started with. *)
Fixpoint nodeCount (node : GroupNode) : nat :=
  match node with
  | mkGroupNode _ _ ch _ =>
      S (match ch with
         | Some l => fold_right (fun kc acc => (nodeCount (snd kc) + acc)%nat) O l
         | None => O
         end)
  end.

(** [propagateLevel] (lines 754-793): the loop, started with
    [queue = [root]]. *)
Definition propagateLevel (root : GroupNode) (levelTags : list jsstring)
  (fileTags : list (TFile * list jsstring)) (levelIdx : Z) : option GroupNode :=
  propagateLevel_loop (nodeCount root) root [[]] levelTags fileTags levelIdx.

(** The loop as a recursion over the tree: a node that holds files is
    split, the children of a node that holds none are visited.  On a tree
    whose maps have distinct keys this is what the loop computes
    ([propagateLevel_rec_eq]). *)
Fixpoint propagateLevel_rec (root : GroupNode) (levelTags : list jsstring)
  (fileTags : list (TFile * list jsstring)) (levelIdx : Z) : option GroupNode :=
  match root with
  | mkGroupNode nm lv ch fs =>
      match fs with
      | Some (f :: r) => splitNode root (f :: r) levelTags fileTags levelIdx
      | _ =>
          match ch with
          | Some l =>
              l' <- visitChildren
                      (fun c => propagateLevel_rec c levelTags fileTags levelIdx) l ;;
              Some (mkGroupNode nm lv (Some l') fs)
          | None => Some root
          end
      end
  end.

(** [addFileToFolderTree] (lines 806-822), after [parts] and the file
    name have been separated: the descent along [parts]. *)
Fixpoint addAlong (node : GroupNode) (parts : list jsstring) (file : TFile)
  : GroupNode :=
  match parts with
  | [] => with_files node (set_add TFile_eq_dec (files_of node) file)
  | folderName :: rest =>
      let ch := children_of node in
      let next :=
        match map_get jsstring_eq_dec ch folderName with
        | Some n => n
        | None => mkGroupNode folderName (level node + 1) (Some []) (Some [])
        end in
      with_children node (map_set jsstring_eq_dec ch folderName (addAlong next rest file))
  end.

(** [parts.pop()]: the array without its last element. *)
Definition pop (parts : list jsstring) : list jsstring := removelast parts.

Definition addFileToFolderTree (root : GroupNode) (fullPath : jsstring)
  (file : TFile) : GroupNode :=
  let parts := split 47%N fullPath in
  addAlong root (pop parts) file.

(** ** Building the two trees: [MagiofilesView.renderTree] (lines 515-553) *)

(** What [renderTree] has after line 553: nothing when the vault is
    empty (the early return of line 522), otherwise the root of the
    By-Tags tree and the root of the By-Folder tree. *)
Inductive Rendered : Type :=
| NoFiles
| Trees (tagsRoot folderRoot : GroupNode).

(** Lines 527-528: the tags of the markdown files. *)
Definition buildFileTags (app : App) (mdFiles : list TFile)
  : list (TFile * list jsstring) :=
  fold_left (fun m f => map_set TFile_eq_dec m f (collectTagsForFile app f))
            mdFiles [].

(** Lines 534-537: does some level match the file? *)
Definition matchesSomeLevel (fileTags : list (TFile * list jsstring))
  (lvls : list Level) (f : TFile) : bool :=
  existsb
    (fun lvl =>
       truthy (tagMatchesAny
                 (match map_get TFile_eq_dec fileTags f with
                  | Some s => s
                  | None => []
                  end)
                 (level_tags lvl)))
    lvls.

(** Lines 531-539: the set [matched]. *)
Definition buildMatched (fileTags : list (TFile * list jsstring))
  (lvls : list Level) (mdFiles : list TFile) : list TFile :=
  fold_left
    (fun matched f =>
       if matchesSomeLevel fileTags lvls f
       then set_add TFile_eq_dec matched f
       else matched)
    mdFiles [].

(** Lines 543-546: [for (let lv = 0; lv < cfg.levels.length; lv++)]. *)
Fixpoint applyLevels (lvls : list Level) (lv : Z)
  (fileTags : list (TFile * list jsstring)) (tagsRoot : GroupNode)
  : option GroupNode :=
  match lvls with
  | [] => Some tagsRoot
  | levelCfg :: rest =>
      r <- propagateLevel tagsRoot (level_tags levelCfg) fileTags lv ;;
      applyLevels rest (lv + 1) fileTags r
  end.

(** Lines 549-553: the By-Folder tree, from the files not in [matched]. *)
Definition buildFolderTree (matched : list TFile) (allFiles : list TFile)
  : GroupNode :=
  fold_left
    (fun folderRoot f =>
       if set_has TFile_eq_dec matched f then folderRoot
       else addFileToFolderTree folderRoot (path f) f)
    allFiles
    (mkGroupNode (js "root") (-1) (Some []) (Some [])).

(** [allFiles] is [vault.getFiles()], [mdFiles] is
    [vault.getMarkdownFiles()], [cfg] the active view. *)
Definition renderTree (app : App) (allFiles mdFiles : list TFile)
  (cfg : ViewCfg) : option Rendered :=
  match allFiles with
  | [] => Some NoFiles
  | _ :: _ =>
      let fileTags := buildFileTags app mdFiles in
      let matched := buildMatched fileTags (view_levels cfg) mdFiles in
      tagsRoot <- applyLevels (view_levels cfg) 0 fileTags
                    (mkGroupNode (js "root") (-1) (Some []) (Some matched)) ;;
      Some (Trees tagsRoot (buildFolderTree matched allFiles))
  end.

(** ** Sorting: [getSortedEntries] (lines 824-839) *)

Section Sorting.

(** [String.prototype.localeCompare], the collation of the host. *)
Variable localeCompare : jsstring -> jsstring -> Z.

(** [Array.prototype.sort] with a comparator: ECMAScript requires the
    sort to be stable, and for a consistent comparator that fixes the
    result; it is computed here by insertion from the right.  A
    comparator result that is positive puts [a] after [b]. *)
Fixpoint sort_insert {A : Type} (cmp : A -> A -> Z) (x : A) (l : list A) : list A :=
  match l with
  | [] => [x]
  | y :: r => if (cmp x y <=? 0)%Z then x :: l else y :: sort_insert cmp x r
  end.

Definition Array_sort {A : Type} (cmp : A -> A -> Z) (arr : list A) : list A :=
  fold_right (sort_insert cmp) [] arr.

(** The comparator of the ["count"] mode. *)
Definition countCompare (a b : jsstring * GroupNode) : Z :=
  let ca := countFiles (snd a) in
  let cb := countFiles (snd b) in
  if negb (cb =? ca)%Z then (cb - ca)%Z
  else localeCompare (fst a) (fst b).

Definition getSortedEntries (map : list (jsstring * GroupNode)) (mode : SortMode)
  : list (jsstring * GroupNode) :=
  let arr := map in
  match mode with
  | Count => Array_sort countCompare arr
  | AlphaDesc => Array_sort (fun a b => localeCompare (fst b) (fst a)) arr
  | Alpha => Array_sort (fun a b => localeCompare (fst a) (fst b)) arr
  end.

End Sorting.

(** A collation to run the sort with: strings compared unit by unit,
    a proper prefix first. *)
Fixpoint codeUnitCompare (a b : jsstring) : Z :=
  match a, b with
  | [], [] => 0
  | [], _ :: _ => -1
  | _ :: _, [] => 1
  | x :: a', y :: b' =>
      match (x ?= y)%N with
      | Lt => -1
      | Gt => 1
      | Eq => codeUnitCompare a' b'
      end
  end.

(** ** Deleting a view: the handler of the Delete button
    ([MagiofilesView.renderControls], lines 463-474) *)

(** The handler either shows the notice and returns, or saves changed
    settings. *)
Inductive DeleteOutcome : Type :=
| Rejected (notice : jsstring) (settings : MagiofilesSettings)
| Saved (settings : MagiofilesSettings).

Definition settingsOf (o : DeleteOutcome) : MagiofilesSettings :=
  match o with
  | Rejected _ s => s
  | Saved s => s
  end.

(** [this.plugin.settings.activeViewId === view.id] *)
Definition activeIs (active : option jsstring) (i : jsstring) : bool :=
  match active with
  | Some a => str_eqb a i
  | None => false
  end.

(** [views[0].id] throws when the array is empty. *)
Definition delBtn_onclick (settings : MagiofilesSettings) (view : ViewCfg)
  : option DeleteOutcome :=
  if (List.length (views settings) =? 1)%nat then
    Some (Rejected (js "Cannot delete the last view") settings)
  else
    let views' :=
      List.filter (fun v => negb (str_eqb (view_id v) (view_id view)))
                  (views settings) in
    if activeIs (activeViewId settings) (view_id view) then
      match views' with
      | v0 :: _ =>
          Some (Saved (mkSettings views' (Some (view_id v0)) (sortMode settings)
                         (showFileIcons settings) (showCounts settings)))
      | [] => None
      end
    else
      Some (Saved (mkSettings views' (activeViewId settings) (sortMode settings)
                     (showFileIcons settings) (showCounts settings))).

(** ** Notions used to state the properties *)

(** All files held in the subtree of a node, with multiplicity, in the
    order [countFiles] and the renderer walk the tree. *)
Fixpoint treeFiles (node : GroupNode) : list TFile :=
  match node with
  | mkGroupNode _ _ ch fs =>
      (match fs with Some l => l | None => [] end) ++
      (match ch with
       | Some l => flat_map (fun kc => treeFiles (snd kc)) l
       | None => []
       end)
  end.

(** A property of every node of a subtree. *)
Fixpoint allNodes (P : GroupNode -> Prop) (node : GroupNode) : Prop :=
  P node /\
  match node with
  | mkGroupNode _ _ ch _ =>
      match ch with
      | Some l => fold_right (fun kc acc => allNodes P (snd kc) /\ acc) True l
      | None => True
      end
  end.

(** A node that has been given children holds no files of its own. *)
Definition terminalBucket (node : GroupNode) : Prop :=
  children_of node <> [] -> files_of node = [].

(** The sum of a list of numbers. *)
Definition sumZ (l : list Z) : Z := fold_right Z.add 0%Z l.

(** The files held by the nodes of a children map. *)
Definition childrenFiles (l : list (jsstring * GroupNode)) : list TFile :=
  flat_map (fun kc => treeFiles (snd kc)) l.

(** Every node has its [files] field. *)
Definition hasFiles (node : GroupNode) : Prop := files node <> None.

(** [file] is in the file set of the node reached from [node] along the
    folder names [parts]. *)
Fixpoint atPath (node : GroupNode) (parts : list jsstring) (file : TFile) : Prop :=
  match parts with
  | [] => In file (files_of node)
  | k :: rest =>
      match map_get jsstring_eq_dec (children_of node) k with
      | Some c => atPath c rest file
      | None => False
      end
  end.

(** The folder names of a path: [parts] after [parts.pop()]. *)
Definition folderParts (fullPath : jsstring) : list jsstring :=
  pop (split 47%N fullPath).

(** *** The classifier as the specification words it *)

(** Normalization with the discarded case made explicit. *)
Definition normalize_spec (s : jsstring) : option jsstring :=
  match trim s with
  | [] => None
  | t => Some (if startsWith (js "#") t then t else js "#" ++ t)
  end.

(** The strings of a frontmatter tag field; a missing or malformed field
    has none. *)
Definition fmStrings (t : FmTags) : list jsstring :=
  match t with
  | FmString s => [s]
  | FmArray items => List.map String_of items
  | FmAbsent | FmOther => []
  end.

(** Membership in the union of the normalized inline tags and the
    normalized frontmatter tags. *)
Definition classify_spec (inline : list jsstring) (fm : FmTags) (x : jsstring) : Prop :=
  (exists s, In s inline /\ normalize_spec s = Some x) \/
  (exists s, In s (fmStrings fm) /\ normalize_spec s = Some x).

(** *** The split of one level *)

(** The label of the bucket a file goes to when a level is applied. *)
Definition bucketKey (fileTags : list (TFile * list jsstring))
  (levelTags : list jsstring) (f : TFile) : jsstring :=
  match matchOf fileTags levelTags f with
  | Some (Some w) => if nonEmpty w then stripHash w else js "Others"
  | _ => js "Others"
  end.

(** Did the file go to its bucket through a pattern? *)
Definition byPattern (fileTags : list (TFile * list jsstring))
  (levelTags : list jsstring) (f : TFile) : bool :=
  match matchOf fileTags levelTags f with
  | Some m => truthy m
  | None => false
  end.

(** The files of the entry labelled [k] of a children map, none when
    there is no such entry. *)
Definition filesAt (ch : list (jsstring * GroupNode)) (k : jsstring) : list TFile :=
  match map_get jsstring_eq_dec ch k with
  | Some b => files_of b
  | None => []
  end.

(** The files of the child labelled [k]. *)
Definition bucketFiles (node : GroupNode) (k : jsstring) : list TFile :=
  filesAt (children_of node) k.

(** A bucket as a split leaves it: it has its [files] set and no
    children. *)
Definition leafBucket (b : GroupNode) : Prop :=
  files b <> None /\ children_of b = [].

(** A property of buckets that adding a file keeps. *)
Definition bucketProperty (Q : GroupNode -> Prop) : Prop :=
  (forall b fs, Q b -> Q (with_files b fs)) /\
  (forall k lv, Q (newBucket k lv)).

(** What is left to do for the nodes on the work list, in the order the
    loop pops them, with [propagateLevel_rec] for each. *)
Fixpoint finishQueue (root : GroupNode) (queue : list (list jsstring))
  (levelTags : list jsstring) (fileTags : list (TFile * list jsstring))
  (levelIdx : Z) : option GroupNode :=
  match queue with
  | [] => Some root
  | p :: queue' =>
      node <- nodeAt root p ;;
      node' <- propagateLevel_rec node levelTags fileTags levelIdx ;;
      finishQueue (replaceAt root p node') queue' levelTags fileTags levelIdx
  end.

(** The nodes the paths of a work list lead to, counted with their
    subtrees. *)
Definition queueSize (root : GroupNode) (queue : list (list jsstring)) : nat :=
  list_sum
    (List.map (fun p => match nodeAt root p with
                        | Some n => nodeCount n
                        | None => O
                        end) queue).

(** The maps of a tree have distinct keys, as every [Map] has. *)
Definition distinctKeys (node : GroupNode) : Prop :=
  allNodes (fun n => NoDup (map_keys (children_of n))) node.

(** Neither path is a prefix of the other: the nodes they lead to are
    in different subtrees. *)
Definition apart (p q : list jsstring) : Prop :=
  (forall s, q <> p ++ s) /\ (forall s, p <> q ++ s).

(** The paths of a work list lead to subtrees that are pairwise
    disjoint. *)
Fixpoint allApart (queue : list (list jsstring)) : Prop :=
  match queue with
  | [] => True
  | p :: rest => Forall (apart p) rest /\ allApart rest
  end.

(** What holds of the By-Tags tree while the levels are applied: every
    node has its [files] set, a node with children holds no files, the
    maps have distinct keys, no file is held twice, and every file held
    has an entry in [fileTags]. *)
Definition tagTreeInv (fileTags : list (TFile * list jsstring)) (n : GroupNode)
  : Prop :=
  allNodes hasFiles n /\
  allNodes terminalBucket n /\
  distinctKeys n /\
  NoDup (treeFiles n) /\
  forall f, In f (treeFiles n) -> map_get TFile_eq_dec fileTags f <> None.

(** What holds of the By-Folder tree while files are added: no file is
    held twice, and every file held is in the node its path leads to. *)
Definition folderTreeInv (root : GroupNode) : Prop :=
  NoDup (treeFiles root) /\
  forall f, In f (treeFiles root) -> atPath root (folderParts (path f)) f.

(** *** Sample data *)

Definition fileA : TFile := mkTFile (js "notes/A.md") (js "A").
Definition fileB : TFile := mkTFile (js "notes/B.md") (js "B").
Definition fileC : TFile := mkTFile (js "C.md") (js "C").

(** A cache: [A.md] carries the inline tag [#project/work], [B.md] the
    frontmatter tag [project/home], [C.md] has no metadata. *)
Definition appProject : App :=
  fun f =>
    if TFile_eq_dec f fileA
    then Some (mkCache (Some [js "#project/work"]) None)
    else if TFile_eq_dec f fileB
    then Some (mkCache None (Some (FmArray [ItemString (js " project/home ")])))
    else None.

(** The view with the one level [{ name: "Project", tags: ["#project"] }]. *)
Definition cfgProject : ViewCfg :=
  mkViewCfg (js "default") (js "Default")
            [mkLevel (js "Project") [js "#project"]].



(** Three sibling buckets: ["b"] and ["a"] hold one file each, ["c"]
    holds two. *)
Definition siblings : list (jsstring * GroupNode) :=
  [(js "b", mkGroupNode (js "b") 0 (Some []) (Some [fileB]));
   (js "a", mkGroupNode (js "a") 0 (Some []) (Some [fileA]));
   (js "c", mkGroupNode (js "c") 0 (Some []) (Some [fileA; fileC]))].

(** Settings with two views, the first of them active. *)
Definition settingsTwo : MagiofilesSettings :=
  mkSettings
    [mkViewCfg (js "default") (js "Default") [];
     mkViewCfg (js "view-1") (js "Work") []]
    (Some (js "default")) Alpha true true.

(** A node that holds [A.md] and [B.md] and has no children. *)
Definition nodeAB : GroupNode :=
  mkGroupNode (js "root") (-1) (Some []) (Some [fileA; fileB]).

(** *** The matching predicate *)

(** Pattern [p] is a tag of [T], or some tag of [T] is [p], a ['/'] and
    any further text. *)
Definition matchesPattern (T : list jsstring) (p : jsstring) : Prop :=
  In p T \/ exists t rest, In t T /\ t = p ++ js "/" ++ rest.

(** The same with at least one character required after the ['/']. *)
Definition matchesPattern_strict (T : list jsstring) (p : jsstring) : Prop :=
  In p T \/ exists t rest, In t T /\ rest <> [] /\ t = p ++ js "/" ++ rest.

(** A cache that reports the inline tag [a], written without marker. *)
Definition appBare : App :=
  fun _ => Some (mkCache (Some [js "a"]) None).

(** * The rest of [main.ts] *)

From Stdlib Require DecimalString DecimalN DecimalPos.

(** ** Views: [getActiveViewCfg] and the handlers that change the views *)

(** [DEFAULT_SETTINGS] (lines 16-22) *)
Definition DEFAULT_SETTINGS : MagiofilesSettings :=
  mkSettings [mkViewCfg (js "default") (js "Default") []]
             (Some (js "default")) Alpha true true.

(** [getActiveViewCfg] (lines 85-90).  Reading [views[0].id] throws when
    there is no view and no active id; the result of [find(...) ??
    views[0]] is [undefined] (the inner [None]) when there is no view. *)
Definition getActiveViewCfg (settings : MagiofilesSettings)
  : option (option ViewCfg) :=
  id <- match activeViewId settings with
        | Some a => Some a
        | None =>
            match views settings with
            | v0 :: _ => Some (view_id v0)
            | [] => None
            end
        end ;;
  Some (match List.find (fun v => str_eqb (view_id v) id) (views settings) with
        | Some v => Some v
        | None => hd_error (views settings)
        end).

(** The item of the views menu (lines 350-353) and the drop-down of the
    settings tab (lines 860-863): [settings.activeViewId = v.id]. *)
Definition selectView (settings : MagiofilesSettings) (id : jsstring)
  : MagiofilesSettings :=
  mkSettings (views settings) (Some id) (sortMode settings)
             (showFileIcons settings) (showCounts settings).

(** A number in a template literal: the decimal digits of a
    non-negative integer. *)
Definition numberToString (n : N) : jsstring :=
  js (DecimalString.NilZero.string_of_uint (N.to_uint n)).

(** [`view-${Date.now()}`] *)
Definition newViewId (now : N) : jsstring := js "view-" ++ numberToString now.

(** The handler of the "+ Add View" button (lines 478-490).  [name] is
    what [prompt] returned ([None] is [null]), [now] is [Date.now()], [cfg]
    the active view the controls were rendered for.  The levels are copied
    through JSON, which gives equal levels.  The result is the settings
    that are saved, or [None] when nothing is changed. *)
Definition addViewBtn_onclick (settings : MagiofilesSettings) (cfg : ViewCfg)
  (name : option jsstring) (now : N) : option MagiofilesSettings :=
  match name with
  | Some nm =>
      if nonEmpty nm && nonEmpty (trim nm) then
        let newView := mkViewCfg (newViewId now) (trim nm) (view_levels cfg) in
        Some (mkSettings (views settings ++ [newView]) (activeViewId settings)
                         (sortMode settings) (showFileIcons settings)
                         (showCounts settings))
      else None
  | None => None
  end.

(** ** More notions for the trees *)

(** Every file of the subtree is held by a node exactly [d] levels below
    [n]. *)
Fixpoint heldAtDepth (d : nat) (n : GroupNode) : Prop :=
  match d with
  | O => childrenFiles (children_of n) = []
  | S d' =>
      files_of n = [] /\
      Forall (fun kc => heldAtDepth d' (snd kc)) (children_of n)
  end.

(** Every node below [n] holds a file in its subtree. *)
Definition populated (n : GroupNode) : Prop :=
  allNodes (fun m => Forall (fun kc => treeFiles (snd kc) <> []) (children_of m)) n.

(** The bucket that a split creates for the files [fs] under the label
    [key]. *)
Definition bucketOf (key : jsstring) (levelIdx : Z) (fs : list TFile) : GroupNode :=
  mkGroupNode key levelIdx (Some []) (Some fs).

(** ** Tag suggestions: [collectTagCounts] (lines 731-742) *)

(** [{ name: string; count: number }] *)
Record Suggestion : Type := mkSuggestion {
  sug_name : jsstring;
  sug_count : Z
}.

(** [const key = stripHash(t); map.set(key, (map.get(key) ?? 0) + 1)] *)
Definition countTag (map : list (jsstring * Z)) (t : jsstring)
  : list (jsstring * Z) :=
  let key := stripHash t in
  map_set jsstring_eq_dec map key
    ((match map_get jsstring_eq_dec map key with
      | Some n => n
      | None => 0
      end) + 1)%Z.

(** [mdFiles] is [app.vault.getMarkdownFiles()]. *)
Definition collectTagCounts (app : App) (mdFiles : list TFile) : list Suggestion :=
  let map :=
    fold_left
      (fun map f => fold_left countTag (collectTagsForFile app f) map)
      mdFiles [] in
  List.map (fun e => mkSuggestion (fst e) (snd e)) map.

(** The comparator of line 360:
    [b.count - a.count || a.name.localeCompare(b.name)]. *)
Definition tagCountCompare (localeCompare : jsstring -> jsstring -> Z)
  (a b : Suggestion) : Z :=
  if negb ((sug_count b - sug_count a) =? 0)%Z
  then (sug_count b - sug_count a)%Z
  else localeCompare (sug_name a) (sug_name b).

(** [const tagCounts = collectTagCounts(this.app).sort(...)] (line 360) *)
Definition tagCounts (localeCompare : jsstring -> jsstring -> Z) (app : App)
  (mdFiles : list TFile) : list Suggestion :=
  Array_sort (tagCountCompare localeCompare) (collectTagCounts app mdFiles).

(** The number of tags among [ts] that are shown as [k]. *)
Definition shownAs (k : jsstring) (ts : list jsstring) : nat :=
  length (List.filter (fun t => str_eqb (stripHash t) k) ts).

(** The tags of all markdown files, file by file. *)
Definition allTags (app : App) (mdFiles : list TFile) : list jsstring :=
  flat_map (collectTagsForFile app) mdFiles.

(** ** The views menu ([MagiofilesView.renderControls], lines 339-357) *)

(** The icon of the menu item of the view [v]:
    [v.id === (settings.activeViewId ?? "default") ? "check" : "circle"]. *)
Definition viewsMenuIcon (settings : MagiofilesSettings) (v : ViewCfg) : jsstring :=
  if str_eqb (view_id v)
             (match activeViewId settings with
              | Some a => a
              | None => js "default"
              end)
  then js "check" else js "circle".

(** Settings as they can be loaded from the data file: one view, whose
    id is not ["default"], and no active id. *)
Definition settingsLoaded : MagiofilesSettings :=
  mkSettings [mkViewCfg (js "view-1") (js "Work") []] None Alpha true true.

(** ** The tag picker: [createTagPicker] (lines 911-995) *)

(** The state of a picker: the array [selected] and [input.value]. *)
Record TagPicker : Type := mkTagPicker {
  selected : list jsstring;
  input_value : jsstring
}.

(** [arr.includes(x)] *)
Definition includes (arr : list jsstring) (x : jsstring) : bool :=
  existsb (fun y => str_eqb y x) arr.

(** [if (!selected.includes(x)) selected.push(x)] *)
Definition pushNew (sel : list jsstring) (x : jsstring) : list jsstring :=
  if includes sel x then sel else sel ++ [x].

(** [let selected = Array.from(new Set(initial.map(stripHash)))]; the
    input element is new and its value empty. *)
Definition createTagPicker (initial : list jsstring) : TagPicker :=
  mkTagPicker
    (fold_left (set_add jsstring_eq_dec) (List.map stripHash initial) []) [].

(** A handler returns the state it leaves and the argument of the call
    of [onChange], when it makes one. *)
Definition Handled : Type := (TagPicker * option (list jsstring))%type.

(** [rm.onclick] of the chip of [t] (lines 932-937) *)
Definition rm_onclick (p : TagPicker) (t : jsstring) : Handled :=
  let selected' := List.filter (fun x => negb (str_eqb x t)) (selected p) in
  (mkTagPicker selected' (input_value p), Some selected').

(** [item.onclick] of the suggestion [s] (lines 954-961) *)
Definition item_onclick (p : TagPicker) (s : Suggestion) : Handled :=
  let selected' := pushNew (selected p) (sug_name s) in
  (mkTagPicker selected' [], Some selected').

(** [commitInput] (lines 966-974) *)
Definition commitInput (p : TagPicker) : Handled :=
  let raw := List.filter nonEmpty (List.map trim (split 44%N (input_value p))) in
  match raw with
  | [] => (p, None)
  | _ :: _ =>
      let selected' := fold_left pushNew raw (selected p) in
      (mkTagPicker selected' [], Some selected')
  end.

(** [input.onkeydown] (lines 979-990), for the key [ev.key]. *)
Definition input_onkeydown (p : TagPicker) (key : jsstring) : Handled :=
  if str_eqb key (js "Enter") || str_eqb key (js ",") then commitInput p
  else if str_eqb key (js "Backspace") && negb (nonEmpty (input_value p)) &&
          negb (length (selected p) =? 0)%nat
  then
    let selected' := pop (selected p) in
    (mkTagPicker selected' (input_value p), Some selected')
  else (p, None).

(** [s.includes(q)] for strings *)
Fixpoint String_includes (s q : jsstring) : bool :=
  startsWith q s ||
  match s with
  | [] => false
  | _ :: r => String_includes r q
  end.

(** [updateDropdown] (lines 941-964): the suggestions it shows, or
    nothing when it hides the dropdown.  [toLowerCase] is
    [String.prototype.toLowerCase] of the host. *)
Definition updateDropdown (toLowerCase : jsstring -> jsstring)
  (suggestions : list Suggestion) (p : TagPicker) : option (list Suggestion) :=
  let q := toLowerCase (trim (input_value p)) in
  let avail :=
    List.filter (fun s => negb (includes (selected p) (sug_name s))) suggestions in
  let filtered :=
    if nonEmpty q
    then List.filter (fun s => String_includes (toLowerCase (sug_name s)) q) avail
    else avail in
  match filtered with
  | [] => None
  | _ :: _ => Some (firstn 400 filtered)
  end.

(** What happens to a picker: a chip is removed, a suggestion is
    clicked, a key goes down in the input, or the user changes the text of
    the input. *)
Inductive PickerEvent : Type :=
| ChipRemove (t : jsstring)
| ItemClick (s : Suggestion)
| KeyDown (key : jsstring)
| InputText (value : jsstring).

Definition handle (p : TagPicker) (ev : PickerEvent) : Handled :=
  match ev with
  | ChipRemove t => rm_onclick p t
  | ItemClick s => item_onclick p s
  | KeyDown key => input_onkeydown p key
  | InputText value => (mkTagPicker (selected p) value, None)
  end.

(** The state after a sequence of events, and the arguments of the
    calls of [onChange] made on the way. *)
Fixpoint runPicker (p : TagPicker) (evs : list PickerEvent)
  : TagPicker * list (list jsstring) :=
  match evs with
  | [] => (p, [])
  | ev :: rest =>
      let h := handle p ev in
      let r := runPicker (fst h) rest in
      (fst r, match snd h with
              | Some sel => sel :: snd r
              | None => snd r
              end)
  end.

(** The [onChange] that [renderControls] gives to the picker of a level
    (lines 401-404): [level.tags = tagsNoHash.map(normalizeTag)]. *)
Definition level_onChange (level : Level) (tagsNoHash : list jsstring) : Level :=
  mkLevel (level_name level) (List.map normalizeTag tagsNoHash).

(** The picker of a level is created with [level.tags.map(stripHash)]. *)
Definition levelPicker (level : Level) : TagPicker :=
  createTagPicker (List.map stripHash (level_tags level)).

(** ** The levels of the active view ([MagiofilesView.renderControls],
    lines 362-433) *)

(** [arr[i]] replaced by [f(arr[i])] for the first [i] with [p(arr[i])]. *)
Fixpoint updateFirst (p : ViewCfg -> bool) (f : ViewCfg -> ViewCfg)
  (l : list ViewCfg) : list ViewCfg :=
  match l with
  | [] => []
  | v :: r => if p v then f v :: r else v :: updateFirst p f r
  end.

(** [cfg] is the object that [getActiveViewCfg] returns, an element of
    [settings.views]: a handler that changes [cfg] changes that element of
    the array.  Reading [cfg.levels] throws when [cfg] is [undefined]. *)
Definition withActiveViewCfg (settings : MagiofilesSettings)
  (f : ViewCfg -> ViewCfg) : option MagiofilesSettings :=
  id <- match activeViewId settings with
        | Some a => Some a
        | None => match views settings with v0 :: _ => Some (view_id v0) | [] => None end
        end ;;
  views' <- match List.find (fun v => str_eqb (view_id v) id) (views settings) with
            | Some _ =>
                Some (updateFirst (fun v => str_eqb (view_id v) id) f (views settings))
            | None =>
                match views settings with
                | v0 :: r => Some (f v0 :: r)
                | [] => None
                end
            end ;;
  Some (mkSettings views' (activeViewId settings) (sortMode settings)
                   (showFileIcons settings) (showCounts settings)).

(** [`Level ${n}`] *)
Definition levelName (n : nat) : jsstring :=
  js "Level " ++ numberToString (N.of_nat n).

(** [cfg.levels.push({ name: `Level ${cfg.levels.length + 1}`, tags: [] })] *)
Definition pushLevel (cfg : ViewCfg) : ViewCfg :=
  mkViewCfg (view_id cfg) (view_name cfg)
    (view_levels cfg ++ [mkLevel (levelName (length (view_levels cfg) + 1)) []]).

(** [addLevelBtn.onclick] (lines 421-433) *)
Definition addLevelBtn_onclick (settings : MagiofilesSettings)
  : option MagiofilesSettings :=
  withActiveViewCfg settings pushLevel.

(** [cfg.levels.splice(idx, 1)] *)
Definition spliceLevel (idx : nat) (cfg : ViewCfg) : ViewCfg :=
  mkViewCfg (view_id cfg) (view_name cfg)
    (firstn idx (view_levels cfg) ++ skipn (S idx) (view_levels cfg)).

(** [delBtn.onclick] of the row of the level [idx] (lines 406-418) *)
Definition levelDelBtn_onclick (settings : MagiofilesSettings) (idx : nat)
  : option MagiofilesSettings :=
  withActiveViewCfg settings (spliceLevel idx).

(** ** The panel: what [renderTree], [renderGroup] and [renderFile] put
    into [treeEl] (lines 555-697) *)

(** The two kinds of click handlers of the tree: the toggle of a section
    or group, which adds its path to [expandedPaths] or deletes it, and
    the handler of a file row, which opens the file. *)
Inductive Handler : Type :=
| Toggle (fullPath : jsstring)
| OpenFile (file : TFile).

(** An element as the renderer leaves it: tag, classes, text, the icon
    set by [setIcon], attributes (with [dataset.path] as [data-path]),
    inline styles, the [onclick] handler and the child elements. *)
Unset Elimination Schemes.
Inductive El : Type := mkEl {
  el_tag : jsstring;
  el_cls : list jsstring;
  el_text : option jsstring;
  el_icon : option jsstring;
  el_attrs : list (jsstring * jsstring);
  el_style : list (jsstring * jsstring);
  el_onclick : option Handler;
  el_children : list El
}.
Set Elimination Schemes.

Definition El_ind (P : El -> Prop)
  (step : forall tg cls tx ic at_ st oc ch,
      Forall P ch -> P (mkEl tg cls tx ic at_ st oc ch))
  : forall e, P e :=
  fix F (e : El) : P e :=
    match e with
    | mkEl tg cls tx ic at_ st oc ch =>
        step tg cls tx ic at_ st oc ch
          ((fix G (l : list El) : Forall P l :=
              match l with
              | [] => Forall_nil P
              | x :: r => Forall_cons x (F x) (G r)
              end) ch)
    end.

(** [parent.createDiv({ cls, text })], [parent.createSpan({ cls, text })] *)
Definition createDiv (cls : list jsstring) (text : option jsstring) : El :=
  mkEl (js "div") cls text None [] [] None [].

Definition createSpan (cls : list jsstring) (text : option jsstring) : El :=
  mkEl (js "span") cls text None [] [] None [].

(** [setIcon(el, icon)] *)
Definition setIcon (el : El) (icon : jsstring) : El :=
  mkEl (el_tag el) (el_cls el) (el_text el) (Some icon) (el_attrs el)
       (el_style el) (el_onclick el) (el_children el).

(** [el.setAttr(k, v)], [el.dataset.path = v] *)
Definition setAttr (el : El) (k v : jsstring) : El :=
  mkEl (el_tag el) (el_cls el) (el_text el) (el_icon el)
       (map_set jsstring_eq_dec (el_attrs el) k v)
       (el_style el) (el_onclick el) (el_children el).

(** [el.style.<k> = v] *)
Definition setStyle (el : El) (k v : jsstring) : El :=
  mkEl (el_tag el) (el_cls el) (el_text el) (el_icon el) (el_attrs el)
       (map_set jsstring_eq_dec (el_style el) k v)
       (el_onclick el) (el_children el).

(** [el.addClass(c)] *)
Definition addClass (el : El) (c : jsstring) : El :=
  mkEl (el_tag el) (set_add jsstring_eq_dec (el_cls el) c) (el_text el)
       (el_icon el) (el_attrs el) (el_style el) (el_onclick el) (el_children el).

(** [el.setText(t)] *)
Definition setText (el : El) (t : jsstring) : El :=
  mkEl (el_tag el) (el_cls el) (Some t) (el_icon el) (el_attrs el)
       (el_style el) (el_onclick el) (el_children el).

(** [el.onclick = h] *)
Definition setOnclick (el : El) (h : Handler) : El :=
  mkEl (el_tag el) (el_cls el) (el_text el) (el_icon el) (el_attrs el)
       (el_style el) (Some h) (el_children el).

(** The elements created in [el], in the order of their creation. *)
Definition appendChildren (el : El) (cs : list El) : El :=
  mkEl (el_tag el) (el_cls el) (el_text el) (el_icon el) (el_attrs el)
       (el_style el) (el_onclick el) (el_children el ++ cs).

(** [String(n)] for an integer. *)
Definition numberToStringZ (z : Z) : jsstring :=
  if (z <? 0)%Z then js "-" ++ numberToString (Z.to_N (- z))
  else numberToString (Z.to_N z).

(** [` (${count})`] *)
Definition flairText (count : Z) : jsstring :=
  js " (" ++ numberToStringZ count ++ js ")".

(** A loop whose body may throw, collecting what the iterations create. *)
Fixpoint forEach {A B : Type} (body : A -> option B) (l : list A)
  : option (list B) :=
  match l with
  | [] => Some []
  | x :: r =>
      y <- body x ;;
      ys <- forEach body r ;;
      Some (y :: ys)
  end.

Section Panel.

Variable localeCompare : jsstring -> jsstring -> Z.
Variable settings : MagiofilesSettings.

(** [this.expandedPaths] *)
Variable expandedPaths : list jsstring.

(** [renderFile] (lines 680-697): the row it creates in [parent]. *)
Definition renderFile (file : TFile) : El :=
  let item := createDiv [js "tree-item"; js "nav-file"] None in
  let self := createDiv [js "tree-item-self"; js "nav-file-title"] None in
  let self := setStyle self (js "position") (js "relative") in
  let ico :=
    if showFileIcons settings
    then [setIcon (createSpan [js "tree-item-icon"] None) (js "file")]
    else [] in
  let name := createSpan [js "tree-item-inner"] None in
  let name := setText name (basename file) in
  let self := appendChildren self (ico ++ [name]) in
  let self := setAttr self (js "data-path") (path file) in
  setOnclick (appendChildren item [self]) (OpenFile file).

(** [[...files].sort((a,b)=>a.basename.localeCompare(b.basename))] *)
Definition sortFiles (fs : list TFile) : list TFile :=
  Array_sort (fun a b => localeCompare (basename a) (basename b)) fs.

(** The header and the wrapper of a group or section, put together: the
    collapsed state is set when the path is not expanded (lines 664-669,
    581-586). *)
Definition collapsible (item self childrenWrap : El) (expanded : bool)
  (fullPath : jsstring) (content : list El) : El :=
  let item := if expanded then item else addClass item (js "is-collapsed") in
  let self := if expanded then self else addClass self (js "is-collapsed") in
  let childrenWrap :=
    if expanded then childrenWrap
    else setStyle childrenWrap (js "display") (js "none") in
  let self := setOnclick self (Toggle fullPath) in
  appendChildren item [self; appendChildren childrenWrap content].

(** [renderGroup] (lines 633-678): the element it creates in [parent].
    The recursion follows the array that [getSortedEntries] returns; it is
    given [fuel] nested calls and fails when they do not suffice. *)
Fixpoint renderGroup_fuel (fuel : nat) (node : GroupNode)
  (displayName parentPath : jsstring) : option El :=
  match fuel with
  | O => None
  | S fuel' =>
      let item := createDiv [js "tree-item"; js "nav-folder"; js "has-children"] None in
      let self := createDiv [js "tree-item-self"; js "nav-folder-title"] None in
      let chevron :=
        setIcon (createSpan [js "tree-item-icon"; js "collapse-icon";
                             js "nav-folder-collapse-indicator"] None)
                (js "chevron-down") in
      let iconSpacer := setIcon (createSpan [js "tree-item-icon"] None) (js "folder") in
      let iconSpacer := setStyle iconSpacer (js "opacity") (js "0") in
      let iconSpacer := setStyle iconSpacer (js "pointer-events") (js "none") in
      let iconSpacer := setAttr iconSpacer (js "aria-hidden") (js "true") in
      let inner := createSpan [js "tree-item-inner"] (Some displayName) in
      let flair :=
        if showCounts settings
        then [createSpan [js "tree-item-flair"] (Some (flairText (countFiles node)))]
        else [] in
      let self := appendChildren self ([chevron; iconSpacer; inner] ++ flair) in
      let childrenWrap :=
        createDiv [js "tree-item-children"; js "nav-folder-children"] None in
      let fullPath :=
        if nonEmpty parentPath then parentPath ++ js "/" ++ displayName
        else displayName in
      let expanded := set_has jsstring_eq_dec expandedPaths fullPath in
      groups <- match children node with
                | Some (kc :: ch) =>
                    forEach
                      (fun e => renderGroup_fuel fuel' (snd e) (fst e) fullPath)
                      (getSortedEntries localeCompare (kc :: ch) (sortMode settings))
                | _ => Some []
                end ;;
      let rows :=
        match files node with
        | Some (f :: fs) => List.map renderFile (sortFiles (f :: fs))
        | _ => []
        end in
      Some (collapsible item self childrenWrap expanded fullPath (groups ++ rows))
  end.

(** [renderGroup], with as many nested calls as the node has nodes. *)
Definition renderGroup (node : GroupNode) (displayName parentPath : jsstring)
  : option El :=
  renderGroup_fuel (nodeCount node) node displayName parentPath.

(** The header of a section (lines 558-566, 595-603). *)
Definition sectionHeader (title : jsstring) (root : GroupNode) : El :=
  let self := createDiv [js "tree-item-self"; js "nav-folder-title"] None in
  let chevron :=
    setIcon (createSpan [js "tree-item-icon"; js "collapse-icon";
                         js "nav-folder-collapse-indicator"] None)
            (js "chevron-down") in
  let inner := createSpan [js "tree-item-inner"] (Some title) in
  let flair :=
    if showCounts settings
    then [createSpan [js "tree-item-flair"] (Some (flairText (countFiles root)))]
    else [] in
  appendChildren self ([chevron; inner] ++ flair).

(** The second part of [renderTree] (lines 555-630): the elements
    created in [treeEl] for the two trees. *)
Definition renderSections (tagsRoot folderRoot : GroupNode) : option (list El) :=
  let tagsItem := createDiv [js "tree-item"; js "nav-folder"; js "has-children"] None in
  let tagsWrap := createDiv [js "tree-item-children"; js "nav-folder-children"] None in
  let tagsPath := js "by-tags" in
  let tagsExpanded := set_has jsstring_eq_dec expandedPaths tagsPath in
  tagsContent <- match children tagsRoot with
                 | Some (kc :: ch) =>
                     forEach
                       (fun e => renderGroup (snd e) (fst e) (js "by-tags"))
                       (getSortedEntries localeCompare (kc :: ch) (sortMode settings))
                 | _ => Some [createDiv [js "mgf-muted"] (Some (js "Empty"))]
                 end ;;
  let folderItem := createDiv [js "tree-item"; js "nav-folder"; js "has-children"] None in
  let folderWrap := createDiv [js "tree-item-children"; js "nav-folder-children"] None in
  let folderPath := js "by-folder" in
  let folderExpanded := set_has jsstring_eq_dec expandedPaths folderPath in
  folderGroups <- match children folderRoot with
                  | Some (kc :: ch) =>
                      forEach
                        (fun e => renderGroup (snd e) (fst e) (js "by-folder"))
                        (getSortedEntries localeCompare (kc :: ch) (sortMode settings))
                  | _ => Some []
                  end ;;
  let folderRows :=
    match files folderRoot with
    | Some (f :: fs) => List.map renderFile (sortFiles (f :: fs))
    | _ => []
    end in
  Some [collapsible tagsItem (sectionHeader (js "By Tags") tagsRoot) tagsWrap
                    tagsExpanded tagsPath tagsContent;
        collapsible folderItem (sectionHeader (js "By Folder") folderRoot) folderWrap
                    folderExpanded folderPath (folderGroups ++ folderRows)].

(** [renderTree] (lines 515-631) as a whole: what [treeEl] holds
    afterwards.  Reading [cfg.levels] throws when [getActiveViewCfg]
    returned [undefined]. *)
Definition renderTree_panel (app : App) (allFiles mdFiles : list TFile)
  : option (list El) :=
  cfg <- getActiveViewCfg settings ;;
  match allFiles with
  | [] => Some [createDiv [js "mgf-muted"] (Some (js "No files."))]
  | _ :: _ =>
      cfg <- cfg ;;
      r <- renderTree app allFiles mdFiles cfg ;;
      match r with
      | NoFiles => Some [createDiv [js "mgf-muted"] (Some (js "No files."))]
      | Trees tagsRoot folderRoot => renderSections tagsRoot folderRoot
      end
  end.

End Panel.

(** *** Reading the panel *)

(** [el.hasClass(c)] *)
Definition hasClass (el : El) (c : jsstring) : bool :=
  set_has jsstring_eq_dec (el_cls el) c.

(** The files of the file rows in an element, in document order: the
    files that the click handlers of the rows open. *)
Fixpoint openedFiles (el : El) : list TFile :=
  match el with
  | mkEl _ _ _ _ _ _ oc ch =>
      (match oc with
       | Some (OpenFile f) => [f]
       | _ => []
       end) ++ flat_map openedFiles ch
  end.

(** A property of every element in an element. *)
Fixpoint allEls (P : El -> Prop) (el : El) : Prop :=
  P el /\
  match el with
  | mkEl _ _ _ _ _ _ _ ch => fold_right (fun c acc => allEls P c /\ acc) True ch
  end.

(** The text of the count of a group or section: the flair in the
    header, its first child. *)
Definition flairOf (item : El) : option jsstring :=
  match el_children item with
  | self :: _ =>
      match List.find (fun c => hasClass c (js "tree-item-flair")) (el_children self) with
      | Some flair => el_text flair
      | None => None
      end
  | [] => None
  end.

(** The count shown for a group or section is the number of the file
    rows in it. *)
Definition flairCounts (el : El) : Prop :=
  hasClass el (js "nav-folder") = true ->
  flairOf el =
  Some (js " (" ++ numberToString (N.of_nat (length (openedFiles el))) ++ js ")").

(** Settings whose one view is [cfgProject], and the paths that [onOpen]
    expands on the first run (lines 141-145). *)
Definition settingsProject : MagiofilesSettings :=
  mkSettings [cfgProject] (Some (js "default")) Alpha true true.

Definition expandedOnOpen : list jsstring := [js "by-tags"; js "by-folder"].

(** *** The expansion keys of the panel *)

(** The paths that the toggles in an element add to [expandedPaths] or
    delete from it, in document order. *)
Fixpoint toggledPaths (el : El) : list jsstring :=
  match el with
  | mkEl _ _ _ _ _ _ oc ch =>
      (match oc with
       | Some (Toggle p) => [p]
       | _ => []
       end) ++ flat_map toggledPaths ch
  end.

(** The [fullPath] of every node below [node], when [parentPath] is the
    [fullPath] of [node] and is not empty. *)
Fixpoint groupPaths (parentPath : jsstring) (node : GroupNode) : list jsstring :=
  match node with
  | mkGroupNode _ _ ch _ =>
      match ch with
      | Some l =>
          flat_map
            (fun kc =>
               (parentPath ++ js "/" ++ fst kc) ::
               groupPaths (parentPath ++ js "/" ++ fst kc) (snd kc))
            l
      | None => []
      end
  end.

(** The labels of a tree are pairwise distinct among siblings, and none
    contains the separator of paths. *)
Definition folderKeys (node : GroupNode) : Prop :=
  allNodes
    (fun n => NoDup (map_keys (children_of n)) /\
              Forall (fun kc => ~ In 47%N (fst kc)) (children_of n))
    node.

(** A vault and a view whose By-Tags tree has two groups with one
    expansion key: [P.md] carries [#a/b], [Q.md] carries [#a] and [#b]; the
    first level has the patterns [#a/b] and [#a], the second [#b]. *)
Definition fileP : TFile := mkTFile (js "P.md") (js "P").
Definition fileQ : TFile := mkTFile (js "Q.md") (js "Q").

Definition appNested : App :=
  fun f =>
    if TFile_eq_dec f fileP then Some (mkCache (Some [js "#a/b"]) None)
    else if TFile_eq_dec f fileQ then Some (mkCache (Some [js "#a"; js "#b"]) None)
    else None.

Definition settingsNested : MagiofilesSettings :=
  mkSettings
    [mkViewCfg (js "default") (js "Default")
       [mkLevel (js "Level 1") [js "#a/b"; js "#a"];
        mkLevel (js "Level 2") [js "#b"]]]
    (Some (js "default")) Alpha true true.

(** A vault whose one note [N.md] has the frontmatter tags ["a"] and
    [" "], and a view whose second level has the patterns [""] and
    ["#a"]. *)
Definition fileN : TFile := mkTFile (js "N.md") (js "N").

Definition appBlank : App :=
  fun f =>
    if TFile_eq_dec f fileN
    then Some (mkCache None
                 (Some (FmArray [ItemString (js "a"); ItemString (js " ")])))
    else None.

Definition cfgBlank : ViewCfg :=
  mkViewCfg (js "default") (js "Default")
    [mkLevel (js "Level 1") [js "#a"];
     mkLevel (js "Level 2") [js ""; js "#a"]].

(** * Properties *)

(** ** Strings *)

Lemma str_eqb_eq (a b : jsstring) : str_eqb a b = true <-> a = b.
Proof.
  unfold str_eqb. destruct (jsstring_eq_dec a b); split; congruence.
Qed.

Lemma str_eqb_refl (a : jsstring) : str_eqb a a = true.
Proof. now apply str_eqb_eq. Qed.

Lemma startsWith_spec (p s : jsstring) :
  startsWith p s = true <-> exists rest, s = p ++ rest.
Proof.
  revert s. induction p as [|a p IH]; intros s; simpl.
  - split; [intros _; now exists s | reflexivity].
  - destruct s as [|b s].
    + split; [discriminate | intros [rest H]; discriminate].
    + rewrite andb_true_iff, N.eqb_eq, IH. split.
      * intros [-> [rest ->]]. now exists rest.
      * intros [rest H]. injection H as -> ->. split; [reflexivity | now exists rest].
Qed.

Lemma trimStart_head (s : jsstring) :
  match trimStart s with
  | [] => True
  | c :: _ => isWhiteSpace c = false
  end.
Proof.
  induction s as [|c r IH]; simpl; [exact I|].
  destruct (isWhiteSpace c) eqn:E; [exact IH | exact E].
Qed.

Lemma trimStart_fix (s : jsstring) :
  match s with [] => True | c :: _ => isWhiteSpace c = false end ->
  trimStart s = s.
Proof.
  destruct s as [|c r]; simpl; [reflexivity|]. now intros ->.
Qed.

Lemma trimStart_idem (s : jsstring) : trimStart (trimStart s) = trimStart s.
Proof. apply trimStart_fix, trimStart_head. Qed.

(** Dropping leading white space from a string that ends in a
    non-white-space unit keeps that last unit. *)
Lemma trimStart_snoc (s : jsstring) (c : char) :
  isWhiteSpace c = false -> trimStart (s ++ [c]) = trimStart s ++ [c].
Proof.
  intros Hc. induction s as [|d r IH]; simpl.
  - now rewrite Hc.
  - destruct (isWhiteSpace d); [exact IH | reflexivity].
Qed.

Lemma trimEnd_fix (s : jsstring) :
  match rev s with [] => True | c :: _ => isWhiteSpace c = false end ->
  trimEnd s = s.
Proof.
  intros H. unfold trimEnd. rewrite (trimStart_fix _ H). apply rev_involutive.
Qed.

Lemma trimEnd_last (s : jsstring) :
  match rev (trimEnd s) with
  | [] => True
  | c :: _ => isWhiteSpace c = false
  end.
Proof.
  unfold trimEnd. rewrite rev_involutive. apply trimStart_head.
Qed.

(** Dropping trailing white space keeps a non-white-space first unit. *)
Lemma trimEnd_cons (c : char) (s : jsstring) :
  isWhiteSpace c = false -> trimEnd (c :: s) = c :: trimEnd s.
Proof.
  intros Hc. unfold trimEnd. simpl rev.
  rewrite (trimStart_snoc _ _ Hc), rev_app_distr. reflexivity.
Qed.

Lemma trimEnd_head (s : jsstring) :
  match s with [] => True | c :: _ => isWhiteSpace c = false end ->
  match trimEnd s with [] => True | c :: _ => isWhiteSpace c = false end.
Proof.
  destruct s as [|c r]; simpl.
  - intros _. exact I.
  - intros Hc. now rewrite (trimEnd_cons _ _ Hc).
Qed.

(** A trimmed string neither starts nor ends with white space. *)
Lemma trim_head (s : jsstring) :
  match trim s with [] => True | c :: _ => isWhiteSpace c = false end.
Proof. apply trimEnd_head, trimStart_head. Qed.

Lemma trim_last (s : jsstring) :
  match rev (trim s) with [] => True | c :: _ => isWhiteSpace c = false end.
Proof. apply trimEnd_last. Qed.

Lemma trim_fix (s : jsstring) :
  match s with [] => True | c :: _ => isWhiteSpace c = false end ->
  match rev s with [] => True | c :: _ => isWhiteSpace c = false end ->
  trim s = s.
Proof.
  intros H1 H2. unfold trim. rewrite (trimStart_fix _ H1). now apply trimEnd_fix.
Qed.

Lemma trim_idem (s : jsstring) : trim (trim s) = trim s.
Proof. apply trim_fix; [apply trim_head | apply trim_last]. Qed.

Lemma split_nonempty (sep : char) (s : jsstring) : split sep s <> [].
Proof.
  destruct s as [|c r]; simpl; [discriminate|].
  destruct (c =? sep)%N; [discriminate|].
  destruct (split sep r); discriminate.
Qed.


Lemma nonEmpty_true (s : jsstring) : nonEmpty s = true <-> s <> [].
Proof. destruct s; simpl; split; congruence. Qed.

Lemma nonEmpty_false (s : jsstring) : nonEmpty s = false <-> s = [].
Proof. destruct s; simpl; split; congruence. Qed.

Lemma filter_none {A : Type} (p : A -> bool) (l : list A) :
  (forall x, In x l -> p x = false) -> List.filter p l = [].
Proof.
  induction l as [|a l IH]; intros H; simpl; [reflexivity|].
  rewrite (H a (or_introl eq_refl)). apply IH. intros x Hx. apply H. now right.
Qed.

(** ** Sets and maps *)

Section CollectionFacts.

Context {K V : Type} (dec : forall a b : K, {a = b} + {a <> b}).

Lemma set_has_true (s : list K) (x : K) : set_has dec s x = true <-> In x s.
Proof. unfold set_has. destruct (in_dec dec x s); split; congruence. Qed.

Lemma set_has_false (s : list K) (x : K) : set_has dec s x = false <-> ~ In x s.
Proof. unfold set_has. destruct (in_dec dec x s); split; congruence. Qed.

Lemma set_add_in (s : list K) (x : K) : In x s -> set_add dec s x = s.
Proof. intros H. unfold set_add. now rewrite (proj2 (set_has_true s x) H). Qed.

Lemma set_add_notin (s : list K) (x : K) : ~ In x s -> set_add dec s x = s ++ [x].
Proof. intros H. unfold set_add. now rewrite (proj2 (set_has_false s x) H). Qed.

Lemma In_set_add (s : list K) (x y : K) : In y (set_add dec s x) <-> In y s \/ y = x.
Proof.
  destruct (in_dec dec x s) as [H|H].
  - rewrite (set_add_in _ _ H). split; [tauto | intros [?| ->]; assumption].
  - rewrite (set_add_notin _ _ H), in_app_iff. simpl. intuition congruence.
Qed.

Lemma NoDup_snoc (s : list K) (x : K) : NoDup s -> ~ In x s -> NoDup (s ++ [x]).
Proof.
  intros Hs Hx. apply (Permutation_NoDup (l := x :: s)).
  - apply Permutation_cons_append.
  - now constructor.
Qed.

Lemma NoDup_set_add (s : list K) (x : K) : NoDup s -> NoDup (set_add dec s x).
Proof.
  intros Hs. destruct (in_dec dec x s) as [H|H].
  - now rewrite (set_add_in _ _ H).
  - rewrite (set_add_notin _ _ H). now apply NoDup_snoc.
Qed.

Lemma map_get_In (m : list (K * V)) (k : K) (v : V) :
  map_get dec m k = Some v -> In (k, v) m.
Proof.
  induction m as [|[k' v'] r IH]; simpl; [discriminate|].
  destruct (dec k k') as [->|_].
  - intros [= ->]. now left.
  - intros H. right. now apply IH.
Qed.

Lemma map_get_None (m : list (K * V)) (k : K) :
  map_get dec m k = None <-> ~ In k (map_keys m).
Proof.
  induction m as [|[k' v'] r IH]; simpl; [tauto|].
  destruct (dec k k') as [->|Hne].
  - split; [discriminate | tauto].
  - rewrite IH. intuition congruence.
Qed.

Lemma In_map_get (m : list (K * V)) (k : K) (v : V) :
  NoDup (map_keys m) -> In (k, v) m -> map_get dec m k = Some v.
Proof.
  induction m as [|[k' v'] r IH]; simpl; [tauto|].
  intros Hnd [[= -> ->]|Hin].
  - destruct (dec k k); congruence.
  - inversion Hnd as [|? ? Hk Hr]; subst.
    destruct (dec k k') as [->|_].
    + exfalso. apply Hk. change (In (fst (k', v)) (List.map fst r)). now apply in_map.
    + now apply IH.
Qed.

Lemma map_get_set_eq (m : list (K * V)) (k : K) (v : V) :
  map_get dec (map_set dec m k v) k = Some v.
Proof.
  induction m as [|[k' v'] r IH]; simpl.
  - destruct (dec k k); congruence.
  - destruct (dec k k') as [->|Hne]; simpl.
    + destruct (dec k' k'); congruence.
    + destruct (dec k k'); congruence.
Qed.

Lemma map_get_set_ne (m : list (K * V)) (k k' : K) (v : V) :
  k <> k' -> map_get dec (map_set dec m k v) k' = map_get dec m k'.
Proof.
  intros Hne. induction m as [|[k0 v0] r IH]; simpl.
  - destruct (dec k' k); congruence.
  - destruct (dec k k0) as [->|Hk]; simpl.
    + destruct (dec k' k0); congruence.
    + destruct (dec k' k0); congruence.
Qed.

(** Setting a key that is absent appends the entry. *)
Lemma map_set_absent (m : list (K * V)) (k : K) (v : V) :
  map_get dec m k = None -> map_set dec m k v = m ++ [(k, v)].
Proof.
  induction m as [|[k' v'] r IH]; simpl; [reflexivity|].
  destruct (dec k k'); [discriminate|]. intros H. now rewrite IH.
Qed.

(** Setting a key that is present replaces its value in place. *)
Lemma map_set_present (m : list (K * V)) (k : K) (v0 v : V) :
  map_get dec m k = Some v0 ->
  exists l1 l2, m = l1 ++ (k, v0) :: l2 /\
                map_set dec m k v = l1 ++ (k, v) :: l2.
Proof.
  induction m as [|[k' v'] r IH]; simpl; [discriminate|].
  destruct (dec k k') as [->|Hne].
  - intros [= ->]. now exists [], r.
  - intros H. destruct (IH H) as (l1 & l2 & -> & ->).
    now exists ((k', v') :: l1), l2.
Qed.

Lemma map_set_same (m : list (K * V)) (k : K) (v : V) :
  map_get dec m k = Some v -> map_set dec m k v = m.
Proof.
  induction m as [|[k' v'] r IH]; simpl; [discriminate|].
  destruct (dec k k') as [->|Hne].
  - now intros [= ->].
  - intros H. now rewrite IH.
Qed.

Lemma map_keys_set (m : list (K * V)) (k : K) (v : V) :
  map_keys (map_set dec m k v) =
  match map_get dec m k with
  | Some _ => map_keys m
  | None => map_keys m ++ [k]
  end.
Proof.
  induction m as [|[k' v'] r IH]; simpl; [reflexivity|].
  destruct (dec k k') as [->|Hne]; simpl; [reflexivity|].
  rewrite IH. now destruct (map_get dec r k).
Qed.

Lemma NoDup_map_keys_set (m : list (K * V)) (k : K) (v : V) :
  NoDup (map_keys m) -> NoDup (map_keys (map_set dec m k v)).
Proof.
  intros H. rewrite map_keys_set.
  destruct (map_get dec m k) eqn:E; [assumption|].
  apply NoDup_snoc; [assumption | now apply map_get_None].
Qed.

Lemma map_set_set (m : list (K * V)) (k : K) (v1 v2 : V) :
  map_set dec (map_set dec m k v1) k v2 = map_set dec m k v2.
Proof.
  induction m as [|[k' v'] r IH]; simpl.
  - destruct (dec k k); congruence.
  - destruct (dec k k') as [->|Hne]; simpl.
    + destruct (dec k' k'); congruence.
    + destruct (dec k k'); [congruence | now rewrite IH].
Qed.

Lemma map_get_middle (l1 l2 : list (K * V)) (k : K) (v : V) :
  ~ In k (map_keys l1) -> map_get dec (l1 ++ (k, v) :: l2) k = Some v.
Proof.
  induction l1 as [|[k' v'] r IH]; simpl; intros H.
  - destruct (dec k k); congruence.
  - destruct (dec k k') as [->|_]; [tauto | apply IH; tauto].
Qed.

Lemma map_set_middle (l1 l2 : list (K * V)) (k : K) (v v' : V) :
  ~ In k (map_keys l1) ->
  map_set dec (l1 ++ (k, v) :: l2) k v' = l1 ++ (k, v') :: l2.
Proof.
  induction l1 as [|[k0 v0] r IH]; simpl; intros H.
  - destruct (dec k k); congruence.
  - destruct (dec k k0) as [->|_]; [tauto | rewrite IH; tauto].
Qed.

End CollectionFacts.

(** ** Tag normalization *)

Lemma normalizeTag_spec (s : jsstring) :
  normalizeTag s = match normalize_spec s with Some x => x | None => [] end.
Proof.
  unfold normalizeTag, normalize_spec. now destruct (trim s).
Qed.

Lemma normalize_spec_nonempty (s x : jsstring) :
  normalize_spec s = Some x -> x <> [].
Proof.
  unfold normalize_spec. destruct (trim s) as [|c t]; [discriminate|].
  intros H ->. destruct (startsWith (js "#") (c :: t)); simpl in H; discriminate H.
Qed.

Lemma normalizeTag_empty (s : jsstring) : trim s = [] -> normalizeTag s = [].
Proof. intros H. unfold normalizeTag. now rewrite H. Qed.

(** A normalized tag is trimmed and starts with the marker. *)
Lemma normalizeTag_fixpoint (t : jsstring) :
  trim t = t -> t <> [] -> startsWith (js "#") t = true -> normalizeTag t = t.
Proof.
  intros Ht Hne Hs. unfold normalizeTag. rewrite Ht.
  destruct t; [congruence|]. simpl nonEmpty. simpl negb. cbv iota.
  now rewrite Hs.
Qed.

Lemma trim_hash_cons (t : jsstring) :
  trim t = t -> t <> [] -> trim (35%N :: t) = 35%N :: t.
Proof.
  intros Ht Hne. apply trim_fix; [reflexivity|].
  pose proof (trim_last t) as Hl. rewrite Ht in Hl.
  simpl rev. destruct (rev t) as [|c r] eqn:E.
  - apply (f_equal (@rev _)) in E. rewrite rev_involutive in E. now subst.
  - exact Hl.
Qed.

(** A normalized tag is empty, or trimmed and marked. *)
Lemma normalizeTag_shape (x : jsstring) :
  normalizeTag x = [] \/
  (trim (normalizeTag x) = normalizeTag x /\ normalizeTag x <> [] /\
   startsWith (js "#") (normalizeTag x) = true).
Proof.
  unfold normalizeTag.
  pose proof (trim_idem x) as Hi.
  destruct (trim x) as [|c t] eqn:E; [now left|right].
  simpl nonEmpty. simpl negb. cbv iota.
  destruct (startsWith (js "#") (c :: t)) eqn:Hs.
  - split; [assumption | split; [discriminate | assumption]].
  - change (js "#" ++ c :: t) with (35%N :: c :: t).
    split; [|split; [discriminate | reflexivity]].
    apply trim_hash_cons; [assumption | discriminate].
Qed.

(** C7.  Normalization is idempotent, and a string that is empty, or
    empty after trimming, normalizes to the empty string: the falsy
    result that stands for no tag, which [parseTagsInput] filters out. *)
Theorem normalizeTag_idempotent :
  forall x : jsstring,
    normalizeTag (normalizeTag x) = normalizeTag x /\
    normalizeTag [] = [] /\
    match trim x with
    | [] => normalizeTag x = [] /\ nonEmpty (normalizeTag x) = false
    | _ :: _ => nonEmpty (normalizeTag x) = true
    end /\
    ~ In [] (parseTagsInput x).
Proof.
  intros x. split; [|split; [reflexivity|split]].
  - destruct (normalizeTag_shape x) as [->|(Ht & Hne & Hs)].
    + reflexivity.
    + now apply normalizeTag_fixpoint.
  - unfold normalizeTag. destruct (trim x) as [|c t].
    + split; reflexivity.
    + cbn [nonEmpty negb]. destruct (startsWith (js "#") (c :: t)); reflexivity.
  - unfold parseTagsInput. rewrite filter_In. intros [_ H]. discriminate.
Qed.

(** ** The matching predicate *)

Lemma tagMatches_spec (w t : jsstring) :
  tagMatches w t = true <-> t = w \/ exists rest, t = w ++ js "/" ++ rest.
Proof.
  unfold tagMatches. rewrite orb_true_iff, str_eqb_eq, startsWith_spec.
  split; intros [H|[rest H]]; auto; right; exists rest.
  - now rewrite <- app_assoc in H.
  - now rewrite <- app_assoc.
Qed.

Lemma existsb_tagMatches (T : list jsstring) (p : jsstring) :
  existsb (tagMatches p) T = true <-> matchesPattern T p.
Proof.
  rewrite existsb_exists. unfold matchesPattern. split.
  - intros (t & Hin & Hm). apply tagMatches_spec in Hm as [->|[rest ->]].
    + now left.
    + right. now exists (p ++ js "/" ++ rest), rest.
  - intros [Hin|(t & rest & Hin & ->)].
    + exists p. split; [assumption|]. apply tagMatches_spec. now left.
    + exists (p ++ js "/" ++ rest). split; [assumption|].
      apply tagMatches_spec. right. now exists rest.
Qed.

(** The result of [tagMatchesAny] is the first pattern of the list that
    matches. *)
Lemma tagMatchesAny_Some (T wanted : list jsstring) (w : jsstring) :
  tagMatchesAny T wanted = Some w <->
  exists l1 l2, wanted = l1 ++ w :: l2 /\
                existsb (tagMatches w) T = true /\
                forall q, In q l1 -> existsb (tagMatches q) T = false.
Proof.
  induction wanted as [|p ws IH]; simpl.
  - split; [discriminate|]. intros (l1 & l2 & H & _). now destruct l1.
  - destruct (existsb (tagMatches p) T) eqn:E.
    + split.
      * intros [= <-]. exists [], ws. repeat split; [assumption|]. intros q [].
      * intros (l1 & l2 & H & Hw & Hl1). destruct l1 as [|q l1].
        -- now injection H as ->.
        -- injection H as <- _. rewrite (Hl1 p) in E; [discriminate | now left].
    + rewrite IH. split.
      * intros (l1 & l2 & -> & Hw & Hl1). exists (p :: l1), l2.
        repeat split; [assumption|]. intros q [<-|Hq]; auto.
      * intros (l1 & l2 & H & Hw & Hl1). destruct l1 as [|q l1].
        -- injection H as -> _. congruence.
        -- injection H as _ ->. exists l1, l2. repeat split; [assumption|].
           intros q' Hq'. apply Hl1. now right.
Qed.

Lemma tagMatchesAny_None (T wanted : list jsstring) :
  tagMatchesAny T wanted = None <->
  forall q, In q wanted -> existsb (tagMatches q) T = false.
Proof.
  induction wanted as [|p ws IH]; simpl.
  - split; [intros _ q [] | reflexivity].
  - destruct (existsb (tagMatches p) T) eqn:E.
    + split; [discriminate|]. intros H. rewrite (H p) in E; [discriminate | now left].
    + rewrite IH. split.
      * intros H q [<-|Hq]; auto.
      * intros H q Hq. apply H. now right.
Qed.

(** C3, amended.  A pattern list matches a tag set exactly when one of
    its patterns is a tag of the set or some tag of the set is that pattern
    followed by ['/'] and any further text, possibly none; for a single
    pattern the result is that pattern, which the callers take for a match
    when it is not the empty string.  Tag set [{"#a/b"}] matches pattern
    ["#a"], tag set [{"#ab"}] does not. *)
Theorem tagMatchesAny_matchesPattern :
  forall (T wanted : list jsstring) (p : jsstring),
    (tagMatchesAny T wanted <> None <->
     exists q, In q wanted /\ matchesPattern T q) /\
    (tagMatchesAny T [p] = Some p <-> matchesPattern T p) /\
    (tagMatchesAny T [p] = None <-> ~ matchesPattern T p) /\
    (truthy (tagMatchesAny T [p]) = true <-> p <> [] /\ matchesPattern T p) /\
    tagMatchesAny [js "#a/b"] [js "#a"] = Some (js "#a") /\
    tagMatchesAny [js "#ab"] [js "#a"] = None.
Proof.
  intros T wanted p. split; [|split; [|split; [|split; [|split; reflexivity]]]].
  - split.
    + destruct (tagMatchesAny T wanted) as [w|] eqn:E; [intros _|congruence].
      apply tagMatchesAny_Some in E as (l1 & l2 & -> & Hw & _).
      exists w. split; [apply in_elt | now apply existsb_tagMatches].
    + intros (q & Hin & Hm) HN.
      rewrite tagMatchesAny_None in HN.
      apply existsb_tagMatches in Hm. rewrite (HN q Hin) in Hm. discriminate.
  - simpl. rewrite <- existsb_tagMatches.
    destruct (existsb (tagMatches p) T); split; congruence.
  - simpl. rewrite <- existsb_tagMatches.
    destruct (existsb (tagMatches p) T); split; congruence.
  - simpl. rewrite <- existsb_tagMatches, <- nonEmpty_true.
    destruct (existsb (tagMatches p) T); simpl.
    + split; [intros H; now split | intros [H _]; exact H].
    + split; [discriminate | intros [_ H]; discriminate H].
Qed.

(** C3 as stated fails: the tag ["#a/"], with nothing after the
    separator, matches pattern ["#a"]. *)
Lemma tagMatchesAny_bare_separator :
  tagMatchesAny [js "#a/"] [js "#a"] = Some (js "#a") /\
  ~ matchesPattern_strict [js "#a/"] (js "#a").
Proof.
  split; [reflexivity|].
  intros [[H|[]]|(t & rest & [<-|[]] & Hne & H)].
  - discriminate.
  - apply Hne. now destruct rest.
Qed.

(** ** The classifier *)

Lemma In_fold_set_add (l s : list jsstring) (x : jsstring) :
  In x (fold_left (set_add jsstring_eq_dec) l s) <-> In x s \/ In x l.
Proof.
  revert s. induction l as [|a l IH]; intros s; simpl; [tauto|].
  rewrite IH, In_set_add. intuition congruence.
Qed.

Lemma NoDup_fold_set_add (l s : list jsstring) :
  NoDup s -> NoDup (fold_left (set_add jsstring_eq_dec) l s).
Proof.
  revert s. induction l as [|a l IH]; intros s Hs; simpl; [assumption|].
  now apply IH, NoDup_set_add.
Qed.

Lemma In_fold_set_add_map {A : Type} (g : A -> jsstring) (l : list A)
  (s : list jsstring) (x : jsstring) :
  In x (fold_left (fun o t => set_add jsstring_eq_dec o (g t)) l s) <->
  In x s \/ exists t, In t l /\ x = g t.
Proof.
  revert s. induction l as [|a l IH]; intros s; simpl.
  - split; [tauto | intros [H|(t & [] & _)]; assumption].
  - rewrite IH, In_set_add. split.
    + intros [[H| ->]|(t & Hin & ->)]; eauto.
    + intros [H|(t & [<-|Hin] & ->)]; eauto.
Qed.

Lemma NoDup_fold_set_add_map {A : Type} (g : A -> jsstring) (l : list A)
  (s : list jsstring) :
  NoDup s -> NoDup (fold_left (fun o t => set_add jsstring_eq_dec o (g t)) l s).
Proof.
  revert s. induction l as [|a l IH]; intros s Hs; simpl; [assumption|].
  now apply IH, NoDup_set_add.
Qed.

Lemma collectTagsForFile_In (app : App) (file : TFile) (x : jsstring) :
  In x (collectTagsForFile app file) <->
  In x (inlineTags app file) \/
  exists s, In s (fmStrings (frontmatterTags app file)) /\ x = normalizeTag s.
Proof.
  unfold collectTagsForFile.
  destruct (frontmatterTags app file) as [|s|items|]; simpl fmStrings.
  - rewrite In_fold_set_add. simpl. split; [tauto | intros [H|(s & [] & _)]; tauto].
  - rewrite In_set_add, In_fold_set_add. simpl. split.
    + intros [[[]|H]| ->]; eauto.
    + intros [H|(s' & [<-|[]] & ->)]; auto.
  - rewrite In_fold_set_add_map, In_fold_set_add. simpl. split.
    + intros [[[]|H]|(t & Hin & ->)]; [now left|].
      right. exists (String_of t). split; [now apply in_map | reflexivity].
    + intros [H|(s & Hin & ->)]; [now left; right|].
      apply in_map_iff in Hin as (t & <- & Hin). right. now exists t.
  - rewrite In_fold_set_add. simpl. split; [tauto | intros [H|(s & [] & _)]; tauto].
Qed.

(** C5, amended.  The classifier returns a duplicate-free set that holds
    the inline tag strings as the host gives them, without normalizing
    them, and the normalized frontmatter tags: a non-empty string is in
    the result exactly when it is an inline tag or the normalization
    (trimmed, marker prepended unless present) of a frontmatter tag string
    that is not empty after trimming.  A missing or malformed frontmatter
    tag field contributes nothing: the result is then the set of inline
    tags.  The classifier is a total function. *)
Theorem collectTagsForFile_spec :
  forall (app : App) (file : TFile) (x : jsstring),
    NoDup (collectTagsForFile app file) /\
    (In x (collectTagsForFile app file) /\ x <> [] <->
     (In x (inlineTags app file) /\ x <> []) \/
     exists s, In s (fmStrings (frontmatterTags app file)) /\
               normalize_spec s = Some x) /\
    match frontmatterTags app file with
    | FmAbsent | FmOther =>
        In x (collectTagsForFile app file) <-> In x (inlineTags app file)
    | FmString _ | FmArray _ => True
    end.
Proof.
  intros app file x. split; [|split].
  - unfold collectTagsForFile.
    assert (H0 : NoDup (fold_left (set_add jsstring_eq_dec) (inlineTags app file) []))
      by (apply NoDup_fold_set_add; constructor).
    destruct (frontmatterTags app file).
    + exact H0.
    + now apply NoDup_set_add.
    + now apply NoDup_fold_set_add_map.
    + exact H0.
  - rewrite collectTagsForFile_In. split.
    + intros [[H|(s & Hin & ->)] Hne]; [now left|].
      right. exists s. split; [assumption|].
      rewrite normalizeTag_spec in Hne |- *.
      now destruct (normalize_spec s).
    + intros [[H Hne]|(s & Hin & Hs)].
      * split; [now left | assumption].
      * split; [|now apply (normalize_spec_nonempty s)].
        right. exists s. split; [assumption|].
        rewrite normalizeTag_spec. now rewrite Hs.
  - pose proof (collectTagsForFile_In app file x) as H.
    destruct (frontmatterTags app file); try exact I; simpl in H;
      rewrite H; split; try tauto; intros [?|(s & [] & _)]; assumption.
Qed.

(** C5 as stated fails: an inline tag reaches the result as it is, not
    normalized. *)
Lemma collectTagsForFile_inline_raw :
  In (js "a") (collectTagsForFile appBare fileA) /\
  ~ classify_spec (inlineTags appBare fileA) (frontmatterTags appBare fileA) (js "a").
Proof.
  split; [now left|].
  intros [(s & [<-|[]] & H)|(s & [] & _)]. discriminate.
Qed.

(** ** Trees *)

Lemma treeFiles_unfold (n : GroupNode) :
  treeFiles n = files_of n ++ childrenFiles (children_of n).
Proof. destruct n as [nm lv [l|] [fs|]]; reflexivity. Qed.

Lemma files_of_with_files (n : GroupNode) (fs : list TFile) :
  files_of (with_files n fs) = fs.
Proof. reflexivity. Qed.

Lemma children_of_with_files (n : GroupNode) (fs : list TFile) :
  children_of (with_files n fs) = children_of n.
Proof. reflexivity. Qed.

Lemma files_of_with_children (n : GroupNode) (ch : list (jsstring * GroupNode)) :
  files_of (with_children n ch) = files_of n.
Proof. reflexivity. Qed.

Lemma children_of_with_children (n : GroupNode) (ch : list (jsstring * GroupNode)) :
  children_of (with_children n ch) = ch.
Proof. reflexivity. Qed.

Lemma childrenFiles_cons (kc : jsstring * GroupNode) (l : list (jsstring * GroupNode)) :
  childrenFiles (kc :: l) = treeFiles (snd kc) ++ childrenFiles l.
Proof. reflexivity. Qed.

Lemma childrenFiles_app (l1 l2 : list (jsstring * GroupNode)) :
  childrenFiles (l1 ++ l2) = childrenFiles l1 ++ childrenFiles l2.
Proof. apply flat_map_app. Qed.

Lemma allNodes_unfold (P : GroupNode -> Prop) (n : GroupNode) :
  allNodes P n <->
  P n /\ Forall (fun kc => allNodes P (snd kc)) (children_of n).
Proof.
  destruct n as [nm lv ch fs]. unfold children_of. simpl.
  destruct ch as [l|].
  - assert (H : fold_right (fun kc acc => allNodes P (snd kc) /\ acc) True l <->
                Forall (fun kc => allNodes P (snd kc)) l).
    { induction l as [|kc t IH]; simpl.
      - split; [constructor | trivial].
      - rewrite IH. split.
        + intros [H1 H2]. now constructor.
        + intros H. now inversion H. }
    now rewrite H.
  - split; [intros [H _]; split; [assumption | constructor] | intros [H _]; now split].
Qed.

Lemma allNodes_here (P : GroupNode -> Prop) (n : GroupNode) : allNodes P n -> P n.
Proof. intros H. now apply allNodes_unfold in H. Qed.

Lemma allNodes_children (P : GroupNode -> Prop) (n : GroupNode) :
  allNodes P n -> Forall (fun kc => allNodes P (snd kc)) (children_of n).
Proof. intros H. now apply allNodes_unfold in H. Qed.

(** A node without children satisfies a property everywhere when it
    satisfies it itself. *)
Lemma allNodes_leaf (P : GroupNode -> Prop) (n : GroupNode) :
  children_of n = [] -> P n -> allNodes P n.
Proof.
  intros Hc Hp. apply allNodes_unfold. split; [assumption|].
  rewrite Hc. constructor.
Qed.

Lemma fold_left_sum {A : Type} (g : A -> Z) (l : list A) (a : Z) :
  fold_left (fun sum x => (sum + g x)%Z) l a = (a + sumZ (List.map g l))%Z.
Proof.
  revert a. induction l as [|x l IH]; intros a; simpl.
  - lia.
  - rewrite IH. lia.
Qed.

(** The equation of [countFiles]. *)
Lemma countFiles_unfold (node : GroupNode) :
  countFiles node =
  (Z.of_nat (List.length (files_of node)) +
   sumZ (List.map countFiles (map_values (children_of node))))%Z.
Proof.
  destruct node as [nm lv ch fs]. unfold files_of, children_of, map_values.
  simpl. rewrite map_map.
  destruct ch as [l|], fs as [f|]; simpl; try lia;
    rewrite (fold_left_sum (fun kc => countFiles (snd kc))); lia.
Qed.

(** [countFiles] counts the files of the subtree. *)
Lemma countFiles_treeFiles (node : GroupNode) :
  countFiles node = Z.of_nat (List.length (treeFiles node)).
Proof.
  induction node as [nm lv ch fs IH] using GroupNode_ind.
  rewrite countFiles_unfold, treeFiles_unfold, length_app, Nat2Z.inj_add.
  f_equal. unfold children_of, map_values. simpl.
  destruct ch as [l|]; [|reflexivity].
  induction l as [|kc t IHt]; [reflexivity|].
  inversion IH as [|? ? Hkc Ht]; subst.
  rewrite childrenFiles_cons, length_app, Nat2Z.inj_add. simpl.
  rewrite Hkc, (IHt Ht). reflexivity.
Qed.

(** ** Splitting a node: [addToBucket] *)

Lemma Forall_map_set (Q : GroupNode -> Prop) (m : list (jsstring * GroupNode))
  (k : jsstring) (v : GroupNode) :
  Forall (fun kc => Q (snd kc)) m -> Q v ->
  Forall (fun kc => Q (snd kc)) (map_set jsstring_eq_dec m k v).
Proof.
  intros Hm Hv. induction m as [|[k' v'] r IH]; simpl.
  - now constructor.
  - inversion Hm as [|? ? H1 H2]; subst.
    destruct (jsstring_eq_dec k k'); constructor; auto.
Qed.

Lemma childrenFiles_set_absent (ch : list (jsstring * GroupNode)) (k : jsstring)
  (v : GroupNode) :
  map_get jsstring_eq_dec ch k = None ->
  childrenFiles (map_set jsstring_eq_dec ch k v) = childrenFiles ch ++ treeFiles v.
Proof.
  intros H. rewrite (map_set_absent _ _ _ _ H), childrenFiles_app.
  unfold childrenFiles at 2. simpl. now rewrite app_nil_r.
Qed.

Lemma childrenFiles_set_present (ch : list (jsstring * GroupNode)) (k : jsstring)
  (v0 v : GroupNode) :
  map_get jsstring_eq_dec ch k = Some v0 ->
  exists X Y, childrenFiles ch = X ++ treeFiles v0 ++ Y /\
              childrenFiles (map_set jsstring_eq_dec ch k v) = X ++ treeFiles v ++ Y.
Proof.
  intros H. destruct (map_set_present _ _ _ _ v H) as (l1 & l2 & -> & ->).
  exists (childrenFiles l1), (childrenFiles l2).
  now rewrite !childrenFiles_app, !childrenFiles_cons.
Qed.

Lemma filesAt_In_childrenFiles (ch : list (jsstring * GroupNode)) (k : jsstring)
  (f : TFile) :
  In f (filesAt ch k) -> In f (childrenFiles ch).
Proof.
  unfold filesAt. destruct (map_get jsstring_eq_dec ch k) as [b|] eqn:E; [|intros []].
  intros Hf. apply map_get_In in E. unfold childrenFiles.
  apply in_flat_map. exists (k, b). split; [assumption|].
  simpl. rewrite treeFiles_unfold. apply in_or_app. now left.
Qed.

Lemma Permutation_move (f : TFile) (A B C : list TFile) :
  Permutation (A ++ B ++ f :: C) (f :: A ++ B ++ C).
Proof.
  rewrite !app_assoc. symmetry. apply Permutation_middle.
Qed.

Lemma addToBucket_success (ch : list (jsstring * GroupNode)) (k : jsstring)
  (lv : Z) (f : TFile) :
  Forall (fun kc => hasFiles (snd kc)) ch ->
  exists ch', addToBucket ch k lv f = Some ch'.
Proof.
  intros Hall. unfold addToBucket.
  destruct (map_get jsstring_eq_dec ch k) as [b|] eqn:E.
  - apply map_get_In in E. rewrite Forall_forall in Hall.
    specialize (Hall _ E). unfold hasFiles in Hall. simpl in Hall.
    destruct (files b); [eauto | congruence].
  - simpl. eauto.
Qed.

Lemma addToBucket_Forall (Q : GroupNode -> Prop)
  (ch ch' : list (jsstring * GroupNode)) (k : jsstring) (lv : Z) (f : TFile) :
  bucketProperty Q ->
  Forall (fun kc => Q (snd kc)) ch ->
  addToBucket ch k lv f = Some ch' ->
  Forall (fun kc => Q (snd kc)) ch'.
Proof.
  intros [Qw Qn] Hall. unfold addToBucket.
  destruct (map_get jsstring_eq_dec ch k) as [b|] eqn:E.
  - destruct (files b) as [fs|]; [|discriminate]. intros [= <-].
    apply Forall_map_set; [assumption|]. apply Qw.
    apply map_get_In in E. rewrite Forall_forall in Hall. exact (Hall _ E).
  - simpl. intros [= <-]. apply Forall_map_set; [assumption|]. apply Qw, Qn.
Qed.

Lemma addToBucket_keys (ch ch' : list (jsstring * GroupNode)) (k : jsstring)
  (lv : Z) (f : TFile) :
  NoDup (map_keys ch) -> addToBucket ch k lv f = Some ch' -> NoDup (map_keys ch').
Proof.
  intros Hnd. unfold addToBucket.
  destruct (files _); [|discriminate]. intros [= <-].
  now apply NoDup_map_keys_set.
Qed.

(** Adding a file that no child holds adds it once. *)
Lemma addToBucket_perm (ch ch' : list (jsstring * GroupNode)) (k : jsstring)
  (lv : Z) (f : TFile) :
  addToBucket ch k lv f = Some ch' ->
  ~ In f (childrenFiles ch) ->
  Permutation (childrenFiles ch') (f :: childrenFiles ch).
Proof.
  unfold addToBucket. intros H Hf.
  destruct (map_get jsstring_eq_dec ch k) as [b|] eqn:E.
  - destruct (files b) as [fs|] eqn:Efs; [|discriminate]. injection H as <-.
    destruct (childrenFiles_set_present _ _ _
                (with_files b (set_add TFile_eq_dec fs f)) E)
      as (X & Y & HX & ->).
    rewrite HX in *. rewrite !treeFiles_unfold in *.
    unfold files_of in *. simpl. rewrite Efs in *.
    unfold children_of. simpl. fold (children_of b).
    assert (Hfs : ~ In f fs).
    { intros Hin. apply Hf. apply in_or_app. right.
      apply in_or_app. left. apply in_or_app. now left. }
    rewrite (set_add_notin _ _ _ Hfs), <- !app_assoc. simpl.
    apply Permutation_move.
  - simpl in H. injection H as <-.
    rewrite (childrenFiles_set_absent _ _ _ E), treeFiles_unfold. simpl.
    symmetry. apply Permutation_cons_append.
Qed.

(** What [addToBucket] does, seen through [get]. *)
Lemma addToBucket_filesAt (ch ch' : list (jsstring * GroupNode)) (k : jsstring)
  (lv : Z) (f : TFile) :
  addToBucket ch k lv f = Some ch' ->
  filesAt ch' k = set_add TFile_eq_dec (filesAt ch k) f /\
  forall k', k' <> k ->
             map_get jsstring_eq_dec ch' k' = map_get jsstring_eq_dec ch k'.
Proof.
  unfold addToBucket, filesAt. intros H.
  destruct (map_get jsstring_eq_dec ch k) as [b|] eqn:E.
  - destruct (files b) as [fs|] eqn:Efs; [|discriminate]. injection H as <-.
    split.
    + rewrite map_get_set_eq. unfold files_of. simpl. now rewrite Efs.
    + intros k' Hne. apply map_get_set_ne. congruence.
  - simpl in H. injection H as <-. split.
    + now rewrite map_get_set_eq.
    + intros k' Hne. apply map_get_set_ne. congruence.
Qed.

(** ** Splitting a node: the two loops of [propagateLevel] *)


Lemma unpat_key (levelTags : list jsstring) (fileTags : list (TFile * list jsstring))
  (f : TFile) :
  byPattern fileTags levelTags f = false ->
  bucketKey fileTags levelTags f = js "Others".
Proof.
  unfold byPattern, bucketKey.
  destruct (matchOf fileTags levelTags f) as [[w|]|]; simpl; try reflexivity.
  now intros ->.
Qed.


Section SplitLoops.

Variable levelTags : list jsstring.
Variable fileTags : list (TFile * list jsstring).
Variable levelIdx : Z.

Let step := splitStep levelTags fileTags levelIdx.
Let others :=
  fun (acc : option (list (jsstring * GroupNode))) (f : TFile) =>
    c <- acc ;; addToBucket c (js "Others") levelIdx f.
Let pat := byPattern fileTags levelTags.
Let key := bucketKey fileTags levelTags.

(** The three ways an iteration of the first loop goes. *)
Lemma splitStep_pattern (ch : list (jsstring * GroupNode)) (rem : list TFile)
  (f : TFile) :
  pat f = true ->
  step (Some (ch, rem)) f =
  match addToBucket ch (key f) levelIdx f with
  | Some c => Some (c, rem)
  | None => None
  end.
Proof.
  unfold pat, key, step, byPattern, bucketKey, splitStep. simpl.
  destruct (matchOf fileTags levelTags f) as [[w|]|]; simpl; try discriminate.
  intros ->. unfold bind. now destruct (addToBucket ch (stripHash w) levelIdx f).
Qed.

Lemma splitStep_remaining (ch : list (jsstring * GroupNode)) (rem : list TFile)
  (f : TFile) :
  pat f = false -> matchOf fileTags levelTags f <> None ->
  step (Some (ch, rem)) f = Some (ch, rem ++ [f]).
Proof.
  unfold pat, step, byPattern, splitStep. simpl.
  destruct (matchOf fileTags levelTags f) as [[w|]|]; simpl; try congruence.
  now intros ->.
Qed.

Lemma splitStep_throws (ch : list (jsstring * GroupNode)) (rem : list TFile)
  (f : TFile) :
  matchOf fileTags levelTags f = None -> step (Some (ch, rem)) f = None.
Proof. unfold step, splitStep. simpl. now intros ->. Qed.

Lemma splitLoop_None (fs : list TFile) : fold_left step fs None = None.
Proof. induction fs; simpl; auto. Qed.

Lemma othersLoop_None (fs : list TFile) : fold_left others fs None = None.
Proof. induction fs; simpl; auto. Qed.

(** The first loop succeeds and moves every file of the node, once, to a
    child or to [remaining]. *)
Lemma splitLoop_ok (Q : GroupNode -> Prop) (HQ : bucketProperty Q)
  (HQf : forall b, Q b -> hasFiles b) :
  forall (fs : list TFile) (ch : list (jsstring * GroupNode)) (rem : list TFile),
    Forall (fun kc => Q (snd kc)) ch ->
    NoDup (map_keys ch) ->
    (forall f, In f fs -> matchOf fileTags levelTags f <> None) ->
    NoDup (childrenFiles ch ++ rem ++ fs) ->
    exists ch' rem',
      fold_left step fs (Some (ch, rem)) = Some (ch', rem') /\
      Permutation (childrenFiles ch' ++ rem') (childrenFiles ch ++ rem ++ fs) /\
      Forall (fun kc => Q (snd kc)) ch' /\
      NoDup (map_keys ch').
Proof.
  induction fs as [|f fs IH]; intros ch rem HQch Hk Hcov Hnd.
  - exists ch, rem. simpl. rewrite app_nil_r. repeat split; auto.
  - cbn [fold_left].
    assert (Hm : matchOf fileTags levelTags f <> None) by (apply Hcov; now left).
    assert (Hcov' : forall g, In g fs -> matchOf fileTags levelTags g <> None)
      by (intros g Hg; apply Hcov; now right).
    destruct (pat f) eqn:Ep.
    + rewrite (splitStep_pattern _ _ _ Ep).
      destruct (addToBucket_success ch (key f) levelIdx f) as [c Hc].
      { eapply Forall_impl; [|exact HQch]. intros kc; apply HQf. }
      rewrite Hc.
      assert (Hf : ~ In f (childrenFiles ch)).
      { intros Hin. apply (Permutation_NoDup (Permutation_move f _ _ _)) in Hnd.
        inversion Hnd as [|? ? Hn _]; subst. apply Hn.
        apply in_or_app. now left. }
      pose proof (addToBucket_perm _ _ _ _ _ Hc Hf) as Hp.
      destruct (IH c rem) as (ch' & rem' & Hfold & Hperm & HQ' & Hk').
      * eapply addToBucket_Forall; eauto.
      * eapply addToBucket_keys; eauto.
      * exact Hcov'.
      * apply (Permutation_NoDup (l := f :: childrenFiles ch ++ rem ++ fs)).
        -- change (f :: childrenFiles ch ++ rem ++ fs)
             with ((f :: childrenFiles ch) ++ rem ++ fs).
           apply Permutation_app_tail. now symmetry.
        -- apply (Permutation_NoDup (Permutation_move f _ _ _) Hnd).
      * exists ch', rem'. repeat split; auto.
        rewrite Hperm.
        transitivity ((f :: childrenFiles ch) ++ rem ++ fs).
        -- now apply Permutation_app_tail.
        -- simpl. symmetry. apply Permutation_move.
    + rewrite (splitStep_remaining _ _ _ Ep Hm).
      destruct (IH ch (rem ++ [f])) as (ch' & rem' & Hfold & Hperm & HQ' & Hk');
        auto.
      * now rewrite <- app_assoc.
      * exists ch', rem'. repeat split; auto.
        rewrite Hperm. now rewrite <- app_assoc.
Qed.

(** The second loop succeeds and moves [remaining] to the children. *)
Lemma othersLoop_ok (Q : GroupNode -> Prop) (HQ : bucketProperty Q)
  (HQf : forall b, Q b -> hasFiles b) :
  forall (rem : list TFile) (ch : list (jsstring * GroupNode)),
    Forall (fun kc => Q (snd kc)) ch ->
    NoDup (map_keys ch) ->
    NoDup (childrenFiles ch ++ rem) ->
    exists ch',
      fold_left others rem (Some ch) = Some ch' /\
      Permutation (childrenFiles ch') (childrenFiles ch ++ rem) /\
      Forall (fun kc => Q (snd kc)) ch' /\
      NoDup (map_keys ch').
Proof.
  induction rem as [|f rem IH]; intros ch HQch Hk Hnd.
  - exists ch. simpl. rewrite app_nil_r. repeat split; auto.
  - cbn [fold_left]. unfold others at 2. cbn [bind].
    destruct (addToBucket_success ch (js "Others") levelIdx f) as [c Hc].
    { eapply Forall_impl; [|exact HQch]. intros kc; apply HQf. }
    rewrite Hc.
    assert (Hmv : Permutation (childrenFiles ch ++ f :: rem)
                              (f :: childrenFiles ch ++ rem))
      by (symmetry; apply Permutation_middle).
    assert (Hf : ~ In f (childrenFiles ch)).
    { intros Hin. apply (Permutation_NoDup Hmv) in Hnd.
      inversion Hnd as [|? ? Hn _]; subst. apply Hn.
      apply in_or_app. now left. }
    pose proof (addToBucket_perm _ _ _ _ _ Hc Hf) as Hp.
    destruct (IH c) as (ch' & Hfold & Hperm & HQ' & Hk').
    + eapply addToBucket_Forall; eauto.
    + eapply addToBucket_keys; eauto.
    + apply (Permutation_NoDup (l := f :: childrenFiles ch ++ rem)).
      * change (f :: childrenFiles ch ++ rem) with ((f :: childrenFiles ch) ++ rem).
        apply Permutation_app_tail. now symmetry.
      * apply (Permutation_NoDup Hmv Hnd).
    + exists ch'. repeat split; auto.
      rewrite Hperm.
      transitivity ((f :: childrenFiles ch) ++ rem).
      * now apply Permutation_app_tail.
      * simpl. now symmetry.
Qed.

Lemma filesAt_eq (ch ch' : list (jsstring * GroupNode)) (k : jsstring) :
  map_get jsstring_eq_dec ch' k = map_get jsstring_eq_dec ch k ->
  filesAt ch' k = filesAt ch k.
Proof. unfold filesAt. now intros ->. Qed.

(** The first loop, seen through [get]: the bucket labelled [k] receives,
    in order, the files that match a pattern whose label is [k]; the
    others are collected in [remaining]. *)
Lemma splitLoop_filesAt :
  forall (fs : list TFile) (ch ch' : list (jsstring * GroupNode))
         (rem rem' : list TFile),
    fold_left step fs (Some (ch, rem)) = Some (ch', rem') ->
    NoDup fs ->
    (forall f k, In f fs -> ~ In f (filesAt ch k)) ->
    rem' = rem ++ List.filter (fun f => negb (pat f)) fs /\
    forall k, filesAt ch' k =
              filesAt ch k ++
              List.filter (fun f => pat f && str_eqb (key f) k) fs.
Proof.
  induction fs as [|f fs IH]; intros ch ch' rem rem' Hfold Hnd Hfresh.
  - simpl in Hfold. injection Hfold as <- <-. simpl.
    split; [now rewrite app_nil_r | intros k; now rewrite app_nil_r].
  - cbn [fold_left] in Hfold. inversion Hnd as [|? ? Hf Hnd']; subst.
    destruct (matchOf fileTags levelTags f) as [m|] eqn:Em.
    2:{ rewrite (splitStep_throws _ _ _ Em), splitLoop_None in Hfold. discriminate. }
    assert (Hm : matchOf fileTags levelTags f <> None) by congruence.
    cbn [List.filter]. destruct (pat f) eqn:Ep; cbn [negb andb].
    + rewrite (splitStep_pattern _ _ _ Ep) in Hfold.
      destruct (addToBucket ch (key f) levelIdx f) as [c|] eqn:Hc.
      2:{ rewrite splitLoop_None in Hfold. discriminate. }
      destruct (addToBucket_filesAt _ _ _ _ _ Hc) as [Hk Hother].
      assert (Hadd : filesAt c (key f) = filesAt ch (key f) ++ [f]).
      { rewrite Hk. apply set_add_notin. apply Hfresh. now left. }
      destruct (IH c ch' rem rem' Hfold Hnd') as [Hrem Hat].
      * intros g k Hg Hin. destruct (jsstring_eq_dec k (key f)) as [->|Hne].
        -- rewrite Hadd in Hin. apply in_app_or in Hin as [Hin|[<-|[]]].
           ++ apply (Hfresh g (key f)); [now right | assumption].
           ++ contradiction.
        -- rewrite (filesAt_eq _ _ _ (Hother _ Hne)) in Hin.
           apply (Hfresh g k); [now right | assumption].
      * split; [assumption|]. intros k. rewrite Hat.
        destruct (str_eqb (key f) k) eqn:Ek.
        -- apply str_eqb_eq in Ek. subst k. rewrite Hadd, <- app_assoc. reflexivity.
        -- assert (Hne : k <> key f).
           { intros ->. rewrite str_eqb_refl in Ek. discriminate. }
           now rewrite (filesAt_eq _ _ _ (Hother _ Hne)).
    + rewrite (splitStep_remaining _ _ _ Ep Hm) in Hfold.
      destruct (IH ch ch' (rem ++ [f]) rem' Hfold Hnd') as [Hrem Hat].
      * intros g k Hg. apply Hfresh. now right.
      * split; [now rewrite Hrem, <- app_assoc | exact Hat].
Qed.

(** The second loop, seen through [get]: the bucket labelled ["Others"]
    receives [remaining], the other buckets are left as they are. *)
Lemma othersLoop_filesAt :
  forall (rem : list TFile) (ch ch' : list (jsstring * GroupNode)),
    fold_left others rem (Some ch) = Some ch' ->
    NoDup rem ->
    (forall f, In f rem -> ~ In f (filesAt ch (js "Others"))) ->
    filesAt ch' (js "Others") = filesAt ch (js "Others") ++ rem /\
    forall k, k <> js "Others" -> filesAt ch' k = filesAt ch k.
Proof.
  induction rem as [|f rem IH]; intros ch ch' Hfold Hnd Hfresh.
  - simpl in Hfold. injection Hfold as <-. now rewrite app_nil_r.
  - cbn [fold_left] in Hfold. unfold others at 2 in Hfold. cbn [bind] in Hfold.
    inversion Hnd as [|? ? Hf Hnd']; subst.
    destruct (addToBucket ch (js "Others") levelIdx f) as [c|] eqn:Hc.
    2:{ rewrite othersLoop_None in Hfold. discriminate. }
    destruct (addToBucket_filesAt _ _ _ _ _ Hc) as [Hk Hother].
    assert (Hadd : filesAt c (js "Others") = filesAt ch (js "Others") ++ [f]).
    { rewrite Hk. apply set_add_notin. apply Hfresh. now left. }
    destruct (IH c ch' Hfold Hnd') as [Ho Hrest].
    + intros g Hg Hin. rewrite Hadd in Hin. apply in_app_or in Hin as [Hin|[<-|[]]].
      * apply (Hfresh g); [now right | assumption].
      * contradiction.
    + split.
      * now rewrite Ho, Hadd, <- app_assoc.
      * intros k Hne. rewrite (Hrest k Hne). apply filesAt_eq. now apply Hother.
Qed.

Lemma bucketProperty_leafBucket : bucketProperty leafBucket.
Proof.
  split.
  - intros b fs [_ Hc]. split; [discriminate | exact Hc].
  - intros k lv. split; [discriminate | reflexivity].
Qed.

(** The split of a node that holds files and has no children: it
    succeeds, empties the node, and gives it leaf buckets with distinct
    labels that hold the files of the node, each once; the bucket labelled
    [k] holds the files that matched a pattern whose label is [k] and, when
    [k] is ["Others"], after them the files that matched no pattern. *)
Lemma splitNode_buckets (node : GroupNode) (fs : list TFile) :
  children_of node = [] ->
  NoDup fs ->
  (forall f, In f fs -> matchOf fileTags levelTags f <> None) ->
  exists node',
    splitNode node fs levelTags fileTags levelIdx = Some node' /\
    files node' = Some [] /\
    NoDup (map_keys (children_of node')) /\
    Forall (fun kc => leafBucket (snd kc)) (children_of node') /\
    Permutation (treeFiles node') fs /\
    forall k, bucketFiles node' k =
              List.filter (fun f => pat f && str_eqb (key f) k) fs ++
              (if str_eqb k (js "Others")
               then List.filter (fun f => negb (pat f)) fs else []).
Proof.
  intros Hleaf Hnd Hcov.
  destruct (splitLoop_ok leafBucket bucketProperty_leafBucket (fun b H => proj1 H)
              fs [] []) as (ch1 & rem1 & Hf1 & Hp1 & HQ1 & Hk1);
    try (constructor; fail); try assumption.
  simpl in Hp1.
  destruct (othersLoop_ok leafBucket bucketProperty_leafBucket (fun b H => proj1 H)
              rem1 ch1) as (ch2 & Hf2 & Hp2 & HQ2 & Hk2); try assumption.
  { apply (Permutation_NoDup (Permutation_sym Hp1)). exact Hnd. }
  destruct (splitLoop_filesAt _ _ _ _ _ Hf1 Hnd) as [Hrem Hat1]; [intros f k _ []|].
  simpl in Hrem, Hat1. subst rem1.
  destruct (othersLoop_filesAt _ _ _ Hf2) as [Ho Hrest].
  { now apply NoDup_filter. }
  { intros f Hf. rewrite Hat1. intros Hin.
    apply filter_In in Hf as [_ Hf]. apply filter_In in Hin as [_ Hin].
    destruct (pat f); discriminate. }
  exists (mkGroupNode (name node) (level node) (Some ch2) (Some [])).
  split; [|split; [reflexivity|split; [assumption|split; [assumption|split]]]].
  - unfold splitNode. rewrite Hleaf.
    fold step. rewrite Hf1. cbn [bind fst snd]. fold others. rewrite Hf2.
    reflexivity.
  - rewrite treeFiles_unfold. simpl. unfold children_of. simpl.
    now rewrite Hp2, Hp1.
  - intros k. unfold bucketFiles, children_of. simpl.
    destruct (str_eqb k (js "Others")) eqn:Ek.
    + apply str_eqb_eq in Ek. subst k. now rewrite Ho, Hat1.
    + rewrite Hrest, Hat1; [now rewrite app_nil_r|].
      intros ->. rewrite str_eqb_refl in Ek. discriminate.
Qed.

End SplitLoops.

(** ** Applying a level to the By-Tags tree *)

Lemma NoDup_app_l {A : Type} (l1 l2 : list A) : NoDup (l1 ++ l2) -> NoDup l1.
Proof.
  induction l1 as [|a l1 IH]; simpl; intros H; [constructor|].
  inversion H as [|? ? Ha Hr]; subst. constructor.
  - intros Hin. apply Ha. apply in_or_app. now left.
  - now apply IH.
Qed.

Lemma NoDup_app_r {A : Type} (l1 l2 : list A) : NoDup (l1 ++ l2) -> NoDup l2.
Proof.
  induction l1 as [|a l1 IH]; simpl; intros H; [assumption|].
  inversion H; subst. now apply IH.
Qed.

Lemma leafBucket_allNodes_hasFiles (b : GroupNode) :
  leafBucket b -> allNodes hasFiles b.
Proof. intros [Hf Hc]. now apply allNodes_leaf. Qed.

Lemma leafBucket_allNodes_terminal (b : GroupNode) :
  leafBucket b -> allNodes terminalBucket b.
Proof.
  intros [Hf Hc]. apply allNodes_leaf; [assumption|].
  intros H. contradiction.
Qed.

Lemma distinctKeys_here (n : GroupNode) :
  distinctKeys n -> NoDup (map_keys (children_of n)).
Proof. apply allNodes_here. Qed.

Lemma distinctKeys_leaf (n : GroupNode) : children_of n = [] -> distinctKeys n.
Proof.
  intros H. apply allNodes_leaf; [assumption|]. rewrite H. constructor.
Qed.

Lemma distinctKeys_child (n : GroupNode) (k : jsstring) (c : GroupNode) :
  distinctKeys n -> In (k, c) (children_of n) -> distinctKeys c.
Proof.
  intros H Hin. apply allNodes_children in H. rewrite Forall_forall in H.
  exact (H _ Hin).
Qed.

Section PropagateLevel.

Variable levelTags : list jsstring.
Variable fileTags : list (TFile * list jsstring).
Variable levelIdx : Z.

Lemma matchOf_covered (f : TFile) :
  map_get TFile_eq_dec fileTags f <> None ->
  matchOf fileTags levelTags f <> None.
Proof.
  unfold matchOf. destruct (map_get TFile_eq_dec fileTags f); congruence.
Qed.

(** What a visit guarantees for a node of the tree. *)
Let visitOk (g : GroupNode -> option GroupNode) (c : GroupNode) : Prop :=
  tagTreeInv fileTags c ->
  exists c', g c = Some c' /\
             Permutation (treeFiles c') (treeFiles c) /\
             allNodes hasFiles c' /\
             allNodes terminalBucket c' /\
             distinctKeys c'.

Lemma visitChildren_ok (g : GroupNode -> option GroupNode)
  (l : list (jsstring * GroupNode)) :
  Forall (fun kc => visitOk g (snd kc)) l ->
  Forall (fun kc => allNodes hasFiles (snd kc)) l ->
  Forall (fun kc => allNodes terminalBucket (snd kc)) l ->
  Forall (fun kc => distinctKeys (snd kc)) l ->
  NoDup (childrenFiles l) ->
  (forall f, In f (childrenFiles l) -> map_get TFile_eq_dec fileTags f <> None) ->
  exists l',
    visitChildren g l = Some l' /\
    Permutation (childrenFiles l') (childrenFiles l) /\
    Forall (fun kc => allNodes hasFiles (snd kc)) l' /\
    Forall (fun kc => allNodes terminalBucket (snd kc)) l' /\
    Forall (fun kc => distinctKeys (snd kc)) l' /\
    map_keys l' = map_keys l.
Proof.
  induction l as [|kc t IH]; intros Hg Hh Ht Hd Hnd Hcov.
  - exists []. simpl. repeat split; constructor.
  - inversion Hg as [|? ? Hg1 Hg2]; subst.
    inversion Hh as [|? ? Hh1 Hh2]; subst.
    inversion Ht as [|? ? Ht1 Ht2]; subst.
    inversion Hd as [|? ? Hd1 Hd2]; subst.
    rewrite childrenFiles_cons in Hnd, Hcov.
    destruct Hg1 as (c' & Hc & Hp & Hh' & Ht' & Hd').
    { split; [|split; [|split; [|split]]]; auto.
      - now apply NoDup_app_l in Hnd.
      - intros f Hf. apply Hcov, in_or_app. now left. }
    destruct (IH Hg2 Hh2 Ht2 Hd2) as (t' & Hv & Hpt & Hht & Htt & Hdt & Hkeys).
    { now apply NoDup_app_r in Hnd. }
    { intros f Hf. apply Hcov, in_or_app. now right. }
    exists ((fst kc, c') :: t').
    split; [simpl; rewrite Hc; simpl; rewrite Hv; reflexivity|].
    split; [|split; [|split; [|split]]].
    + rewrite !childrenFiles_cons. simpl. now apply Permutation_app.
    + now constructor.
    + now constructor.
    + now constructor.
    + simpl. now rewrite Hkeys.
Qed.

(** The recursion succeeds on a tree that satisfies the invariant,
    keeps the files of the tree, each once, and keeps the invariant. *)
Lemma propagateLevel_ok (n : GroupNode) :
  tagTreeInv fileTags n ->
  exists n',
    propagateLevel_rec n levelTags fileTags levelIdx = Some n' /\
    Permutation (treeFiles n') (treeFiles n) /\
    allNodes hasFiles n' /\
    allNodes terminalBucket n' /\
    distinctKeys n'.
Proof.
  induction n as [nm lv ch fs IH] using GroupNode_ind.
  intros (Hh & Ht & Hd & Hnd & Hcov).
  destruct fs as [[|f r]|].
  - (* no files: the children are visited *)
    destruct ch as [l|].
    + pose proof (distinctKeys_here _ Hd) as Hkeys.
      apply allNodes_children in Hh. apply allNodes_children in Ht.
      apply allNodes_children in Hd.
      unfold children_of in Hh, Ht, Hd, Hkeys. simpl in Hh, Ht, Hd, Hkeys.
      rewrite treeFiles_unfold in Hnd, Hcov.
      unfold files_of, children_of in Hnd, Hcov. simpl in Hnd, Hcov.
      destruct (visitChildren_ok
                  (fun c => propagateLevel_rec c levelTags fileTags levelIdx) l)
        as (l' & Hv & Hp & Hh' & Ht' & Hd' & Hk'); auto.
      exists (mkGroupNode nm lv (Some l') (Some [])).
      split; [simpl; rewrite Hv; reflexivity|]. split; [exact Hp|].
      split; [|split].
      * apply allNodes_unfold. split; [discriminate | exact Hh'].
      * apply allNodes_unfold. split; [intros _; reflexivity | exact Ht'].
      * apply allNodes_unfold. split; [|exact Hd'].
        unfold children_of. simpl. now rewrite Hk'.
    + exists (mkGroupNode nm lv None (Some [])).
      split; [reflexivity|]. split; [reflexivity|]. split; [|split].
      * apply allNodes_unfold. split; [discriminate | constructor].
      * apply allNodes_unfold. split; [intros _; reflexivity | constructor].
      * apply allNodes_unfold. split; constructor.
  - (* files: the node is split *)
    set (n := mkGroupNode nm lv ch (Some (f :: r))) in *.
    assert (Hleaf : children_of n = []).
    { apply allNodes_here in Ht. unfold terminalBucket in Ht.
      destruct (children_of n) as [|kc t] eqn:E; [reflexivity|].
      discriminate Ht. discriminate. }
    assert (Htf : treeFiles n = f :: r)
      by (rewrite treeFiles_unfold, Hleaf, app_nil_r; reflexivity).
    rewrite Htf in Hnd, Hcov.
    destruct (splitNode_buckets levelTags fileTags levelIdx n (f :: r) Hleaf Hnd)
      as (n' & Hs & Hf' & Hk & Hleaves & Hp & _).
    { intros g Hg. now apply matchOf_covered, Hcov. }
    exists n'. split; [exact Hs|]. split; [|split; [|split]].
    + rewrite Htf. exact Hp.
    + apply allNodes_unfold. split.
      * unfold hasFiles. rewrite Hf'. discriminate.
      * eapply Forall_impl; [|exact Hleaves].
        intros kc. apply leafBucket_allNodes_hasFiles.
    + apply allNodes_unfold. split.
      * intros _. unfold files_of. now rewrite Hf'.
      * eapply Forall_impl; [|exact Hleaves].
        intros kc. apply leafBucket_allNodes_terminal.
    + apply allNodes_unfold. split; [exact Hk|].
      eapply Forall_impl; [|exact Hleaves].
      intros kc [_ Hc]. apply allNodes_leaf; [assumption|].
      rewrite Hc. constructor.
  - apply allNodes_here in Hh. unfold hasFiles in Hh. simpl in Hh. congruence.
Qed.

Lemma propagateLevel_inv (n n' : GroupNode) :
  tagTreeInv fileTags n ->
  propagateLevel_rec n levelTags fileTags levelIdx = Some n' ->
  tagTreeInv fileTags n' /\ Permutation (treeFiles n') (treeFiles n).
Proof.
  intros Hinv Hn'. pose proof Hinv as (_ & _ & _ & Hnd & Hcov).
  destruct (propagateLevel_ok n Hinv) as (m & Hm & Hp & Hh & Ht & Hd).
  rewrite Hm in Hn'. injection Hn' as <-.
  split; [|assumption]. split; [|split; [|split; [|split]]]; auto.
  - now apply (Permutation_NoDup (Permutation_sym Hp)).
  - intros f Hf. apply Hcov. now apply (Permutation_in _ Hp).
Qed.

End PropagateLevel.

(** ** The work list of [propagateLevel] and the recursion over the tree *)

Lemma with_children_same (n : GroupNode) (l : list (jsstring * GroupNode)) :
  children n = Some l -> with_children n l = n.
Proof. destruct n as [nm lv ch fs]. simpl. now intros ->. Qed.

Lemma with_children_twice (n : GroupNode) (l1 l2 : list (jsstring * GroupNode)) :
  with_children (with_children n l1) l2 = with_children n l2.
Proof. reflexivity. Qed.

Lemma map_get_children (n : GroupNode) (k : jsstring) (c : GroupNode) :
  map_get jsstring_eq_dec (children_of n) k = Some c ->
  children n = Some (children_of n).
Proof.
  unfold children_of. destruct (children n); [reflexivity | discriminate].
Qed.

Lemma nodeAt_app (p q : list jsstring) :
  forall root,
    nodeAt root (p ++ q) =
    match nodeAt root p with
    | Some n => nodeAt n q
    | None => None
    end.
Proof.
  induction p as [|k p IH]; intros root; simpl; [reflexivity|].
  destruct (map_get jsstring_eq_dec (children_of root) k); [apply IH | reflexivity].
Qed.

(** Writing back a node that was not changed changes nothing. *)
Lemma replaceAt_nodeAt (p : list jsstring) :
  forall root n, nodeAt root p = Some n -> replaceAt root p n = root.
Proof.
  induction p as [|k p IH]; intros root n; simpl.
  - now intros [= ->].
  - destruct (map_get jsstring_eq_dec (children_of root) k) as [c|] eqn:E;
      [|discriminate].
    intros H. rewrite (IH c n H), (map_set_same _ _ _ _ E).
    apply with_children_same. exact (map_get_children _ _ _ E).
Qed.

Lemma nodeAt_replaceAt (p : list jsstring) (node' : GroupNode) :
  forall root, nodeAt root p <> None ->
               nodeAt (replaceAt root p node') p = Some node'.
Proof.
  induction p as [|k p IH]; intros root; simpl; [reflexivity|].
  destruct (map_get jsstring_eq_dec (children_of root) k) as [c|] eqn:E;
    [|congruence].
  intros H. rewrite children_of_with_children, map_get_set_eq. now apply IH.
Qed.

Lemma apart_cons (k : jsstring) (p q : list jsstring) :
  apart (k :: p) (k :: q) -> apart p q.
Proof.
  intros [H1 H2]. split; intros s ->.
  - apply (H1 s). reflexivity.
  - apply (H2 s). reflexivity.
Qed.

Lemma apart_sym (p q : list jsstring) : apart p q -> apart q p.
Proof. intros [H1 H2]. now split. Qed.

(** A change in one subtree is not seen in a disjoint one. *)
Lemma nodeAt_replaceAt_apart (p : list jsstring) (node' : GroupNode) :
  forall root q, apart p q -> nodeAt (replaceAt root p node') q = nodeAt root q.
Proof.
  induction p as [|k p IH]; intros root q Hap.
  - exfalso. exact (proj1 Hap q eq_refl).
  - destruct q as [|k' q].
    + exfalso. exact (proj2 Hap (k :: p) eq_refl).
    + simpl.
      destruct (map_get jsstring_eq_dec (children_of root) k) as [c|] eqn:E;
        [|reflexivity].
      rewrite children_of_with_children.
      destruct (jsstring_eq_dec k k') as [<-|Hne].
      * rewrite map_get_set_eq, E. apply IH. now apply (apart_cons k).
      * now rewrite (map_get_set_ne _ _ _ _ _ Hne).
Qed.

(** Writing a child back is writing back its parent with that child
    changed. *)
Lemma replaceAt_snoc (p : list jsstring) (k : jsstring) (c c' : GroupNode) :
  forall root node,
    nodeAt root p = Some node ->
    map_get jsstring_eq_dec (children_of node) k = Some c ->
    replaceAt root (p ++ [k]) c' =
    replaceAt root p
      (with_children node (map_set jsstring_eq_dec (children_of node) k c')).
Proof.
  induction p as [|k0 p IH]; intros root node; simpl.
  - intros [= ->] E. now rewrite E.
  - destruct (map_get jsstring_eq_dec (children_of root) k0) as [c0|] eqn:E0;
      [|discriminate].
    intros H E. now rewrite (IH c0 node H E).
Qed.

Lemma replaceAt_twice (p : list jsstring) (a b : GroupNode) :
  forall root, nodeAt root p <> None ->
               replaceAt (replaceAt root p a) p b = replaceAt root p b.
Proof.
  induction p as [|k p IH]; intros root; simpl; [reflexivity|].
  destruct (map_get jsstring_eq_dec (children_of root) k) as [c|] eqn:E;
    [|congruence].
  intros H. rewrite children_of_with_children, map_get_set_eq.
  rewrite with_children_twice, map_set_set. now rewrite (IH c H).
Qed.

Lemma nodeCount_unfold (n : GroupNode) :
  nodeCount n =
  S (list_sum (List.map (fun kc => nodeCount (snd kc)) (children_of n))).
Proof.
  destruct n as [nm lv [l|] fs]; unfold children_of; simpl; [|reflexivity].
  f_equal. induction l as [|kc t IH]; simpl; [reflexivity | now rewrite IH].
Qed.

Lemma allApart_app (l1 l2 : list (list jsstring)) :
  allApart (l1 ++ l2) <->
  allApart l1 /\ allApart l2 /\ forall p q, In p l1 -> In q l2 -> apart p q.
Proof.
  induction l1 as [|a l1 IH]; simpl.
  - split.
    + intros H. split; [exact I|]. split; [assumption|]. intros p q [].
    + intros (_ & H & _). exact H.
  - rewrite Forall_app, IH. split.
    + intros [[H1 H2] (H3 & H4 & H5)].
      split; [split; assumption|]. split; [assumption|].
      intros p q [<-|Hp] Hq.
      * rewrite Forall_forall in H2. now apply H2.
      * now apply H5.
    + intros ([H1 H2] & H3 & H4). split; [split; [assumption|]|].
      * rewrite Forall_forall. intros q Hq. apply H4; [now left | assumption].
      * split; [assumption|]. split; [assumption|].
        intros p q Hp Hq. apply H4; [now right | assumption].
Qed.

Lemma allApart_rev (l : list (list jsstring)) : allApart l -> allApart (rev l).
Proof.
  induction l as [|a l IH]; simpl; [trivial|].
  intros [H1 H2]. apply allApart_app.
  split; [now apply IH|]. split; [split; [constructor | exact I]|].
  intros p q Hp [<-|[]]. apply apart_sym.
  rewrite Forall_forall in H1. apply H1. now apply in_rev.
Qed.

Lemma apart_snoc (p : list jsstring) (k k' : jsstring) :
  k <> k' -> apart (p ++ [k]) (p ++ [k']).
Proof.
  intros Hne. split; intros s H; rewrite <- app_assoc in H;
    apply app_inv_head in H; injection H; congruence.
Qed.

Lemma apart_extend (p q : list jsstring) (k : jsstring) :
  apart p q -> apart (p ++ [k]) q.
Proof.
  intros [H1 H2]. split; intros s H.
  - apply (H1 ([k] ++ s)). now rewrite app_assoc.
  - destruct s as [|x s].
    + rewrite app_nil_r in H. apply (H1 [k]). now symmetry.
    + destruct (exists_last (l := x :: s)) as (s' & y & Hs); [discriminate|].
      rewrite Hs, app_assoc in H. apply app_inj_tail in H as [H _].
      now apply (H2 s').
Qed.

Lemma allApart_children (p : list jsstring) (l : list (jsstring * GroupNode)) :
  NoDup (map_keys l) -> allApart (List.map (fun kc => p ++ [fst kc]) l).
Proof.
  induction l as [|kc t IH]; simpl; [trivial|].
  intros H. inversion H as [|? ? Hk Ht]; subst. split; [|now apply IH].
  rewrite Forall_forall. intros q Hq.
  apply in_map_iff in Hq as (kc' & <- & Hin).
  apply apart_snoc. intros E. apply Hk. rewrite E.
  now apply in_map.
Qed.

Lemma push_children (p : list jsstring) (l : list (jsstring * GroupNode))
  (queue : list (list jsstring)) :
  fold_left (fun q kc => (p ++ [fst kc]) :: q) l queue =
  rev (List.map (fun kc => p ++ [fst kc]) l) ++ queue.
Proof.
  revert queue. induction l as [|kc t IH]; intros queue; simpl; [reflexivity|].
  now rewrite IH, <- app_assoc.
Qed.

Lemma list_sum_rev (l : list nat) : list_sum (rev l) = list_sum l.
Proof.
  induction l as [|a l IH]; simpl; [reflexivity|].
  rewrite list_sum_app, IH. simpl. lia.
Qed.

Section WorkList.

Variable levelTags : list jsstring.
Variable fileTags : list (TFile * list jsstring).
Variable levelIdx : Z.

Local Abbreviation rec :=
  (fun c => propagateLevel_rec c levelTags fileTags levelIdx).
Local Abbreviation finish root queue :=
  (finishQueue root queue levelTags fileTags levelIdx).
Local Abbreviation loop fuel root queue :=
  (propagateLevel_loop fuel root queue levelTags fileTags levelIdx).

Lemma finishQueue_app (s1 s2 : list (list jsstring)) :
  forall root,
    finish root (s1 ++ s2) =
    match finish root s1 with
    | Some r => finish r s2
    | None => None
    end.
Proof.
  induction s1 as [|p s1 IH]; intros root; [reflexivity|].
  simpl.
  destruct (nodeAt root p) as [node|]; [|reflexivity]. simpl.
  destruct (propagateLevel_rec node levelTags fileTags levelIdx); [|reflexivity].
  simpl. apply IH.
Qed.

Lemma visitChildren_snoc (g : GroupNode -> option GroupNode)
  (l : list (jsstring * GroupNode)) (kc : jsstring * GroupNode) :
  visitChildren g (l ++ [kc]) =
  match visitChildren g l, g (snd kc) with
  | Some l', Some c' => Some (l' ++ [(fst kc, c')])
  | _, _ => None
  end.
Proof.
  induction l as [|a l IH]; simpl.
  - now destruct (g (snd kc)).
  - destruct (g (snd a)); simpl; [|reflexivity].
    rewrite IH. destruct (visitChildren g l); simpl; [|reflexivity].
    now destruct (g (snd kc)).
Qed.

(** Finishing the children of a node, last child first, is visiting
    them in the recursion. *)
Lemma finishQueue_children (p : list jsstring) :
  forall (l0 tail : list (jsstring * GroupNode)) (root node : GroupNode),
    nodeAt root p = Some node ->
    children node = Some (l0 ++ tail) ->
    NoDup (map_keys (l0 ++ tail)) ->
    finish root (rev (List.map (fun kc => p ++ [fst kc]) l0)) =
    match visitChildren rec l0 with
    | Some l0' => Some (replaceAt root p (with_children node (l0' ++ tail)))
    | None => None
    end.
Proof.
  induction l0 as [|[k c] l0 IH] using rev_ind; intros tail root node Hn Hch Hnd.
  - simpl in Hch. simpl.
    rewrite (with_children_same _ _ Hch).
    now rewrite (replaceAt_nodeAt _ _ _ Hn).
  - rewrite map_app, rev_app_distr. simpl rev. simpl app.
    rewrite <- app_assoc in Hch, Hnd. simpl in Hch, Hnd.
    assert (Hk : ~ In k (map_keys l0)).
    { unfold map_keys in Hnd. rewrite map_app in Hnd. simpl in Hnd.
      apply NoDup_remove_2 in Hnd. intros H. apply Hnd.
      apply in_or_app. now left. }
    assert (Hget : map_get jsstring_eq_dec (children_of node) k = Some c).
    { unfold children_of. rewrite Hch. now apply map_get_middle. }
    cbn [finishQueue].
    rewrite nodeAt_app, Hn. cbn [nodeAt]. rewrite Hget. cbn [bind].
    rewrite visitChildren_snoc. cbn [fst snd]. fold (rec c).
    destruct (rec c) as [c'|]; cbn [bind].
    2:{ now destruct (visitChildren rec l0). }
    rewrite (replaceAt_snoc _ _ _ c' _ _ Hn Hget).
    set (node1 := with_children node
                    (map_set jsstring_eq_dec (children_of node) k c')).
    assert (Hch1 : children node1 = Some (l0 ++ (k, c') :: tail)).
    { unfold node1, children_of. rewrite Hch. simpl.
      now rewrite (map_set_middle _ _ _ _ _ _ Hk). }
    assert (Hn1 : nodeAt (replaceAt root p node1) p = Some node1).
    { apply nodeAt_replaceAt. congruence. }
    rewrite (IH ((k, c') :: tail) _ node1 Hn1 Hch1).
    + destruct (visitChildren rec l0) as [l0'|]; [|reflexivity].
      rewrite replaceAt_twice by congruence.
      unfold node1. rewrite with_children_twice, <- app_assoc. reflexivity.
    + unfold map_keys in *. rewrite map_app in *. exact Hnd.
Qed.

Lemma queueSize_cons (root : GroupNode) (p : list jsstring)
  (queue : list (list jsstring)) (node : GroupNode) :
  nodeAt root p = Some node ->
  queueSize root (p :: queue) = (nodeCount node + queueSize root queue)%nat.
Proof. unfold queueSize. simpl. now intros ->. Qed.

Lemma queueSize_app (root : GroupNode) (q1 q2 : list (list jsstring)) :
  queueSize root (q1 ++ q2) = (queueSize root q1 + queueSize root q2)%nat.
Proof. unfold queueSize. now rewrite map_app, list_sum_app. Qed.

Lemma queueSize_apart (root : GroupNode) (p : list jsstring) (node' : GroupNode)
  (queue : list (list jsstring)) :
  Forall (apart p) queue ->
  queueSize (replaceAt root p node') queue = queueSize root queue.
Proof.
  unfold queueSize. induction queue as [|q queue IH]; intros H; [reflexivity|].
  inversion H; subst. simpl.
  rewrite nodeAt_replaceAt_apart by assumption. now rewrite IH.
Qed.

Lemma queueSize_children (root : GroupNode) (p : list jsstring) (node : GroupNode) :
  nodeAt root p = Some node ->
  NoDup (map_keys (children_of node)) ->
  S (queueSize root (rev (List.map (fun kc => p ++ [fst kc]) (children_of node)))) =
  nodeCount node.
Proof.
  intros Hn Hnd. rewrite nodeCount_unfold. f_equal.
  unfold queueSize. rewrite map_rev, list_sum_rev, map_map. f_equal.
  apply map_ext_in. intros [k c] Hin. simpl.
  rewrite nodeAt_app, Hn. simpl.
  now rewrite (In_map_get jsstring_eq_dec _ _ _ Hnd Hin).
Qed.

Lemma propagateLevel_rec_unfold (n : GroupNode) :
  propagateLevel_rec n levelTags fileTags levelIdx =
  match files n with
  | Some (f :: r) => splitNode n (f :: r) levelTags fileTags levelIdx
  | _ =>
      match children n with
      | Some l => l' <- visitChildren rec l ;; Some (with_children n l')
      | None => Some n
      end
  end.
Proof. destruct n as [nm lv [l|] [[|f r]|]]; reflexivity. Qed.

(** Popping a node that holds no files and finishing its children is
    finishing the node. *)
Lemma finishQueue_visit (root node : GroupNode) (p : list jsstring)
  (rest : list (list jsstring)) :
  nodeAt root p = Some node ->
  NoDup (map_keys (children_of node)) ->
  finish root
    (rev (List.map (fun kc => p ++ [fst kc]) (children_of node)) ++ rest) =
  node' <- match children node with
           | Some l => l' <- visitChildren rec l ;; Some (with_children node l')
           | None => Some node
           end ;;
  finish (replaceAt root p node') rest.
Proof.
  intros Hn Hkeys. rewrite finishQueue_app.
  unfold children_of in *. destruct (children node) as [l|] eqn:Ech.
  - rewrite (finishQueue_children p l [] root node Hn);
      rewrite ?app_nil_r; try assumption.
    destruct (visitChildren rec l) as [l'|]; [|reflexivity].
    cbn [bind]. now rewrite app_nil_r.
  - simpl. now rewrite (replaceAt_nodeAt _ _ _ Hn).
Qed.

(** The loop, given fuel for the nodes on its work list, finishes
    them as the recursion does. *)
Lemma propagateLevel_loop_finish :
  forall (fuel : nat) (root : GroupNode) (queue : list (list jsstring)),
    (forall p, In p queue ->
               exists n, nodeAt root p = Some n /\ distinctKeys n) ->
    allApart queue ->
    (queueSize root queue <= fuel)%nat ->
    loop fuel root queue = finish root queue.
Proof.
  induction fuel as [|fuel IH]; intros root queue Hval Hap Hsz;
    destruct queue as [|p rest]; try reflexivity.
  - destruct (Hval p (or_introl eq_refl)) as (n & Hn & _).
    rewrite (queueSize_cons _ _ _ _ Hn), nodeCount_unfold in Hsz. lia.
  - destruct (Hval p (or_introl eq_refl)) as (node & Hn & Hd).
    destruct Hap as [Hp Hrest].
    rewrite (queueSize_cons _ _ _ _ Hn) in Hsz.
    pose proof (distinctKeys_here _ Hd) as Hkeys.
    cbn [propagateLevel_loop finishQueue].
    rewrite Hn. cbn [bind]. rewrite propagateLevel_rec_unfold.
    assert (Hvisit :
              loop fuel root
                   (fold_left (fun q kc => (p ++ [fst kc]) :: q)
                              (children_of node) rest) =
              node' <- match children node with
                       | Some l =>
                           l' <- visitChildren rec l ;;
                           Some (with_children node l')
                       | None => Some node
                       end ;;
              finish (replaceAt root p node') rest).
    { rewrite push_children, <- (finishQueue_visit _ _ _ _ Hn Hkeys).
      apply IH.
      - intros q Hq. apply in_app_or in Hq as [Hq|Hq]; [|apply Hval; now right].
        apply in_rev, in_map_iff in Hq as ([k c] & <- & Hin). simpl.
        exists c. rewrite nodeAt_app, Hn. simpl.
        rewrite (In_map_get jsstring_eq_dec _ _ _ Hkeys Hin).
        split; [reflexivity|]. exact (distinctKeys_child _ _ _ Hd Hin).
      - apply allApart_app. split; [|split; [assumption|]].
        + apply allApart_rev. now apply allApart_children.
        + intros a b Ha Hb. apply in_rev, in_map_iff in Ha as (kc & <- & _).
          apply apart_extend. rewrite Forall_forall in Hp. now apply Hp.
      - rewrite queueSize_app.
        pose proof (queueSize_children root p node Hn Hkeys). lia. }
    destruct (files node) as [[|f r]|]; try exact Hvisit.
    destruct (splitNode node (f :: r) levelTags fileTags levelIdx) as [node'|];
      [|reflexivity].
    cbn [bind]. apply IH.
    + intros q Hq. rewrite Forall_forall in Hp.
      rewrite (nodeAt_replaceAt_apart _ _ _ _ (Hp q Hq)).
      apply Hval. now right.
    + assumption.
    + rewrite (queueSize_apart _ _ _ _ Hp). rewrite nodeCount_unfold in Hsz. lia.
Qed.

(** On a tree whose maps have distinct keys, [propagateLevel] computes
    the recursion over the tree; its fuel suffices. *)
Lemma propagateLevel_rec_eq (root : GroupNode) :
  distinctKeys root ->
  propagateLevel root levelTags fileTags levelIdx =
  propagateLevel_rec root levelTags fileTags levelIdx.
Proof.
  intros Hd. unfold propagateLevel.
  rewrite propagateLevel_loop_finish.
  - simpl.
    now destruct (propagateLevel_rec root levelTags fileTags levelIdx).
  - intros p [<-|[]]. now exists root.
  - simpl. split; [constructor | exact I].
  - unfold queueSize. simpl. lia.
Qed.

End WorkList.

(** The loop over the levels succeeds and keeps the files of the tree. *)
Lemma applyLevels_ok (fileTags : list (TFile * list jsstring)) :
  forall (lvls : list Level) (lv : Z) (n : GroupNode),
    tagTreeInv fileTags n ->
    exists n',
      applyLevels lvls lv fileTags n = Some n' /\
      tagTreeInv fileTags n' /\
      Permutation (treeFiles n') (treeFiles n).
Proof.
  induction lvls as [|l lvls IH]; intros lv n Hinv.
  - exists n. split; [reflexivity | split; [assumption | reflexivity]].
  - simpl.
    destruct (propagateLevel_ok (level_tags l) fileTags lv n Hinv)
      as (m & Hm & _).
    rewrite propagateLevel_rec_eq by apply Hinv.
    rewrite Hm. simpl.
    destruct (propagateLevel_inv _ _ _ _ _ Hinv Hm) as [Hinv' Hp].
    destruct (IH (lv + 1)%Z m Hinv') as (n' & Hn' & Hinv'' & Hp').
    exists n'. split; [assumption | split; [assumption|]]. now rewrite Hp'.
Qed.

(** ** The By-Folder tree *)

Lemma atPath_In (parts : list jsstring) (f : TFile) :
  forall n, atPath n parts f -> In f (treeFiles n).
Proof.
  induction parts as [|k rest IH]; intros n; simpl; rewrite treeFiles_unfold.
  - intros H. apply in_or_app. now left.
  - destruct (map_get jsstring_eq_dec (children_of n) k) as [c|] eqn:E; [|intros []].
    intros H. apply in_or_app. right.
    apply in_flat_map. exists (k, c). split; [now apply (map_get_In jsstring_eq_dec)|].
    now apply IH.
Qed.

(** Adding a file where it already is changes nothing. *)
Lemma addAlong_same (parts : list jsstring) (f : TFile) :
  forall n, atPath n parts f -> addAlong n parts f = n.
Proof.
  induction parts as [|k rest IH]; intros n; cbn [addAlong atPath].
  - intros H. rewrite (set_add_in _ _ _ H).
    destruct n as [nm lv ch [fs|]]; [reflexivity | destruct H].
  - destruct (map_get jsstring_eq_dec (children_of n) k) as [c|] eqn:E; [|intros []].
    intros H. rewrite (IH c H), (map_set_same _ _ _ _ E).
    destruct n as [nm lv [ch|] fs]; [reflexivity | discriminate E].
Qed.

Lemma atPath_fresh (k : jsstring) (lv : Z) (parts : list jsstring) (f : TFile) :
  ~ atPath (mkGroupNode k lv (Some []) (Some [])) parts f.
Proof. destruct parts; simpl; auto. Qed.

(** Adding a file where it is not yet adds it once. *)
Lemma addAlong_perm (parts : list jsstring) (f : TFile) :
  forall n, ~ atPath n parts f ->
            Permutation (treeFiles (addAlong n parts f)) (f :: treeFiles n).
Proof.
  induction parts as [|k rest IH]; intros n Hn; cbn [addAlong]; cbn [atPath] in Hn.
  - rewrite !treeFiles_unfold, files_of_with_files, children_of_with_files.
    rewrite (set_add_notin _ _ _ Hn), <- app_assoc. simpl.
    symmetry. apply Permutation_middle.
  - rewrite !treeFiles_unfold, files_of_with_children, children_of_with_children.
    destruct (map_get jsstring_eq_dec (children_of n) k) as [c|] eqn:E.
    + destruct (childrenFiles_set_present _ _ _ (addAlong c rest f) E)
        as (X & Y & -> & ->).
      rewrite (IH c Hn). simpl. apply Permutation_move.
    + rewrite (childrenFiles_set_absent _ _ _ E).
      rewrite (IH _ (atPath_fresh _ _ _ _)). simpl.
      rewrite app_assoc. symmetry. apply Permutation_cons_append.
Qed.

Lemma atPath_addAlong (parts : list jsstring) (f : TFile) :
  forall n, atPath (addAlong n parts f) parts f.
Proof.
  induction parts as [|k rest IH]; intros n; cbn [addAlong atPath].
  - rewrite files_of_with_files. apply In_set_add. now right.
  - rewrite children_of_with_children, map_get_set_eq. apply IH.
Qed.

(** A file stays where it is when another file is added. *)
Lemma atPath_addAlong_mono (p : list jsstring) (g : TFile) :
  forall (n : GroupNode) (parts : list jsstring) (f : TFile),
    atPath n p g -> atPath (addAlong n parts f) p g.
Proof.
  induction p as [|k p' IH]; intros n parts f; cbn [atPath].
  - destruct parts as [|k' rest]; cbn [addAlong].
    + rewrite files_of_with_files. intros H. apply In_set_add. now left.
    + now rewrite files_of_with_children.
  - destruct (map_get jsstring_eq_dec (children_of n) k) as [c|] eqn:E; [|intros []].
    intros H. destruct parts as [|k' rest]; cbn [addAlong].
    + now rewrite children_of_with_files, E.
    + rewrite children_of_with_children.
      destruct (jsstring_eq_dec k' k) as [->|Hne].
      * rewrite map_get_set_eq, E. now apply IH.
      * rewrite (map_get_set_ne _ _ _ _ _ Hne), E. exact H.
Qed.

Lemma addFileToFolderTree_inv (root : GroupNode) (f : TFile) :
  folderTreeInv root ->
  folderTreeInv (addFileToFolderTree root (path f) f) /\
  forall g, In g (treeFiles (addFileToFolderTree root (path f) f)) <->
            g = f \/ In g (treeFiles root).
Proof.
  intros [Hnd Hat]. unfold addFileToFolderTree.
  fold (folderParts (path f)).
  destruct (in_dec TFile_eq_dec f (treeFiles root)) as [Hin|Hout].
  - rewrite (addAlong_same _ _ _ (Hat f Hin)). split; [now split|].
    intros g. split; [tauto | intros [->|H]; assumption].
  - assert (Hno : ~ atPath root (folderParts (path f)) f)
      by (intros H; apply Hout; now apply (atPath_In _ _ _ H)).
    pose proof (addAlong_perm _ _ _ Hno) as Hp.
    assert (Hmem : forall g,
               In g (treeFiles (addAlong root (folderParts (path f)) f)) <->
               g = f \/ In g (treeFiles root)).
    { intros g. split.
      - intros H. apply (Permutation_in _ Hp) in H as [<-|H]; auto.
      - intros H. apply (Permutation_in _ (Permutation_sym Hp)).
        destruct H as [->|H]; [now left | now right]. }
    split; [split|exact Hmem].
    + apply (Permutation_NoDup (Permutation_sym Hp)). now constructor.
    + intros g Hg. apply Hmem in Hg as [->|Hg].
      * apply atPath_addAlong.
      * apply atPath_addAlong_mono. now apply Hat.
Qed.

(** The By-Folder tree holds the files that are not in [matched], each
    once. *)
Lemma buildFolderTree_spec (matched allFiles : list TFile) :
  NoDup (treeFiles (buildFolderTree matched allFiles)) /\
  forall g, In g (treeFiles (buildFolderTree matched allFiles)) <->
            In g allFiles /\ ~ In g matched.
Proof.
  unfold buildFolderTree.
  set (root0 := mkGroupNode (js "root") (-1) (Some []) (Some [])).
  assert (H0 : folderTreeInv root0) by (split; [constructor | intros f []]).
  assert (Hgen : forall l root,
             folderTreeInv root ->
             let r := fold_left
                        (fun folderRoot f =>
                           if set_has TFile_eq_dec matched f then folderRoot
                           else addFileToFolderTree folderRoot (path f) f)
                        l root in
             folderTreeInv r /\
             forall g, In g (treeFiles r) <->
                       In g (treeFiles root) \/ (In g l /\ ~ In g matched)).
  { induction l as [|f l IH]; intros root Hinv; simpl.
    - split; [assumption|]. intros g. tauto.
    - destruct (set_has TFile_eq_dec matched f) eqn:Eh.
      + apply set_has_true in Eh.
        destruct (IH root Hinv) as [Hi Hm]. split; [assumption|].
        intros g. rewrite Hm. split.
        * intros [H|[H1 H2]]; auto.
        * intros [H|[[<-|H1] H2]]; auto. contradiction.
      + apply set_has_false in Eh.
        destruct (addFileToFolderTree_inv root f Hinv) as [Hinv' Hmem].
        destruct (IH _ Hinv') as [Hi Hm]. split; [assumption|].
        intros g. rewrite Hm, Hmem. split.
        * intros [[->|H]|[H1 H2]]; auto.
        * intros [H|[[<-|H1] H2]]; auto. }
  destruct (Hgen allFiles root0 H0) as [[Hnd _] Hm].
  split; [assumption|]. intros g. rewrite Hm. simpl. tauto.
Qed.

(** ** The two trees of [renderTree] *)

Lemma buildFileTags_covers (app : App) (mdFiles : list TFile) (f : TFile) :
  In f mdFiles ->
  map_get TFile_eq_dec (buildFileTags app mdFiles) f <> None.
Proof.
  unfold buildFileTags.
  assert (Hgen : forall l m,
             In f l \/ map_get TFile_eq_dec m f <> None ->
             map_get TFile_eq_dec
               (fold_left (fun m f => map_set TFile_eq_dec m f (collectTagsForFile app f))
                          l m) f <> None).
  { induction l as [|g l IH]; intros m H; simpl.
    - destruct H as [[]|H]; assumption.
    - apply IH. destruct H as [[->|H]|H]; auto; right.
      + rewrite map_get_set_eq. discriminate.
      + destruct (TFile_eq_dec g f) as [->|Hne].
        * rewrite map_get_set_eq. discriminate.
        * now rewrite (map_get_set_ne _ _ _ _ _ Hne). }
  intros H. apply Hgen. now left.
Qed.

Lemma buildMatched_spec (fileTags : list (TFile * list jsstring))
  (lvls : list Level) (mdFiles : list TFile) :
  NoDup (buildMatched fileTags lvls mdFiles) /\
  forall f, In f (buildMatched fileTags lvls mdFiles) <->
            In f mdFiles /\ matchesSomeLevel fileTags lvls f = true.
Proof.
  unfold buildMatched.
  assert (Hgen : forall l s,
             NoDup s ->
             let r := fold_left
                        (fun matched f =>
                           if matchesSomeLevel fileTags lvls f
                           then set_add TFile_eq_dec matched f
                           else matched) l s in
             NoDup r /\
             forall f, In f r <->
                       In f s \/ (In f l /\ matchesSomeLevel fileTags lvls f = true)).
  { induction l as [|g l IH]; intros s Hs; simpl.
    - split; [assumption|]. intros f. tauto.
    - destruct (matchesSomeLevel fileTags lvls g) eqn:Eg.
      + destruct (IH (set_add TFile_eq_dec s g)) as [Hnd Hm];
          [now apply NoDup_set_add|].
        split; [assumption|]. intros f. rewrite Hm, In_set_add. split.
        * intros [[H| ->]|[H1 H2]]; auto.
        * intros [H|[[<-|H1] H2]]; auto.
      + destruct (IH s Hs) as [Hnd Hm]. split; [assumption|].
        intros f. rewrite Hm. split.
        * intros [H|[H1 H2]]; auto.
        * intros [H|[[<-|H1] H2]]; auto. congruence. }
  destruct (Hgen mdFiles [] (NoDup_nil _)) as [Hnd Hm].
  split; [assumption|]. intros f. rewrite Hm. simpl. tauto.
Qed.

(** [renderTree] never throws.  For a vault that is not empty it builds
    a By-Tags tree that holds the matched files, each once, with files
    only in nodes without children, and a By-Folder tree that holds the
    other files of the vault, each once. *)
Lemma renderTree_trees (app : App) (allFiles mdFiles : list TFile) (cfg : ViewCfg) :
  exists r,
    renderTree app allFiles mdFiles cfg = Some r /\
    match r with
    | NoFiles => allFiles = []
    | Trees t fo =>
        let matched :=
          buildMatched (buildFileTags app mdFiles) (view_levels cfg) mdFiles in
        allFiles <> [] /\
        NoDup matched /\
        (forall f, In f matched -> In f mdFiles) /\
        Permutation (treeFiles t) matched /\
        allNodes terminalBucket t /\
        NoDup (treeFiles fo) /\
        (forall f, In f (treeFiles fo) <-> In f allFiles /\ ~ In f matched)
    end.
Proof.
  unfold renderTree. destruct allFiles as [|a allFiles]; [now exists NoFiles|].
  set (all := a :: allFiles).
  set (fileTags := buildFileTags app mdFiles).
  set (matched := buildMatched fileTags (view_levels cfg) mdFiles).
  destruct (buildMatched_spec fileTags (view_levels cfg) mdFiles) as [Hnd Hm].
  fold matched in Hnd, Hm.
  set (root0 := mkGroupNode (js "root") (-1) (Some []) (Some matched)).
  assert (Hinv : tagTreeInv fileTags root0).
  { split; [|split; [|split; [|split]]].
    - apply allNodes_leaf; [reflexivity | discriminate].
    - apply allNodes_leaf; [reflexivity | intros H; now contradiction H].
    - apply allNodes_leaf; [reflexivity | constructor].
    - simpl. now rewrite app_nil_r.
    - simpl. rewrite app_nil_r. intros f Hf.
      apply buildFileTags_covers. now apply Hm. }
  destruct (applyLevels_ok fileTags (view_levels cfg) 0 root0 Hinv)
    as (t & Ht & (_ & Hterm & _ & _ & _) & Hp).
  rewrite Ht. simpl.
  exists (Trees t (buildFolderTree matched all)). split; [reflexivity|].
  destruct (buildFolderTree_spec matched all) as [Hfnd Hfm].
  split; [discriminate|]. split; [assumption|]. split; [intros f Hf; now apply Hm|].
  split; [|split; [assumption|split; assumption]].
  rewrite Hp. simpl. now rewrite app_nil_r.
Qed.

Lemma count_occ_NoDup_In (l : list TFile) (f : TFile) :
  NoDup l -> In f l -> count_occ TFile_eq_dec l f = 1%nat.
Proof.
  intros Hnd Hin. now apply (proj1 (NoDup_count_occ' TFile_eq_dec l) Hnd).
Qed.

(** C1.  For every vault, set of markdown files, metadata and view,
    [renderTree] builds its trees without throwing (none when the vault is
    empty), and every file of the vault is held by exactly one of the two
    trees, once: either once in the By-Tags tree and nowhere in the
    By-Folder tree, or once in the By-Folder tree and nowhere in the
    By-Tags tree. *)
Theorem renderTree_partition :
  forall (app : App) (allFiles mdFiles : list TFile) (cfg : ViewCfg),
  exists r,
    renderTree app allFiles mdFiles cfg = Some r /\
    match r with
    | NoFiles => allFiles = []
    | Trees tagsRoot folderRoot =>
        forall f,
          In f allFiles ->
          (count_occ TFile_eq_dec (treeFiles tagsRoot) f = 1%nat /\
           count_occ TFile_eq_dec (treeFiles folderRoot) f = 0%nat) \/
          (count_occ TFile_eq_dec (treeFiles tagsRoot) f = 0%nat /\
           count_occ TFile_eq_dec (treeFiles folderRoot) f = 1%nat)
    end.
Proof.
  intros app allFiles mdFiles cfg.
  destruct (renderTree_trees app allFiles mdFiles cfg) as (r & Hr & H).
  exists r. split; [assumption|].
  destruct r as [|t fo]; [assumption|].
  cbv zeta in H. destruct H as (_ & Hnd & _ & Hp & _ & Hfnd & Hfm).
  set (matched := buildMatched (buildFileTags app mdFiles) (view_levels cfg) mdFiles) in *.
  assert (Htnd : NoDup (treeFiles t))
    by (apply (Permutation_NoDup (Permutation_sym Hp)); assumption).
  intros f Hf.
  destruct (in_dec TFile_eq_dec f matched) as [Hin|Hout].
  - left. split.
    + apply count_occ_NoDup_In; [assumption|].
      now apply (Permutation_in _ (Permutation_sym Hp)).
    + apply count_occ_not_In. rewrite Hfm. tauto.
  - right. split.
    + apply count_occ_not_In. intros H. apply Hout.
      now apply (Permutation_in _ Hp).
    + apply count_occ_NoDup_In; [assumption|]. apply Hfm. now split.
Qed.

(** C6, amended.  In the By-Tags tree that [renderTree] builds, every
    node whose children map is not empty has an empty file set.  (The
    By-Folder tree mirrors the folders of the vault, and a folder holds
    files next to its sub-folders.) *)
Theorem renderTree_tags_terminal :
  forall (app : App) (allFiles mdFiles : list TFile) (cfg : ViewCfg),
  exists r,
    renderTree app allFiles mdFiles cfg = Some r /\
    match r with
    | NoFiles => allFiles = []
    | Trees tagsRoot _ => allNodes terminalBucket tagsRoot
    end.
Proof.
  intros app allFiles mdFiles cfg.
  destruct (renderTree_trees app allFiles mdFiles cfg) as (r & Hr & H).
  exists r. split; [assumption|].
  destruct r as [|t fo]; [assumption|].
  cbv zeta in H. tauto.
Qed.

(** C6 as stated fails for the By-Folder tree: with [C.md] in the root
    of the vault and [notes/A.md] in a folder, the root of the By-Folder
    tree has a child and holds a file. *)
Lemma renderTree_folder_not_terminal :
  exists tagsRoot folderRoot,
    renderTree (fun _ => None) [fileC; fileA] [fileC; fileA]
               (mkViewCfg (js "default") (js "Default") []) =
    Some (Trees tagsRoot folderRoot) /\
    map_keys (children_of folderRoot) = [js "notes"] /\
    files_of folderRoot = [fileC] /\
    ~ allNodes terminalBucket folderRoot.
Proof.
  eexists. eexists. split; [vm_compute; reflexivity|].
  split; [reflexivity|]. split; [reflexivity|].
  intros H. apply allNodes_here in H. unfold terminalBucket in H.
  discriminate H. discriminate.
Qed.

(** The scenario of the specification: [A.md] tagged [#project/work],
    [B.md] tagged [#project/home], [C.md] without tags, one level with the
    pattern [#project].  The By-Tags root has the one child ["project"]
    with [A.md] and [B.md]; [C.md] is in the By-Folder tree. *)
Example renderTree_project :
  exists tagsRoot folderRoot,
    renderTree appProject [fileA; fileB; fileC] [fileA; fileB; fileC] cfgProject =
    Some (Trees tagsRoot folderRoot) /\
    map_keys (children_of tagsRoot) = [js "project"] /\
    bucketFiles tagsRoot (js "project") = [fileA; fileB] /\
    countFiles tagsRoot = 2%Z /\
    treeFiles folderRoot = [fileC] /\
    countFiles folderRoot = 1%Z.
Proof.
  eexists. eexists. split; [vm_compute; reflexivity|]. repeat split.
Qed.

(** The same files with a level that matches none of them: nothing is
    matched, the By-Tags tree is empty and all three files are in the
    By-Folder tree. *)
Example renderTree_no_match :
  exists tagsRoot folderRoot,
    renderTree appProject [fileA; fileB; fileC] [fileA; fileB; fileC]
               (mkViewCfg (js "default") (js "Default")
                          [mkLevel (js "X") [js "#other"]]) =
    Some (Trees tagsRoot folderRoot) /\
    treeFiles tagsRoot = [] /\
    children_of tagsRoot = [] /\
    countFiles folderRoot = 3%Z.
Proof.
  eexists. eexists. split; [vm_compute; reflexivity|]. repeat split.
Qed.

(** C2.  [countFiles] of a node is the size of its file set plus the sum
    of [countFiles] over its children; and when the vault lists no file
    twice and the markdown files are files of the vault, the counts of the
    two roots that [renderTree] builds add up to the number of files of
    the vault. *)
Theorem countFiles_consistent :
  forall (app : App) (allFiles mdFiles : list TFile) (cfg : ViewCfg)
         (node : GroupNode),
    NoDup allFiles ->
    incl mdFiles allFiles ->
    countFiles node =
    (Z.of_nat (List.length (files_of node)) +
     sumZ (List.map countFiles (map_values (children_of node))))%Z /\
    exists r,
      renderTree app allFiles mdFiles cfg = Some r /\
      match r with
      | NoFiles => allFiles = []
      | Trees tagsRoot folderRoot =>
          (countFiles tagsRoot + countFiles folderRoot)%Z =
          Z.of_nat (List.length allFiles)
      end.
Proof.
  intros app allFiles mdFiles cfg node Hnd Hincl.
  split; [apply countFiles_unfold|].
  destruct (renderTree_trees app allFiles mdFiles cfg) as (r & Hr & H).
  exists r. split; [assumption|].
  destruct r as [|t fo]; [assumption|].
  cbv zeta in H. destruct H as (_ & Hmnd & Hmd & Hp & _ & Hfnd & Hfm).
  set (matched := buildMatched (buildFileTags app mdFiles) (view_levels cfg) mdFiles) in *.
  rewrite !countFiles_treeFiles, <- Nat2Z.inj_add. f_equal.
  rewrite (Permutation_length Hp).
  rewrite <- (filter_length (set_has TFile_eq_dec matched) allFiles).
  f_equal.
  - apply Permutation_length, NoDup_Permutation;
      [assumption | now apply NoDup_filter|].
    intros f. rewrite filter_In, set_has_true. split.
    + intros H. split; [apply Hincl, Hmd|]; assumption.
    + tauto.
  - apply Permutation_length, NoDup_Permutation;
      [assumption | now apply NoDup_filter|].
    intros f. rewrite filter_In, Hfm, negb_true_iff, set_has_false. tauto.
Qed.

(** Closed goals about the sample data: distinct elements, membership. *)
Ltac distinct :=
  repeat (constructor; [simpl; intuition discriminate|]); constructor.

Ltac members :=
  simpl; intuition (subst; auto; try discriminate).

(** [countFiles_consistent] at the sample vault of three files. *)
Lemma countFiles_consistent_witness :
  NoDup [fileA; fileB; fileC] /\
  incl [fileA; fileB] [fileA; fileB; fileC] /\
  countFiles nodeAB =
  (Z.of_nat (List.length (files_of nodeAB)) +
   sumZ (List.map countFiles (map_values (children_of nodeAB))))%Z /\
  exists r,
    renderTree appProject [fileA; fileB; fileC] [fileA; fileB] cfgProject = Some r /\
    match r with
    | NoFiles => [fileA; fileB; fileC] = []
    | Trees tagsRoot folderRoot =>
        (countFiles tagsRoot + countFiles folderRoot)%Z = 3%Z
    end.
Proof.
  assert (H1 : NoDup [fileA; fileB; fileC]) by distinct.
  assert (H2 : incl [fileA; fileB] [fileA; fileB; fileC])
    by (intros f; members).
  split; [exact H1|]. split; [exact H2|].
  exact (countFiles_consistent appProject [fileA; fileB; fileC] [fileA; fileB]
           cfgProject nodeAB H1 H2).
Defined.

(** ** One level applied to a node that holds files *)

Lemma propagateLevel_split (node : GroupNode) (fs : list TFile)
  (levelTags : list jsstring) (fileTags : list (TFile * list jsstring))
  (levelIdx : Z) :
  files node = Some fs -> fs <> [] ->
  propagateLevel_rec node levelTags fileTags levelIdx =
  splitNode node fs levelTags fileTags levelIdx.
Proof.
  destruct node as [nm lv ch f]. simpl. intros -> Hne.
  destruct fs; [congruence | reflexivity].
Qed.

Lemma In_bucket_filter (fileTags : list (TFile * list jsstring))
  (levelTags : list jsstring) (fs : list TFile) (k : jsstring) (f : TFile) :
  In f fs ->
  (In f (List.filter
           (fun f => byPattern fileTags levelTags f &&
                     str_eqb (bucketKey fileTags levelTags f) k) fs ++
         (if str_eqb k (js "Others")
          then List.filter (fun f => negb (byPattern fileTags levelTags f)) fs
          else [])) <->
   k = bucketKey fileTags levelTags f).
Proof.
  intros Hin. rewrite in_app_iff, filter_In, andb_true_iff, str_eqb_eq.
  destruct (byPattern fileTags levelTags f) eqn:Ep.
  - split; [intros [(_ & _ & H)|H]; [now symmetry|] | intros ->; now left].
    destruct (str_eqb k (js "Others")); [|destruct H].
    apply filter_In in H as [_ H]. rewrite Ep in H. discriminate.
  - rewrite (unpat_key _ _ _ Ep). split.
    + intros [(_ & H & _)|H]; [discriminate|].
      destruct (str_eqb k (js "Others")) eqn:Ek; [|destruct H].
      now apply str_eqb_eq.
    + intros ->. right. rewrite str_eqb_refl. apply filter_In. now rewrite Ep.
Qed.

(** The first pattern that matches wins, as long as it is not the empty
    string: when a level is applied to a node that holds files and has no
    children, a file whose first matching pattern [p] is not empty is held
    by the bucket of [p] and by no other child, once. *)
Lemma propagateLevel_first_truthy_match :
  forall (node : GroupNode) (fs : list TFile)
         (levelTags l1 l2 : list jsstring) (p : jsstring)
         (fileTags : list (TFile * list jsstring)) (levelIdx : Z)
         (f : TFile) (T : list jsstring),
    files node = Some fs ->
    children_of node = [] ->
    NoDup fs ->
    (forall g, In g fs -> map_get TFile_eq_dec fileTags g <> None) ->
    In f fs ->
    map_get TFile_eq_dec fileTags f = Some T ->
    levelTags = l1 ++ p :: l2 ->
    (forall q, In q l1 -> ~ matchesPattern T q) ->
    matchesPattern T p ->
    p <> [] ->
    exists node',
      propagateLevel node levelTags fileTags levelIdx = Some node' /\
      (forall k b, In (k, b) (children_of node') ->
                   (In f (files_of b) <-> k = stripHash p)) /\
      (exists b, In (stripHash p, b) (children_of node') /\ In f (files_of b)) /\
      count_occ TFile_eq_dec (treeFiles node') f = 1%nat.
Proof.
  intros node fs levelTags l1 l2 p fileTags levelIdx f T
         Hfs Hleaf Hnd Hcov Hin HT Hlt Hl1 Hp Hne.
  assert (Hfsne : fs <> []) by (intros ->; destruct Hin).
  rewrite (propagateLevel_rec_eq _ _ _ _ (distinctKeys_leaf _ Hleaf)).
  rewrite (propagateLevel_split _ _ _ _ _ Hfs Hfsne).
  destruct (splitNode_buckets levelTags fileTags levelIdx node fs Hleaf Hnd)
    as (node' & Hs & _ & Hk & _ & Hperm & Hb).
  { intros g Hg. now apply matchOf_covered, Hcov. }
  assert (Hm : matchOf fileTags levelTags f = Some (Some p)).
  { unfold matchOf. rewrite HT. f_equal. apply tagMatchesAny_Some.
    exists l1, l2. split; [assumption|]. split.
    - now apply existsb_tagMatches.
    - intros q Hq. specialize (Hl1 q Hq). rewrite <- existsb_tagMatches in Hl1.
      now destruct (existsb (tagMatches q) T). }
  assert (Hkey : bucketKey fileTags levelTags f = stripHash p).
  { unfold bucketKey. rewrite Hm.
    now rewrite (proj2 (nonEmpty_true p) Hne). }
  assert (Hat : forall k, In f (bucketFiles node' k) <-> k = stripHash p).
  { intros k. rewrite Hb, <- Hkey. now apply In_bucket_filter. }
  exists node'. split; [assumption|]. split; [|split].
  - intros k b Hkb. rewrite <- Hat. unfold bucketFiles, filesAt.
    now rewrite (In_map_get jsstring_eq_dec _ _ _ Hk Hkb).
  - pose proof (proj2 (Hat (stripHash p)) eq_refl) as Hf.
    unfold bucketFiles, filesAt in Hf.
    destruct (map_get jsstring_eq_dec (children_of node') (stripHash p))
      as [b|] eqn:E; [|destruct Hf].
    exists b. split; [now apply (map_get_In jsstring_eq_dec) | assumption].
  - apply count_occ_NoDup_In.
    + now apply (Permutation_NoDup (Permutation_sym Hperm)).
    + now apply (Permutation_in _ (Permutation_sym Hperm)).
Qed.


(** ** Sorting *)

Section SortFacts.

Context {A : Type} (cmp : A -> A -> Z).

Let le (a b : A) : Prop := (cmp a b <= 0)%Z.

Lemma sort_insert_perm (x : A) (l : list A) :
  Permutation (sort_insert cmp x l) (x :: l).
Proof.
  induction l as [|y r IH]; simpl; [reflexivity|].
  destruct (cmp x y <=? 0)%Z; [reflexivity|].
  rewrite IH. apply perm_swap.
Qed.

Lemma Array_sort_perm (l : list A) : Permutation (Array_sort cmp l) l.
Proof.
  induction l as [|x l IH]; simpl; [reflexivity|].
  rewrite sort_insert_perm. now constructor.
Qed.

(** The comparator is consistent: any two elements are ordered one way or
    the other, and the order is transitive. *)
Hypothesis cmp_total : forall a b, (0 < cmp a b)%Z -> (cmp b a <= 0)%Z.
Hypothesis cmp_trans :
  forall a b c, (cmp a b <= 0)%Z -> (cmp b c <= 0)%Z -> (cmp a c <= 0)%Z.

Lemma sort_insert_sorted (x : A) (l : list A) :
  StronglySorted le l -> StronglySorted le (sort_insert cmp x l).
Proof.
  induction l as [|y r IH]; simpl; intros Hs.
  - constructor; constructor.
  - inversion Hs as [|? ? Hr Hy]; subst.
    destruct (cmp x y <=? 0)%Z eqn:E.
    + apply Z.leb_le in E. constructor; [assumption|].
      constructor; [exact E|].
      eapply Forall_impl; [|exact Hy]. intros z Hz. now apply (cmp_trans x y z).
    + apply Z.leb_gt in E. constructor; [now apply IH|].
      rewrite Forall_forall in *. intros z Hz.
      apply (Permutation_in _ (sort_insert_perm x r)) in Hz as [<-|Hz].
      * now apply cmp_total.
      * now apply Hy.
Qed.

Lemma Array_sort_sorted (l : list A) : StronglySorted le (Array_sort cmp l).
Proof.
  induction l as [|x l IH]; simpl; [constructor|].
  now apply sort_insert_sorted.
Qed.

(** In the sorted array an element never comes after one it must
    precede. *)
Lemma Array_sort_ordered (l l1 l2 l3 : list A) (a b : A) :
  Array_sort cmp l = l1 ++ a :: l2 ++ b :: l3 -> (cmp a b <= 0)%Z.
Proof.
  intros H. pose proof (Array_sort_sorted l) as Hs. rewrite H in Hs.
  clear H. induction l1 as [|c l1 IH]; simpl in Hs.
  - inversion Hs as [|? ? _ Ha]; subst.
    rewrite Forall_forall in Ha. apply Ha, in_elt.
  - inversion Hs; subst. now apply IH.
Qed.

End SortFacts.

Section GetSortedEntries.

Variable localeCompare : jsstring -> jsstring -> Z.

(** The collation orders any two strings one way or the other, and its
    order is transitive. *)
Hypothesis localeCompare_total :
  forall a b, (0 < localeCompare a b)%Z -> (localeCompare b a <= 0)%Z.
Hypothesis localeCompare_trans :
  forall a b c, (localeCompare a b <= 0)%Z -> (localeCompare b c <= 0)%Z ->
                (localeCompare a c <= 0)%Z.

Lemma countCompare_le (a b : jsstring * GroupNode) :
  (countCompare localeCompare a b <= 0)%Z <->
  (countFiles (snd b) < countFiles (snd a))%Z \/
  (countFiles (snd b) = countFiles (snd a) /\
   (localeCompare (fst a) (fst b) <= 0)%Z).
Proof.
  unfold countCompare.
  destruct (countFiles (snd b) =? countFiles (snd a))%Z eqn:E; simpl.
  - apply Z.eqb_eq in E. split; [intros H; now right | intros [H|[_ H]]; [lia|assumption]].
  - apply Z.eqb_neq in E. split; [intros H; left; lia | intros [H|[H _]]; lia].
Qed.

Lemma countCompare_total (a b : jsstring * GroupNode) :
  (0 < countCompare localeCompare a b)%Z -> (countCompare localeCompare b a <= 0)%Z.
Proof.
  intros H. apply countCompare_le.
  assert (Hn : ~ (countCompare localeCompare a b <= 0)%Z) by lia.
  rewrite countCompare_le in Hn.
  destruct (Z.lt_trichotomy (countFiles (snd a)) (countFiles (snd b)))
    as [Hlt|[Heq|Hgt]].
  - now left.
  - right. split; [assumption|]. apply localeCompare_total.
    destruct (Z_lt_le_dec 0 (localeCompare (fst a) (fst b))); [assumption|].
    exfalso. apply Hn. right. now split.
  - exfalso. apply Hn. now left.
Qed.

Lemma countCompare_trans (a b c : jsstring * GroupNode) :
  (countCompare localeCompare a b <= 0)%Z ->
  (countCompare localeCompare b c <= 0)%Z ->
  (countCompare localeCompare a c <= 0)%Z.
Proof.
  rewrite !countCompare_le.
  intros [H1|[H1 L1]] [H2|[H2 L2]]; try (left; lia).
  right. split; [lia|]. now apply (localeCompare_trans _ (fst b)).
Qed.

(** C9.  [getSortedEntries] is a total function; it returns the empty
    array for the empty map and a permutation of the entries of any map;
    and in the ["count"] mode an entry never comes after an entry with a
    smaller count, and of two entries with equal [countFiles] the one that
    comes first has the label that [localeCompare] puts first. *)
Theorem getSortedEntries_spec :
  forall (map : list (jsstring * GroupNode)) (mode : SortMode),
    getSortedEntries localeCompare [] mode = [] /\
    Permutation (getSortedEntries localeCompare map mode) map /\
    forall l1 a l2 b l3,
      getSortedEntries localeCompare map Count = l1 ++ a :: l2 ++ b :: l3 ->
      (countFiles (snd b) <= countFiles (snd a))%Z /\
      (countFiles (snd a) = countFiles (snd b) ->
       (localeCompare (fst a) (fst b) <= 0)%Z).
Proof.
  intros map mode. split; [now destruct mode|]. split.
  - destruct mode; apply Array_sort_perm.
  - intros l1 a l2 b l3 H. simpl in H.
    apply (Array_sort_ordered _ countCompare_total countCompare_trans) in H.
    apply countCompare_le in H. split; [lia|].
    intros Heq. destruct H as [H|[_ H]]; [lia | assumption].
Qed.

End GetSortedEntries.

Lemma codeUnitCompare_total (a b : jsstring) :
  (0 < codeUnitCompare a b)%Z -> (codeUnitCompare b a <= 0)%Z.
Proof.
  revert b. induction a as [|x a IH]; intros [|y b]; simpl; try lia.
  rewrite (N.compare_antisym x y).
  destruct (x ?= y)%N; simpl; try lia. apply IH.
Qed.

Lemma codeUnitCompare_trans (a b c : jsstring) :
  (codeUnitCompare a b <= 0)%Z -> (codeUnitCompare b c <= 0)%Z ->
  (codeUnitCompare a c <= 0)%Z.
Proof.
  revert b c. induction a as [|x a IH]; intros [|y b] [|z c]; simpl; try lia.
  destruct (N.compare_spec x y) as [->|Hxy|Hxy]; try lia.
  - destruct (N.compare_spec y z) as [->|Hyz|Hyz]; try lia. apply IH.
  - destruct (N.compare_spec y z) as [->|Hyz|Hyz]; try lia.
    + intros _ _. destruct (N.compare_spec x z); lia.
    + intros _ _. destruct (N.compare_spec x z); lia.
Qed.

(** [getSortedEntries_spec] with the collation by code units. *)
Lemma getSortedEntries_spec_witness :
  getSortedEntries codeUnitCompare [] Count = [] /\
  Permutation (getSortedEntries codeUnitCompare siblings Count) siblings /\
  forall l1 a l2 b l3,
    getSortedEntries codeUnitCompare siblings Count = l1 ++ a :: l2 ++ b :: l3 ->
    (countFiles (snd b) <= countFiles (snd a))%Z /\
    (countFiles (snd a) = countFiles (snd b) ->
     (codeUnitCompare (fst a) (fst b) <= 0)%Z).
Proof.
  exact (getSortedEntries_spec codeUnitCompare codeUnitCompare_total
           codeUnitCompare_trans siblings Count).
Defined.

(** The sample siblings in the ["count"] mode: ["c"] with two files
    first, then ["a"] before ["b"]. *)
Example getSortedEntries_siblings :
  map_keys (getSortedEntries codeUnitCompare siblings Count) =
  [js "c"; js "a"; js "b"].
Proof. reflexivity. Qed.

(** ** Deleting a view *)

Lemma filter_other_ids_nonempty (vs : list ViewCfg) (i : jsstring) :
  NoDup (List.map view_id vs) -> (2 <= List.length vs)%nat ->
  List.filter (fun v => negb (str_eqb (view_id v) i)) vs <> [].
Proof.
  destruct vs as [|v1 [|v2 r]]; simpl; try lia. intros Hnd _.
  inversion Hnd as [|? ? H1 _]; subst.
  destruct (str_eqb (view_id v1) i) eqn:E1; simpl; [|discriminate].
  destruct (str_eqb (view_id v2) i) eqn:E2; simpl; [|discriminate].
  apply str_eqb_eq in E1, E2. exfalso. apply H1. left. congruence.
Qed.

(** C10.  With view ids that are pairwise distinct: deleting a view when
    it is the only one is rejected with a notice and leaves the settings,
    and so the view list, unchanged; a deletion from a list that is not
    empty never throws and leaves a list that is not empty; and when a
    deletion is saved, the list loses the views with the id of the deleted
    view, and if that id was the active one the active id becomes the id
    of a view of the new list. *)
Theorem delBtn_onclick_keeps_a_view :
  forall (settings : MagiofilesSettings) (view : ViewCfg),
    NoDup (List.map view_id (views settings)) ->
    views settings <> [] ->
    exists o,
      delBtn_onclick settings view = Some o /\
      views (settingsOf o) <> [] /\
      match o with
      | Rejected notice s =>
          List.length (views settings) = 1%nat /\ s = settings
      | Saved s =>
          List.length (views settings) <> 1%nat /\
          views s =
          List.filter (fun v => negb (str_eqb (view_id v) (view_id view)))
                      (views settings) /\
          (activeViewId settings = Some (view_id view) ->
           exists v, In v (views s) /\ activeViewId s = Some (view_id v))
      end /\
      (List.length (views settings) = 1%nat ->
       o = Rejected (js "Cannot delete the last view") settings).
Proof.
  intros settings view Hnd Hne. unfold delBtn_onclick.
  destruct (List.length (views settings) =? 1)%nat eqn:E.
  - apply Nat.eqb_eq in E. eexists. split; [reflexivity|]. simpl. auto.
  - apply Nat.eqb_neq in E.
    set (views' := List.filter _ (views settings)).
    assert (Hlen : (2 <= List.length (views settings))%nat).
    { destruct (views settings) as [|v [|w r]]; simpl in *; try congruence; lia. }
    pose proof (filter_other_ids_nonempty _ (view_id view) Hnd Hlen) as Hne'.
    fold views' in Hne'.
    destruct (activeIs (activeViewId settings) (view_id view)) eqn:Ea.
    + destruct views' as [|v0 rest] eqn:Ev; [congruence|].
      eexists. split; [reflexivity|]. simpl. split; [discriminate|].
      split; [|intros; contradiction].
      split; [assumption|]. split; [reflexivity|].
      intros _. exists v0. split; [now left | reflexivity].
    + eexists. split; [reflexivity|]. simpl. split; [assumption|].
      split; [|intros; contradiction].
      split; [assumption|]. split; [reflexivity|].
      intros Hact. rewrite Hact in Ea. simpl in Ea.
      rewrite str_eqb_refl in Ea. discriminate.
Qed.

(** [delBtn_onclick_keeps_a_view] for the active view of two. *)
Lemma delBtn_onclick_keeps_a_view_witness :
  exists o,
    delBtn_onclick settingsTwo (mkViewCfg (js "default") (js "Default") []) = Some o /\
    views (settingsOf o) <> [] /\
    match o with
    | Rejected notice s =>
        List.length (views settingsTwo) = 1%nat /\ s = settingsTwo
    | Saved s =>
        List.length (views settingsTwo) <> 1%nat /\
        views s =
        List.filter
          (fun v => negb (str_eqb (view_id v)
                            (view_id (mkViewCfg (js "default") (js "Default") []))))
          (views settingsTwo) /\
        (activeViewId settingsTwo =
         Some (view_id (mkViewCfg (js "default") (js "Default") [])) ->
         exists v, In v (views s) /\ activeViewId s = Some (view_id v))
    end /\
    (List.length (views settingsTwo) = 1%nat ->
     o = Rejected (js "Cannot delete the last view") settingsTwo).
Proof.
  apply (delBtn_onclick_keeps_a_view settingsTwo
           (mkViewCfg (js "default") (js "Default") [])).
  - simpl. distinct.
  - discriminate.
Defined.

(** * More properties of [main.ts] *)

(** ** Tags *)

Lemma In_trimStart (c : char) (s : jsstring) : In c (trimStart s) -> In c s.
Proof.
  induction s as [|d r IH]; simpl; [trivial|].
  destruct (isWhiteSpace d); [intros H; right; now apply IH | trivial].
Qed.

Lemma In_trim (c : char) (s : jsstring) : In c (trim s) -> In c s.
Proof.
  unfold trim, trimEnd. intros H.
  apply In_trimStart. apply in_rev in H. apply In_trimStart in H.
  now apply in_rev.
Qed.

Lemma split_no_sep (sep : char) (s part : jsstring) :
  In part (split sep s) -> ~ In sep part.
Proof.
  revert part. induction s as [|c r IH]; simpl; intros part.
  - intros [<-|[]]. intros [].
  - destruct (N.eqb_spec c sep) as [->|Hne].
    + intros [<-|H]; [intros [] | now apply IH].
    + destruct (split sep r) as [|w ws] eqn:E.
      * intros [<-|[]]. intros [H|[]]. congruence.
      * intros [<-|H].
        -- intros [H|H]; [congruence|]. apply (IH w); [now left | assumption].
        -- apply IH. now right.
Qed.

Lemma split_length (sep : char) (s : jsstring) :
  List.length (split sep s) = S (count_occ N.eq_dec s sep).
Proof.
  induction s as [|c r IH]; simpl; [reflexivity|].
  destruct (N.eqb_spec c sep) as [->|Hne].
  - simpl. rewrite IH. now destruct (N.eq_dec sep sep).
  - destruct (N.eq_dec c sep); [contradiction|].
    destruct (split sep r); simpl in *; lia.
Qed.

(** What the tag picker shows for a stored pattern, and what is stored
    for what it shows: for a tag entered without the marker, [stripHash]
    undoes [normalizeTag], and normalizing the stripped tag gives the
    stored tag again.  In general stripping the normalized tag is
    stripping the trimmed input. *)
Theorem stripHash_normalizeTag :
  forall s : jsstring,
    trim s <> [] ->
    stripHash (normalizeTag s) = stripHash (trim s) /\
    (startsWith (js "#") (trim s) = false ->
     stripHash (normalizeTag s) = trim s /\
     normalizeTag (stripHash (normalizeTag s)) = normalizeTag s).
Proof.
  intros s Hne.
  assert (Hn : normalizeTag s =
               if startsWith (js "#") (trim s) then trim s else js "#" ++ trim s).
  { unfold normalizeTag. destruct (trim s); [congruence | reflexivity]. }
  assert (Hs : startsWith (js "#") (trim s) = false ->
               stripHash (normalizeTag s) = trim s).
  { intros E. rewrite Hn, E. reflexivity. }
  split.
  - destruct (startsWith (js "#") (trim s)) eqn:E.
    + now rewrite Hn.
    + rewrite (Hs eq_refl). unfold stripHash. now rewrite E.
  - intros E. split; [now apply Hs|].
    rewrite (Hs E). unfold normalizeTag. now rewrite trim_idem.
Qed.

(** [stripHash_normalizeTag] for the input [" work "]. *)
Lemma stripHash_normalizeTag_witness :
  stripHash (normalizeTag (js " work ")) = stripHash (trim (js " work ")) /\
  (startsWith (js "#") (trim (js " work ")) = false ->
   stripHash (normalizeTag (js " work ")) = trim (js " work ") /\
   normalizeTag (stripHash (normalizeTag (js " work "))) =
   normalizeTag (js " work ")).
Proof.
  apply (stripHash_normalizeTag (js " work ")). discriminate.
Defined.

Lemma In_normalizeTag (c : char) (s : jsstring) :
  In c (normalizeTag s) -> c = 35%N \/ In c s.
Proof.
  unfold normalizeTag. destruct (trim s) as [|d t] eqn:E; [intros []|].
  cbn [nonEmpty negb]. rewrite <- E.
  destruct (startsWith (js "#") (trim s)).
  - intros H. right. now apply In_trim.
  - intros [H|H]; [now left | right; now apply In_trim].
Qed.

(** Every tag that [parseTagsInput] returns is canonical: not empty,
    starting with the marker, unchanged by [normalizeTag], and without a
    comma. *)
Theorem parseTagsInput_canonical :
  forall (input t : jsstring),
    In t (parseTagsInput input) ->
    t <> [] /\
    startsWith (js "#") t = true /\
    normalizeTag t = t /\
    ~ In 44%N t.
Proof.
  intros input t H. unfold parseTagsInput in H.
  apply filter_In in H as [H Hne]. apply in_map_iff in H as (part & <- & Hp).
  apply nonEmpty_true in Hne.
  destruct (normalizeTag_shape part) as [E|(Ht & _ & Hs)]; [congruence|].
  split; [assumption|]. split; [assumption|]. split.
  - now apply normalizeTag_fixpoint.
  - intros Hc. apply In_normalizeTag in Hc as [Hc|Hc]; [discriminate|].
    exact (split_no_sep _ _ _ Hp Hc).
Qed.

(** [parseTagsInput_canonical] for the input ["a, #b,, c "]. *)
Lemma parseTagsInput_canonical_witness :
  In (js "#c") (parseTagsInput (js "a, #b,, c ")) /\
  js "#c" <> [] /\
  startsWith (js "#") (js "#c") = true /\
  normalizeTag (js "#c") = js "#c" /\
  ~ In 44%N (js "#c").
Proof.
  assert (H : In (js "#c") (parseTagsInput (js "a, #b,, c ")))
    by (vm_compute; tauto).
  split; [exact H|].
  exact (parseTagsInput_canonical (js "a, #b,, c ") (js "#c") H).
Defined.

(** The result of [tagMatchesAny] is a pattern of [wanted], and it
    depends on the tags of the set only, not on the order in which the set
    is iterated. *)
Theorem tagMatchesAny_set :
  forall (T T' wanted : list jsstring),
    (forall t, In t T <-> In t T') ->
    tagMatchesAny T wanted = tagMatchesAny T' wanted /\
    match tagMatchesAny T wanted with
    | Some w => In w wanted
    | None => True
    end.
Proof.
  intros T T' wanted Hset.
  assert (He : forall w, existsb (tagMatches w) T = existsb (tagMatches w) T').
  { intros w. apply eq_true_iff_eq. rewrite !existsb_exists.
    split; intros (t & Hin & Hm); exists t; split; auto; now apply Hset. }
  split.
  - induction wanted as [|w ws IH]; simpl; [reflexivity|].
    rewrite He, IH. reflexivity.
  - destruct (tagMatchesAny T wanted) as [w|] eqn:E; [|exact I].
    apply tagMatchesAny_Some in E as (l1 & l2 & -> & _). apply in_elt.
Qed.

(** [tagMatchesAny_set] for a set given in two orders. *)
Lemma tagMatchesAny_set_witness :
  tagMatchesAny [js "#b/x"; js "#a"] [js "#a"; js "#b"] =
  tagMatchesAny [js "#a"; js "#b/x"] [js "#a"; js "#b"] /\
  match tagMatchesAny [js "#b/x"; js "#a"] [js "#a"; js "#b"] with
  | Some w => In w [js "#a"; js "#b"]
  | None => True
  end.
Proof.
  apply (tagMatchesAny_set [js "#b/x"; js "#a"] [js "#a"; js "#b/x"]).
  intros t. simpl. tauto.
Defined.

(** ** Views *)

Lemma find_filter {A : Type} (p q : A -> bool) (l : list A) :
  (forall x, p x = true -> q x = true) ->
  List.find p (List.filter q l) = List.find p l.
Proof.
  intros Hpq. induction l as [|a l IH]; simpl; [reflexivity|].
  destruct (q a) eqn:Eq; simpl.
  - destruct (p a); [reflexivity | exact IH].
  - destruct (p a) eqn:Ep; [|exact IH].
    rewrite (Hpq a Ep) in Eq. discriminate.
Qed.

Lemma find_id_In (vs : list ViewCfg) (i : jsstring) (v : ViewCfg) :
  List.find (fun v => str_eqb (view_id v) i) vs = Some v ->
  In v vs /\ view_id v = i.
Proof.
  intros H. apply find_some in H as [H1 H2]. now apply str_eqb_eq in H2.
Qed.

Lemma find_id_None (vs : list ViewCfg) (i : jsstring) :
  List.find (fun v => str_eqb (view_id v) i) vs = None <->
  ~ In i (List.map view_id vs).
Proof.
  induction vs as [|v vs IH]; simpl; [tauto|].
  destruct (str_eqb (view_id v) i) eqn:E.
  - apply str_eqb_eq in E. split; [discriminate | tauto].
  - rewrite IH. split; [|tauto].
    intros H [H1|H1]; [|contradiction].
    rewrite H1, str_eqb_refl in E. discriminate.
Qed.

Lemma find_id_NoDup (vs : list ViewCfg) (v : ViewCfg) :
  NoDup (List.map view_id vs) -> In v vs ->
  List.find (fun w => str_eqb (view_id w) (view_id v)) vs = Some v.
Proof.
  induction vs as [|w vs IH]; simpl; [tauto|].
  intros Hnd [->|Hin].
  - now rewrite str_eqb_refl.
  - inversion Hnd as [|? ? Hw Hr]; subst.
    destruct (str_eqb (view_id w) (view_id v)) eqn:E; [|now apply IH].
    apply str_eqb_eq in E. exfalso. apply Hw. rewrite E. now apply in_map.
Qed.

(** [getActiveViewCfg] returns a view of the list whenever there is
    one: the first view with the active id, and the first view of the list
    when no view has the active id or no id is active.  Without views it
    returns [undefined] when an id is active and throws otherwise. *)
Theorem getActiveViewCfg_spec :
  forall settings : MagiofilesSettings,
    match views settings with
    | [] =>
        getActiveViewCfg settings =
        match activeViewId settings with
        | Some _ => Some None
        | None => None
        end
    | v0 :: _ =>
        exists v,
          getActiveViewCfg settings = Some (Some v) /\
          In v (views settings) /\
          match activeViewId settings with
          | Some a =>
              (In a (List.map view_id (views settings)) -> view_id v = a) /\
              (~ In a (List.map view_id (views settings)) -> v = v0)
          | None => v = v0
          end
    end.
Proof.
  intros [vs act sm fi sc]. unfold getActiveViewCfg. simpl.
  destruct vs as [|v0 vs].
  - now destruct act.
  - destruct act as [a|]; cbn [bind].
    + destruct (List.find (fun v => str_eqb (view_id v) a) (v0 :: vs))
        as [v|] eqn:E.
      * apply find_id_In in E as [Hin Hid]. exists v.
        split; [reflexivity|]. split; [assumption|]. split; [auto|].
        intros Hn. exfalso. apply Hn. rewrite <- Hid. now apply in_map.
      * exists v0. split; [reflexivity|]. split; [now left|]. split; [|auto].
        intros Hin. now apply find_id_None in E.
    + exists v0. simpl. rewrite str_eqb_refl.
      split; [reflexivity|]. split; [now left | reflexivity].
Qed.

(** After a view of the list is chosen in the views menu,
    [getActiveViewCfg] returns that view, provided the ids of the views
    are pairwise distinct. *)
Theorem selectView_getActiveViewCfg :
  forall (settings : MagiofilesSettings) (v : ViewCfg),
    NoDup (List.map view_id (views settings)) ->
    In v (views settings) ->
    getActiveViewCfg (selectView settings (view_id v)) = Some (Some v).
Proof.
  intros settings v Hnd Hin. unfold getActiveViewCfg, selectView. simpl.
  now rewrite (find_id_NoDup _ _ Hnd Hin).
Qed.

(** [selectView_getActiveViewCfg] for the second of two views. *)
Lemma selectView_getActiveViewCfg_witness :
  getActiveViewCfg
    (selectView settingsTwo
       (view_id (mkViewCfg (js "view-1") (js "Work") []))) =
  Some (Some (mkViewCfg (js "view-1") (js "Work") [])).
Proof.
  apply (selectView_getActiveViewCfg settingsTwo
           (mkViewCfg (js "view-1") (js "Work") [])).
  - simpl. distinct.
  - right. now left.
Defined.

Lemma js_inj (a b : String.string) : js a = js b -> a = b.
Proof.
  unfold js. revert b. induction a as [|x a IH]; intros [|y b]; simpl;
    try discriminate; [reflexivity|].
  intros H. injection H as Hxy Hab. f_equal; [|now apply IH].
  rewrite <- (ascii_N_embedding x), <- (ascii_N_embedding y). now rewrite Hxy.
Qed.

Lemma N_to_uint_nonnil (n : N) : N.to_uint n <> Decimal.Nil.
Proof.
  destruct n as [|p]; [discriminate|]. apply DecimalPos.Unsigned.to_uint_nonnil.
Qed.

(** The ids of added views: two views added at different times have
    different ids, and the id of an added view is never the id
    ["default"] of the view of [DEFAULT_SETTINGS]. *)
Theorem newViewId_distinct :
  forall a b : N,
    (newViewId a = newViewId b -> a = b) /\
    newViewId a <> js "default".
Proof.
  intros a b. unfold newViewId. split.
  - intros H. apply app_inv_head in H. unfold numberToString in H.
    apply js_inj in H.
    apply (f_equal DecimalString.NilZero.uint_of_string) in H.
    rewrite !DecimalString.NilZero.usu in H by apply N_to_uint_nonnil.
    injection H as H.
    rewrite <- (DecimalN.Unsigned.of_to a), <- (DecimalN.Unsigned.of_to b).
    now rewrite H.
  - discriminate.
Qed.

(** The "+ Add View" handler changes nothing when the prompt is
    cancelled or the name is empty after trimming.  Otherwise it appends
    one view, with the trimmed name, the levels of the active view and the
    id [newViewId now], leaves the other views and the active id as they
    are, and keeps the ids pairwise distinct when the new id is not in
    use. *)
Theorem addViewBtn_onclick_spec :
  forall (settings : MagiofilesSettings) (cfg : ViewCfg)
         (name : option jsstring) (now : N),
    match addViewBtn_onclick settings cfg name now with
    | None =>
        match name with
        | Some nm => trim nm = []
        | None => True
        end
    | Some s' =>
        exists nm,
          name = Some nm /\ trim nm <> [] /\
          views s' =
          views settings ++
          [mkViewCfg (newViewId now) (trim nm) (view_levels cfg)] /\
          activeViewId s' = activeViewId settings /\
          (NoDup (List.map view_id (views settings)) ->
           ~ In (newViewId now) (List.map view_id (views settings)) ->
           NoDup (List.map view_id (views s')))
    end.
Proof.
  intros settings cfg name now. unfold addViewBtn_onclick.
  destruct name as [nm|]; [|exact I].
  destruct (nonEmpty nm) eqn:E1; simpl.
  - destruct (nonEmpty (trim nm)) eqn:E2.
    + exists nm. apply nonEmpty_true in E2.
      split; [reflexivity|]. split; [assumption|]. split; [reflexivity|].
      split; [reflexivity|]. simpl. intros Hnd Hfresh.
      rewrite map_app. simpl. now apply NoDup_snoc.
    + now apply nonEmpty_false.
  - apply nonEmpty_false in E1. now subst nm.
Qed.

Lemma filter_keep_all {A : Type} (p : A -> bool) (l : list A) :
  (forall x, In x l -> p x = true) -> List.filter p l = l.
Proof.
  induction l as [|a l IH]; intros H; simpl; [reflexivity|].
  rewrite (H a (or_introl eq_refl)). f_equal. apply IH.
  intros x Hx. apply H. now right.
Qed.

(** Adding a view and deleting it again gives back the settings, when
    the new id is not in use and is not the active id. *)
Theorem addViewBtn_delBtn_roundtrip :
  forall (settings s' : MagiofilesSettings) (cfg : ViewCfg)
         (name : option jsstring) (now : N),
    views settings <> [] ->
    ~ In (newViewId now) (List.map view_id (views settings)) ->
    activeViewId settings <> Some (newViewId now) ->
    addViewBtn_onclick settings cfg name now = Some s' ->
    exists added,
      views s' = views settings ++ [added] /\
      delBtn_onclick s' added = Some (Saved settings).
Proof.
  intros [vs act sm fi sc] s' cfg name now Hne Hfresh Hact Hadd.
  simpl in *. unfold addViewBtn_onclick in Hadd.
  destruct name as [nm|]; [|discriminate].
  destruct (nonEmpty nm && nonEmpty (trim nm)); [|discriminate].
  injection Hadd as <-. simpl.
  set (added := mkViewCfg (newViewId now) (trim nm) (view_levels cfg)).
  exists added. split; [reflexivity|].
  unfold delBtn_onclick. simpl.
  assert (Hlen : (List.length (vs ++ [added]) =? 1)%nat = false).
  { apply Nat.eqb_neq. rewrite length_app. simpl.
    destruct vs; [congruence | simpl; lia]. }
  rewrite Hlen.
  assert (Hf : List.filter
                 (fun v => negb (str_eqb (view_id v) (newViewId now)))
                 (vs ++ [added]) = vs).
  { rewrite filter_app. simpl. rewrite str_eqb_refl. simpl.
    rewrite app_nil_r. apply filter_keep_all. intros v Hv.
    destruct (str_eqb (view_id v) (newViewId now)) eqn:E; [|reflexivity].
    apply str_eqb_eq in E. exfalso. apply Hfresh. rewrite <- E.
    now apply in_map. }
  rewrite Hf.
  assert (Ha : activeIs act (newViewId now) = false).
  { destruct act as [a|]; [|reflexivity]. simpl.
    destruct (str_eqb a (newViewId now)) eqn:E; [|reflexivity].
    apply str_eqb_eq in E. congruence. }
  now rewrite Ha.
Qed.

(** [addViewBtn_delBtn_roundtrip] for the default settings. *)
Lemma addViewBtn_delBtn_roundtrip_witness :
  exists added,
    views (mkSettings
             (views DEFAULT_SETTINGS ++
              [mkViewCfg (newViewId 1700000000000) (js "Work") []])
             (Some (js "default")) Alpha true true) =
    views DEFAULT_SETTINGS ++ [added] /\
    delBtn_onclick
      (mkSettings
         (views DEFAULT_SETTINGS ++
          [mkViewCfg (newViewId 1700000000000) (js "Work") []])
         (Some (js "default")) Alpha true true) added =
    Some (Saved DEFAULT_SETTINGS).
Proof.
  apply (addViewBtn_delBtn_roundtrip DEFAULT_SETTINGS _
           (mkViewCfg (js "default") (js "Default") [])
           (Some (js " Work ")) 1700000000000).
  - discriminate.
  - intros [H|[]]. discriminate H.
  - intros H. discriminate H.
  - reflexivity.
Defined.

Lemma find_id_head (v0 : ViewCfg) (vs : list ViewCfg) :
  List.find (fun v => str_eqb (view_id v) (view_id v0)) (v0 :: vs) = Some v0.
Proof. simpl. now rewrite str_eqb_refl. Qed.

(** After a view is deleted, [getActiveViewCfg] still returns a view of
    the list: the view that was active when another view was deleted, and
    the first view that is left when the active view was deleted.  (The
    ids of the views are pairwise distinct.) *)
Theorem delBtn_onclick_active :
  forall (settings s' : MagiofilesSettings) (view a : ViewCfg),
    NoDup (List.map view_id (views settings)) ->
    delBtn_onclick settings view = Some (Saved s') ->
    getActiveViewCfg settings = Some (Some a) ->
    exists a',
      getActiveViewCfg s' = Some (Some a') /\
      In a' (views s') /\
      (view_id a <> view_id view -> a' = a) /\
      (view_id a = view_id view -> hd_error (views s') = Some a').
Proof.
  intros [vs act sm fi sc] s' view a Hnd Hdel Hget. simpl in Hnd.
  unfold delBtn_onclick in Hdel. simpl in Hdel.
  destruct (List.length vs =? 1)%nat eqn:El; [discriminate|].
  apply Nat.eqb_neq in El.
  set (q := fun v => negb (str_eqb (view_id v) (view_id view))) in *.
  destruct vs as [|v0 vs].
  { unfold getActiveViewCfg in Hget. simpl in Hget. now destruct act. }
  assert (Hlen : (2 <= List.length (v0 :: vs))%nat)
    by (destruct vs; simpl in *; [congruence | lia]).
  pose proof (filter_other_ids_nonempty _ (view_id view) Hnd Hlen) as Hne.
  fold q in Hne.
  destruct (List.filter q (v0 :: vs)) as [|v0' rest] eqn:Ef; [congruence|].
  assert (Hin0 : In v0' (v0' :: rest)) by now left.
  assert (Hkeep : view_id v0 <> view_id view -> v0' = v0).
  { intros Hv. simpl in Ef. unfold q at 1 in Ef.
    destruct (str_eqb (view_id v0) (view_id view)) eqn:E.
    - now apply str_eqb_eq in E.
    - simpl in Ef. now injection Ef as <-. }
  unfold getActiveViewCfg in Hget. cbn [views activeViewId] in Hget.
  destruct (activeIs act (view_id view)) eqn:Ea.
  - (* the active id is the id of the deleted view *)
    injection Hdel as <-. exists v0'.
    unfold getActiveViewCfg. cbn [views activeViewId bind].
    rewrite find_id_head.
    split; [reflexivity|]. split; [assumption|]. split; [|reflexivity].
    destruct act as [x|]; [|discriminate]. simpl in Ea.
    apply str_eqb_eq in Ea. subst x. cbn [bind] in Hget.
    destruct (List.find (fun v => str_eqb (view_id v) (view_id view)) (v0 :: vs))
      as [a0|] eqn:E.
    + injection Hget as <-. apply find_id_In in E as [_ E]. congruence.
    + injection Hget as <-. intros _. apply Hkeep.
      apply find_id_None in E. intros Hv. apply E. left. exact Hv.
  - (* another id is active, or none *)
    injection Hdel as <-. unfold getActiveViewCfg. cbn [views activeViewId].
    destruct act as [x|]; cbn [bind] in *.
    + assert (Hx : x <> view_id view).
      { intros ->. simpl in Ea. rewrite str_eqb_refl in Ea. discriminate. }
      assert (Hfind : List.find (fun v => str_eqb (view_id v) x) (v0' :: rest) =
                      List.find (fun v => str_eqb (view_id v) x) (v0 :: vs)).
      { rewrite <- Ef. apply find_filter. intros v Hv.
        apply str_eqb_eq in Hv. unfold q.
        destruct (str_eqb (view_id v) (view_id view)) eqn:E; [|reflexivity].
        apply str_eqb_eq in E. congruence. }
      rewrite Hfind.
      destruct (List.find (fun v => str_eqb (view_id v) x) (v0 :: vs))
        as [a0|] eqn:E.
      * injection Hget as <-. exists a0.
        apply find_id_In in E as [Hin Hid].
        split; [reflexivity|]. split; [|split; [reflexivity | congruence]].
        rewrite <- Ef. apply filter_In. split; [assumption|]. unfold q.
        destruct (str_eqb (view_id a0) (view_id view)) eqn:E'; [|reflexivity].
        apply str_eqb_eq in E'. congruence.
      * injection Hget as <-. exists v0'.
        split; [reflexivity|]. split; [assumption|].
        split; [intros H; now apply Hkeep | reflexivity].
    + rewrite find_id_head in Hget. injection Hget as <-.
      rewrite find_id_head. exists v0'.
      split; [reflexivity|]. split; [assumption|].
      split; [intros H; now apply Hkeep | reflexivity].
Qed.

(** [delBtn_onclick_active] for the active view of two. *)
Lemma delBtn_onclick_active_witness :
  exists a',
    getActiveViewCfg
      (mkSettings [mkViewCfg (js "view-1") (js "Work") []]
                  (Some (js "view-1")) Alpha true true) = Some (Some a') /\
    In a' [mkViewCfg (js "view-1") (js "Work") []] /\
    (js "default" <> js "default" ->
     a' = mkViewCfg (js "default") (js "Default") []) /\
    (js "default" = js "default" ->
     hd_error [mkViewCfg (js "view-1") (js "Work") []] = Some a').
Proof.
  apply (delBtn_onclick_active settingsTwo
           (mkSettings [mkViewCfg (js "view-1") (js "Work") []]
                       (Some (js "view-1")) Alpha true true)
           (mkViewCfg (js "default") (js "Default") [])
           (mkViewCfg (js "default") (js "Default") [])).
  - simpl. distinct.
  - reflexivity.
  - reflexivity.
Defined.

(** ** More on one level applied to a node that holds files *)

Lemma set_add_nonempty {A : Type} (dec : forall a b : A, {a = b} + {a <> b})
  (s : list A) (x : A) : set_add dec s x <> [].
Proof.
  intros H. assert (Hin : In x (set_add dec s x)) by (apply In_set_add; now right).
  rewrite H in Hin. destruct Hin.
Qed.

Lemma addToBucket_nonempty (ch ch' : list (jsstring * GroupNode)) (k : jsstring)
  (lv : Z) (f : TFile) :
  Forall (fun kc => files_of (snd kc) <> []) ch ->
  addToBucket ch k lv f = Some ch' ->
  Forall (fun kc => files_of (snd kc) <> []) ch'.
Proof.
  intros Hall. unfold addToBucket.
  destruct (files _) as [fs|]; [|discriminate]. intros [= <-].
  apply (Forall_map_set (fun b => files_of b <> [])); [assumption|].
  unfold files_of, with_files. cbn [files]. apply set_add_nonempty.
Qed.

Section SplitMore.

Variable levelTags : list jsstring.
Variable fileTags : list (TFile * list jsstring).
Variable levelIdx : Z.

(** What both loops of a split keep of the children map, when adding a
    file to a bucket keeps it. *)
Variable P : list (jsstring * GroupNode) -> Prop.
Hypothesis P_add :
  forall ch k f ch', P ch -> addToBucket ch k levelIdx f = Some ch' -> P ch'.

Lemma splitLoop_keeps :
  forall (fs : list TFile) (ch ch' : list (jsstring * GroupNode))
         (rem rem' : list TFile),
    fold_left (splitStep levelTags fileTags levelIdx) fs (Some (ch, rem)) =
    Some (ch', rem') ->
    P ch -> P ch'.
Proof.
  induction fs as [|f fs IH]; intros ch ch' rem rem' Hfold HP.
  - simpl in Hfold. now injection Hfold as <- _.
  - cbn [fold_left] in Hfold.
    destruct (matchOf fileTags levelTags f) as [m|] eqn:Em.
    2:{ rewrite (splitStep_throws _ _ _ _ _ _ Em), splitLoop_None in Hfold.
        discriminate. }
    assert (Hm : matchOf fileTags levelTags f <> None) by congruence.
    destruct (byPattern fileTags levelTags f) eqn:Ep.
    + rewrite (splitStep_pattern _ _ _ _ _ _ Ep) in Hfold.
      destruct (addToBucket ch (bucketKey fileTags levelTags f) levelIdx f)
        as [c|] eqn:Hc.
      2:{ rewrite splitLoop_None in Hfold. discriminate. }
      apply (IH _ _ _ _ Hfold). now apply (P_add _ _ _ _ HP Hc).
    + rewrite (splitStep_remaining _ _ _ _ _ _ Ep Hm) in Hfold.
      now apply (IH _ _ _ _ Hfold).
Qed.

Lemma othersLoop_keeps :
  forall (rem : list TFile) (ch ch' : list (jsstring * GroupNode)),
    fold_left
      (fun acc f => c <- acc ;; addToBucket c (js "Others") levelIdx f)
      rem (Some ch) = Some ch' ->
    P ch -> P ch'.
Proof.
  induction rem as [|f rem IH]; intros ch ch' Hfold HP.
  - simpl in Hfold. now injection Hfold as <-.
  - cbn [fold_left bind] in Hfold.
    destruct (addToBucket ch (js "Others") levelIdx f) as [c|] eqn:Hc.
    2:{ rewrite othersLoop_None in Hfold. discriminate. }
    apply (IH _ _ Hfold). now apply (P_add _ _ _ _ HP Hc).
Qed.

Lemma splitNode_keeps (node node' : GroupNode) (fs : list TFile) :
  splitNode node fs levelTags fileTags levelIdx = Some node' ->
  P (children_of node) -> P (children_of node').
Proof.
  unfold splitNode. intros H HP.
  destruct (fold_left _ fs _) as [[ch1 rem1]|] eqn:E1; [|discriminate].
  cbn [bind fst snd] in H.
  destruct (fold_left _ rem1 _) as [ch2|] eqn:E2; [|discriminate].
  cbn [bind] in H. injection H as <-.
  unfold children_of at 1. simpl.
  apply (othersLoop_keeps _ _ _ E2). now apply (splitLoop_keeps _ _ _ _ _ E1).
Qed.

End SplitMore.

(** A split creates no bucket that stays empty. *)
Lemma splitNode_nonempty (node node' : GroupNode) (fs : list TFile)
  (levelTags : list jsstring) (fileTags : list (TFile * list jsstring))
  (levelIdx : Z) :
  splitNode node fs levelTags fileTags levelIdx = Some node' ->
  Forall (fun kc => files_of (snd kc) <> []) (children_of node) ->
  Forall (fun kc => files_of (snd kc) <> []) (children_of node').
Proof.
  apply (splitNode_keeps levelTags fileTags levelIdx
           (Forall (fun kc => files_of (snd kc) <> []))).
  intros ch k f ch' H1 H2. exact (addToBucket_nonempty _ _ _ _ _ H1 H2).
Qed.



(** ** A level without patterns *)

Lemma splitLoop_no_patterns (fileTags : list (TFile * list jsstring)) (levelIdx : Z) :
  forall (fs : list TFile) (ch : list (jsstring * GroupNode)) (rem : list TFile),
    fold_left (splitStep [] fileTags levelIdx) fs (Some (ch, rem)) =
    Some (ch, rem ++ fs).
Proof.
  induction fs as [|f fs IH]; intros ch rem.
  - simpl. now rewrite app_nil_r.
  - cbn [fold_left].
    assert (Hs : splitStep [] fileTags levelIdx (Some (ch, rem)) f =
                 Some (ch, rem ++ [f])).
    { unfold splitStep, matchOf. cbn [bind].
      now destruct (map_get TFile_eq_dec fileTags f). }
    rewrite Hs, IH, <- app_assoc. reflexivity.
Qed.

Lemma addToBucket_single (k : jsstring) (levelIdx : Z) (l : list TFile) (f : TFile) :
  ~ In f l ->
  addToBucket [(k, bucketOf k levelIdx l)] k levelIdx f =
  Some [(k, bucketOf k levelIdx (l ++ [f]))].
Proof.
  intros Hf. unfold addToBucket. cbn [map_get map_set].
  destruct (jsstring_eq_dec k k) as [_|Hne]; [|congruence].
  cbn [bucketOf files]. rewrite (set_add_notin _ _ _ Hf). reflexivity.
Qed.

Lemma othersLoop_single (k : jsstring) (levelIdx : Z) :
  forall (rem l : list TFile),
    NoDup (l ++ rem) ->
    fold_left (fun acc f => c <- acc ;; addToBucket c k levelIdx f)
              rem (Some [(k, bucketOf k levelIdx l)]) =
    Some [(k, bucketOf k levelIdx (l ++ rem))].
Proof.
  induction rem as [|f rem IH]; intros l Hnd.
  - simpl. now rewrite app_nil_r.
  - cbn [fold_left bind].
    rewrite addToBucket_single.
    + rewrite IH, <- app_assoc; [reflexivity|].
      now rewrite <- app_assoc.
    + apply NoDup_remove_2 in Hnd. rewrite app_nil_r in Hnd || idtac.
      intros Hin. apply Hnd. apply in_or_app. now left.
Qed.

(** A level whose pattern list is empty.  A node that holds files and has
    no children gets the one child ["Others"], which takes all the files of
    the node in their order; no tag set is read, so the split does not
    throw whatever [fileTags] holds. *)
Theorem propagateLevel_no_patterns :
  forall (node : GroupNode) (fs : list TFile)
         (fileTags : list (TFile * list jsstring)) (levelIdx : Z),
    files node = Some fs ->
    fs <> [] ->
    children_of node = [] ->
    NoDup fs ->
    propagateLevel node [] fileTags levelIdx =
    Some (mkGroupNode (name node) (level node)
            (Some [(js "Others", bucketOf (js "Others") levelIdx fs)])
            (Some [])).
Proof.
  intros node fs fileTags levelIdx Hfs Hne Hleaf Hnd.
  rewrite (propagateLevel_rec_eq _ _ _ _ (distinctKeys_leaf _ Hleaf)).
  rewrite (propagateLevel_split _ _ _ _ _ Hfs Hne).
  unfold splitNode. rewrite splitLoop_no_patterns, Hleaf. cbn [bind fst snd app].
  destruct fs as [|f r]; [congruence|].
  cbn [fold_left bind].
  assert (H1 : addToBucket [] (js "Others") levelIdx f =
               Some [(js "Others", bucketOf (js "Others") levelIdx [f])])
    by reflexivity.
  rewrite H1. rewrite (othersLoop_single (js "Others") levelIdx r [f] Hnd).
  reflexivity.
Qed.

(** [propagateLevel_no_patterns] for two files and a tag map without
    entries. *)
Lemma propagateLevel_no_patterns_witness :
  propagateLevel nodeAB [] [] 0 =
  Some (mkGroupNode (name nodeAB) (level nodeAB)
          (Some [(js "Others", bucketOf (js "Others") 0 [fileA; fileB])])
          (Some [])).
Proof.
  apply (propagateLevel_no_patterns nodeAB [fileA; fileB] [] 0).
  - reflexivity.
  - discriminate.
  - reflexivity.
  - distinct.
Defined.

(** ** The shape of the two trees *)

Lemma visitChildren_Forall2 (g : GroupNode -> option GroupNode) :
  forall (l l' : list (jsstring * GroupNode)),
    visitChildren g l = Some l' ->
    Forall2 (fun kc kc' => fst kc' = fst kc /\ g (snd kc) = Some (snd kc')) l l'.
Proof.
  induction l as [|kc t IH]; intros l' H; simpl in H.
  - injection H as <-. constructor.
  - destruct (g (snd kc)) as [c'|] eqn:Ec; [|discriminate]. cbn [bind] in H.
    destruct (visitChildren g t) as [t'|]; [|discriminate]. cbn [bind] in H.
    injection H as <-. constructor; [now split | now apply IH].
Qed.

Lemma Forall2_Forall {A B : Type} (R : A -> B -> Prop) (Q : B -> Prop) :
  forall (l : list A) (l' : list B),
    Forall2 R l l' ->
    (forall x y, In x l -> R x y -> Q y) ->
    Forall Q l'.
Proof.
  intros l l' H. induction H as [|x y l l' Hxy _ IH]; intros HQ; constructor.
  - apply (HQ x y); [now left | assumption].
  - apply IH. intros x' y' Hin. apply HQ. now right.
Qed.

Lemma childrenFiles_nil (l : list (jsstring * GroupNode)) :
  childrenFiles l = [] <-> Forall (fun kc => treeFiles (snd kc) = []) l.
Proof.
  induction l as [|kc t IH].
  - split; [constructor | reflexivity].
  - rewrite childrenFiles_cons. split.
    + intros H. apply app_eq_nil in H as [H1 H2]. constructor; [assumption|].
      now apply IH.
    + intros H. inversion H as [|? ? H1 H2]; subst.
      rewrite H1. simpl. now apply IH.
Qed.

Lemma In_childrenFiles (l : list (jsstring * GroupNode)) (k : jsstring)
  (c : GroupNode) :
  In (k, c) l ->
  exists X Y, childrenFiles l = X ++ treeFiles c ++ Y.
Proof.
  intros H. apply in_split in H as (l1 & l2 & ->).
  exists (childrenFiles l1), (childrenFiles l2).
  now rewrite childrenFiles_app, childrenFiles_cons.
Qed.

Lemma tagTreeInv_child (fileTags : list (TFile * list jsstring)) (n : GroupNode)
  (k : jsstring) (c : GroupNode) :
  tagTreeInv fileTags n -> In (k, c) (children_of n) -> tagTreeInv fileTags c.
Proof.
  intros (Hh & Ht & Hd & Hnd & Hcov) Hin.
  destruct (In_childrenFiles _ _ _ Hin) as (X & Y & HXY).
  rewrite treeFiles_unfold, HXY in Hnd, Hcov.
  pose proof (fun P (H : allNodes P n) =>
                proj1 (Forall_forall _ _) (allNodes_children P n H) _ Hin) as Hc.
  split; [exact (Hc _ Hh)|]. split; [exact (Hc _ Ht)|]. split; [exact (Hc _ Hd)|].
  split.
  - apply NoDup_app_remove_l, NoDup_app_remove_l, NoDup_app_remove_r in Hnd.
    exact Hnd.
  - intros f Hf. apply Hcov. apply in_or_app. right. apply in_or_app. right.
    apply in_or_app. now left.
Qed.

(** A subtree without files holds its files at every depth. *)
Lemma empty_heldAtDepth (d : nat) :
  forall n, treeFiles n = [] -> heldAtDepth d n.
Proof.
  induction d as [|d IH]; intros n H; rewrite treeFiles_unfold in H;
    apply app_eq_nil in H as [Hf Hc]; [exact Hc|].
  split; [assumption|]. apply childrenFiles_nil in Hc.
  apply (Forall_impl _ (fun kc => IH (snd kc)) Hc).
Qed.

Lemma populated_unfold (n : GroupNode) :
  populated n <->
  Forall (fun kc => treeFiles (snd kc) <> []) (children_of n) /\
  Forall (fun kc => populated (snd kc)) (children_of n).
Proof. apply allNodes_unfold. Qed.

Lemma populated_leaf (n : GroupNode) : children_of n = [] -> populated n.
Proof. intros H. apply populated_unfold. rewrite H. split; constructor. Qed.

Section LevelShape.

Variable levelTags : list jsstring.
Variable fileTags : list (TFile * list jsstring).
Variable levelIdx : Z.

(** One level moves every file one level down and leaves no child
    without files. *)
Lemma propagateLevel_rec_shape :
  forall n n',
    tagTreeInv fileTags n ->
    propagateLevel_rec n levelTags fileTags levelIdx = Some n' ->
    (forall d, heldAtDepth d n -> heldAtDepth (S d) n') /\
    (populated n -> populated n').
Proof.
  induction n as [nm lv ch fs IH] using GroupNode_ind.
  intros n' Hinv Hrec.
  assert (Hvisit : forall l l',
             ch = Some l -> (fs = Some [] \/ fs = None) ->
             visitChildren
               (fun c => propagateLevel_rec c levelTags fileTags levelIdx) l =
             Some l' ->
             (forall d, heldAtDepth d (mkGroupNode nm lv ch fs) ->
                        heldAtDepth (S d) (mkGroupNode nm lv (Some l') fs)) /\
             (populated (mkGroupNode nm lv ch fs) ->
              populated (mkGroupNode nm lv (Some l') fs))).
  { intros l l' -> Hfs Hv.
    apply visitChildren_Forall2 in Hv.
    rewrite Forall_forall in IH.
    assert (Hpair : forall kc kc',
               In kc l ->
               fst kc' = fst kc /\
               propagateLevel_rec (snd kc) levelTags fileTags levelIdx =
               Some (snd kc') ->
               ((forall d, heldAtDepth d (snd kc) -> heldAtDepth (S d) (snd kc')) /\
                (populated (snd kc) -> populated (snd kc'))) /\
               Permutation (treeFiles (snd kc')) (treeFiles (snd kc))).
    { intros [k c] [k' c'] Hin [_ Hc]. simpl in *.
      assert (Hci : tagTreeInv fileTags c)
        by (apply (tagTreeInv_child _ _ k c Hinv); exact Hin).
      split; [now apply IH with (x := (k, c))|].
      exact (proj2 (propagateLevel_inv _ _ _ _ _ Hci Hc)). }
    split.
    - intros d Hd. split.
      { destruct Hfs as [->| ->]; reflexivity. }
      change (children_of (mkGroupNode nm lv (Some l') fs)) with l'.
      destruct d as [|d].
      + change (childrenFiles l = []) in Hd. apply childrenFiles_nil in Hd.
        rewrite Forall_forall in Hd.
        apply (Forall2_Forall _ _ _ _ Hv). intros kc kc' Hin HR.
        apply (empty_heldAtDepth 0).
        destruct (Hpair _ _ Hin HR) as [_ Hp]. rewrite (Hd _ Hin) in Hp.
        now apply Permutation_nil.
      + destruct Hd as [_ Hd]. change (Forall (fun kc => heldAtDepth d (snd kc)) l) in Hd.
        rewrite Forall_forall in Hd.
        apply (Forall2_Forall _ _ _ _ Hv). intros kc kc' Hin HR.
        apply (proj1 (proj1 (Hpair _ _ Hin HR))). now apply Hd.
    - intros Hpop. apply populated_unfold in Hpop as [H1 H2].
      change (children_of (mkGroupNode nm lv (Some l) fs)) with l in H1, H2.
      rewrite Forall_forall in H1, H2.
      apply populated_unfold.
      change (children_of (mkGroupNode nm lv (Some l') fs)) with l'.
      split; apply (Forall2_Forall _ _ _ _ Hv); intros kc kc' Hin HR.
      + destruct (Hpair _ _ Hin HR) as [_ Hp]. intros Hnil.
        rewrite Hnil in Hp. apply Permutation_nil in Hp.
        now apply (H1 _ Hin).
      + apply (proj2 (proj1 (Hpair _ _ Hin HR))). now apply H2. }
  destruct fs as [[|f r]|].
  - destruct ch as [l|].
    + simpl in Hrec.
      destruct (visitChildren _ l) as [l'|] eqn:Ev; [|discriminate].
      cbn [bind] in Hrec. injection Hrec as <-.
      apply (Hvisit l l' eq_refl (or_introl eq_refl) Ev).
    + simpl in Hrec. injection Hrec as <-. split; [|trivial].
      intros d _. split; [reflexivity | constructor].
  - destruct Hinv as (_ & Ht & _ & Hnd & Hcov).
    assert (Hleaf : children_of (mkGroupNode nm lv ch (Some (f :: r))) = []).
    { apply allNodes_here in Ht. unfold terminalBucket in Ht.
      destruct (children_of (mkGroupNode nm lv ch (Some (f :: r)))) eqn:E;
        [reflexivity|].
      assert (Hf : files_of (mkGroupNode nm lv ch (Some (f :: r))) = [])
        by (apply Ht; discriminate).
      discriminate Hf. }
    rewrite treeFiles_unfold, Hleaf in Hnd, Hcov.
    change (files_of (mkGroupNode nm lv ch (Some (f :: r)))) with (f :: r)
      in Hnd, Hcov.
    unfold childrenFiles in Hnd, Hcov. cbn [flat_map] in Hnd, Hcov.
    rewrite app_nil_r in Hnd, Hcov.
    assert (Hrec' : splitNode (mkGroupNode nm lv ch (Some (f :: r))) (f :: r)
                      levelTags fileTags levelIdx = Some n')
      by exact Hrec.
    destruct (splitNode_buckets levelTags fileTags levelIdx _ (f :: r) Hleaf Hnd)
      as (m & Hm & Hf' & _ & Hleaves & _ & _).
    { intros g Hg. now apply matchOf_covered, Hcov. }
    rewrite Hm in Hrec'. injection Hrec' as ->.
    pose proof (splitNode_nonempty _ _ _ _ _ _ Hm) as Hne.
    rewrite Hleaf in Hne. specialize (Hne (Forall_nil _)).
    split.
    + intros [|d] Hd.
      * split; [unfold files_of; now rewrite Hf'|].
        apply (Forall_impl _ (P := fun kc => leafBucket (snd kc))); [|assumption].
        intros kc [_ Hc]. simpl. now rewrite Hc.
      * destruct Hd as [Hd _]. discriminate Hd.
    + intros _. apply populated_unfold. split.
      * apply (Forall_impl _ (P := fun kc => files_of (snd kc) <> []));
          [|assumption].
        intros kc Hkc. rewrite treeFiles_unfold. intros H.
        apply app_eq_nil in H. now apply Hkc.
      * apply (Forall_impl _ (P := fun kc => leafBucket (snd kc))); [|assumption].
        intros kc [_ Hc]. now apply populated_leaf.
  - destruct ch as [l|].
    + simpl in Hrec.
      destruct (visitChildren _ l) as [l'|] eqn:Ev; [|discriminate].
      cbn [bind] in Hrec. injection Hrec as <-.
      apply (Hvisit l l' eq_refl (or_intror eq_refl) Ev).
    + simpl in Hrec. injection Hrec as <-. split; [|trivial].
      intros d _. split; [reflexivity | constructor].
Qed.

End LevelShape.

Lemma applyLevels_shape (fileTags : list (TFile * list jsstring)) :
  forall (lvls : list Level) (lv : Z) (n n' : GroupNode) (d : nat),
    tagTreeInv fileTags n ->
    applyLevels lvls lv fileTags n = Some n' ->
    (heldAtDepth d n -> heldAtDepth (d + length lvls) n') /\
    (populated n -> populated n').
Proof.
  induction lvls as [|l lvls IH]; intros lv n n' d Hinv H.
  - simpl in H. injection H as <-. rewrite Nat.add_0_r. tauto.
  - simpl in H.
    rewrite propagateLevel_rec_eq in H by apply Hinv.
    destruct (propagateLevel_rec n (level_tags l) fileTags lv) as [m|] eqn:Em;
      [|discriminate].
    cbn [bind] in H.
    destruct (propagateLevel_inv _ _ _ _ _ Hinv Em) as [Hm _].
    destruct (propagateLevel_rec_shape _ _ _ _ _ Hinv Em) as [Hd Hp].
    destruct (IH _ _ _ (S d) Hm H) as [Hd' Hp'].
    split.
    + intros H0. replace (d + length (l :: lvls))%nat with (S d + length lvls)%nat
        by (simpl; lia).
      apply Hd', Hd, H0.
    + intros H0. apply Hp', Hp, H0.
Qed.

(** The root that [renderTree] starts the By-Tags tree with. *)
Lemma tagsRoot_inv (app : App) (mdFiles : list TFile) (lvls : list Level) :
  tagTreeInv (buildFileTags app mdFiles)
    (mkGroupNode (js "root") (-1) (Some [])
       (Some (buildMatched (buildFileTags app mdFiles) lvls mdFiles))).
Proof.
  destruct (buildMatched_spec (buildFileTags app mdFiles) lvls mdFiles)
    as [Hnd Hm].
  split; [|split; [|split; [|split]]].
  - apply allNodes_leaf; [reflexivity | discriminate].
  - apply allNodes_leaf; [reflexivity | intros H; now contradiction H].
  - apply allNodes_leaf; [reflexivity | constructor].
  - simpl. now rewrite app_nil_r.
  - simpl. rewrite app_nil_r. intros f Hf.
    apply buildFileTags_covers. now apply Hm.
Qed.

Lemma with_files_populated (n : GroupNode) (fs : list TFile) :
  populated n -> populated (with_files n fs).
Proof.
  intros H. apply populated_unfold in H. apply populated_unfold.
  now rewrite children_of_with_files.
Qed.

Lemma addAlong_populated (parts : list jsstring) (f : TFile) :
  forall n, populated n -> populated (addAlong n parts f).
Proof.
  induction parts as [|k rest IH]; intros n Hn; cbn [addAlong].
  - now apply with_files_populated.
  - apply populated_unfold in Hn as [H1 H2].
    apply populated_unfold. rewrite children_of_with_children.
    assert (Hnext : populated
                      match map_get jsstring_eq_dec (children_of n) k with
                      | Some c => c
                      | None => mkGroupNode k (level n + 1) (Some []) (Some [])
                      end).
    { destruct (map_get jsstring_eq_dec (children_of n) k) as [c|] eqn:E.
      - apply (map_get_In jsstring_eq_dec) in E.
        rewrite Forall_forall in H2. exact (H2 _ E).
      - now apply populated_leaf. }
    split.
    + apply (Forall_map_set (fun b => treeFiles b <> [])); [assumption|].
      intros Hnil.
      pose proof (atPath_In _ _ _ (atPath_addAlong rest f
                    match map_get jsstring_eq_dec (children_of n) k with
                    | Some c => c
                    | None => mkGroupNode k (level n + 1) (Some []) (Some [])
                    end)) as Hin.
      rewrite Hnil in Hin. destruct Hin.
    + apply (Forall_map_set populated); [assumption|]. now apply IH.
Qed.

Lemma buildFolderTree_populated (matched allFiles : list TFile) :
  populated (buildFolderTree matched allFiles).
Proof.
  unfold buildFolderTree.
  assert (Hgen : forall l root,
             populated root ->
             populated (fold_left
                          (fun folderRoot f =>
                             if set_has TFile_eq_dec matched f then folderRoot
                             else addFileToFolderTree folderRoot (path f) f)
                          l root)).
  { induction l as [|f l IH]; intros root Hr; simpl; [assumption|].
    apply IH. destruct (set_has TFile_eq_dec matched f); [assumption|].
    now apply addAlong_populated. }
  apply Hgen. now apply populated_leaf.
Qed.

(** The depth of the By-Tags tree.  [renderTree] never throws, and in the
    By-Tags tree it builds every file is held by a node exactly as many
    levels below the root as the view has levels: with no level the root
    holds the matched files itself, with one or more levels the root and
    every node above that depth hold none. *)
Theorem renderTree_tags_depth :
  forall (app : App) (allFiles mdFiles : list TFile) (cfg : ViewCfg),
  exists r,
    renderTree app allFiles mdFiles cfg = Some r /\
    match r with
    | NoFiles => allFiles = []
    | Trees tagsRoot _ => heldAtDepth (length (view_levels cfg)) tagsRoot
    end.
Proof.
  intros app allFiles mdFiles cfg. unfold renderTree.
  destruct allFiles as [|a allFiles]; [now exists NoFiles|].
  cbv zeta.
  pose proof (tagsRoot_inv app mdFiles (view_levels cfg)) as Hinv.
  destruct (applyLevels_ok _ (view_levels cfg) 0 _ Hinv) as (t & Ht & _).
  rewrite Ht. cbn [bind]. eexists. split; [reflexivity|].
  apply (proj1 (applyLevels_shape _ _ _ _ _ 0%nat Hinv Ht)). reflexivity.
Qed.

(** No group is empty.  In both trees that [renderTree] builds, every
    node below the root has at least one file in its subtree: neither a
    level of the view nor a folder of the vault gives a group without
    files. *)
Theorem renderTree_populated :
  forall (app : App) (allFiles mdFiles : list TFile) (cfg : ViewCfg),
  exists r,
    renderTree app allFiles mdFiles cfg = Some r /\
    match r with
    | NoFiles => allFiles = []
    | Trees tagsRoot folderRoot => populated tagsRoot /\ populated folderRoot
    end.
Proof.
  intros app allFiles mdFiles cfg. unfold renderTree.
  destruct allFiles as [|a allFiles]; [now exists NoFiles|].
  cbv zeta.
  pose proof (tagsRoot_inv app mdFiles (view_levels cfg)) as Hinv.
  destruct (applyLevels_ok _ (view_levels cfg) 0 _ Hinv) as (t & Ht & _).
  rewrite Ht. cbn [bind]. eexists. split; [reflexivity|]. split.
  - apply (proj2 (applyLevels_shape _ _ _ _ _ 0%nat Hinv Ht)).
    now apply populated_leaf.
  - apply buildFolderTree_populated.
Qed.

(** ** Which file goes to which tree *)

Lemma buildFileTags_get (app : App) (mdFiles : list TFile) (f : TFile) :
  In f mdFiles ->
  map_get TFile_eq_dec (buildFileTags app mdFiles) f =
  Some (collectTagsForFile app f).
Proof.
  unfold buildFileTags.
  assert (Hgen : forall l m,
             In f l \/ map_get TFile_eq_dec m f = Some (collectTagsForFile app f) ->
             map_get TFile_eq_dec
               (fold_left (fun m f => map_set TFile_eq_dec m f (collectTagsForFile app f))
                          l m) f = Some (collectTagsForFile app f)).
  { induction l as [|g l IH]; intros m H; simpl.
    - destruct H as [[]|H]; assumption.
    - apply IH. destruct (TFile_eq_dec g f) as [->|Hne].
      + right. apply map_get_set_eq.
      + destruct H as [[Hg|H]|H]; [contradiction | now left | right].
        now rewrite map_get_set_ne. }
  intros H. apply Hgen. now left.
Qed.

Lemma matchesSomeLevel_md (app : App) (mdFiles : list TFile) (lvls : list Level)
  (f : TFile) :
  In f mdFiles ->
  matchesSomeLevel (buildFileTags app mdFiles) lvls f =
  existsb (fun lvl => truthy (tagMatchesAny (collectTagsForFile app f)
                                            (level_tags lvl))) lvls.
Proof.
  intros H. unfold matchesSomeLevel. now rewrite (buildFileTags_get _ _ _ H).
Qed.

(** Which tree a file goes to.  [renderTree] never throws; the By-Tags
    tree holds exactly the markdown files whose tags, as
    [collectTagsForFile] gives them, match a pattern of some level of the
    view with a result that is not the empty string, and the By-Folder
    tree holds exactly the other files of the vault. *)
Theorem renderTree_membership :
  forall (app : App) (allFiles mdFiles : list TFile) (cfg : ViewCfg),
  exists r,
    renderTree app allFiles mdFiles cfg = Some r /\
    match r with
    | NoFiles => allFiles = []
    | Trees tagsRoot folderRoot =>
        let matches f :=
          existsb (fun lvl => truthy (tagMatchesAny (collectTagsForFile app f)
                                                    (level_tags lvl)))
                  (view_levels cfg) in
        (forall f, In f (treeFiles tagsRoot) <->
                   In f mdFiles /\ matches f = true) /\
        (forall f, In f (treeFiles folderRoot) <->
                   In f allFiles /\ ~ (In f mdFiles /\ matches f = true))
    end.
Proof.
  intros app allFiles mdFiles cfg.
  destruct (renderTree_trees app allFiles mdFiles cfg) as (r & Hr & H).
  exists r. split; [assumption|].
  destruct r as [|t fo]; [assumption|].
  cbv zeta in H. destruct H as (_ & _ & _ & Hp & _ & _ & Hfm).
  destruct (buildMatched_spec (buildFileTags app mdFiles) (view_levels cfg) mdFiles)
    as [_ Hm].
  assert (Hin : forall f,
             In f (buildMatched (buildFileTags app mdFiles) (view_levels cfg) mdFiles) <->
             In f mdFiles /\
             existsb (fun lvl => truthy (tagMatchesAny (collectTagsForFile app f)
                                                       (level_tags lvl)))
                     (view_levels cfg) = true).
  { intros f. rewrite Hm. split; intros [H1 H2]; (split; [assumption|]).
    - now rewrite <- (matchesSomeLevel_md app mdFiles _ f H1).
    - now rewrite (matchesSomeLevel_md app mdFiles _ f H1). }
  cbv zeta. split.
  - intros f. rewrite <- Hin. split; intros Hf.
    + now apply (Permutation_in _ Hp).
    + now apply (Permutation_in _ (Permutation_sym Hp)).
  - intros f. rewrite Hfm, Hin. reflexivity.
Qed.

(** The root of the By-Tags tree holds no files.  The renderer shows the
    children of that root only, never its file set (lines 588-592), and no
    file is lost by that: after [renderTree] has built the tree, the file
    set of its root is empty, for every view, also one without levels. *)
Theorem renderTree_tags_root_empty :
  forall (app : App) (allFiles mdFiles : list TFile) (cfg : ViewCfg),
  exists r,
    renderTree app allFiles mdFiles cfg = Some r /\
    match r with
    | NoFiles => allFiles = []
    | Trees tagsRoot _ =>
        files_of tagsRoot = [] /\
        treeFiles tagsRoot = childrenFiles (children_of tagsRoot)
    end.
Proof.
  intros app allFiles mdFiles cfg. unfold renderTree.
  destruct allFiles as [|a allFiles]; [now exists NoFiles|].
  cbv zeta.
  pose proof (tagsRoot_inv app mdFiles (view_levels cfg)) as Hinv.
  destruct (applyLevels_ok _ (view_levels cfg) 0 _ Hinv) as (t & Ht & _).
  rewrite Ht. cbn [bind]. eexists. split; [reflexivity|].
  assert (Hf : files_of t = []).
  { destruct (view_levels cfg) as [|l lvls] eqn:El.
    - simpl in Ht. injection Ht as <-.
      destruct (buildMatched_spec (buildFileTags app mdFiles) [] mdFiles)
        as [_ Hm].
      change (buildMatched (buildFileTags app mdFiles) [] mdFiles = []).
      destruct (buildMatched (buildFileTags app mdFiles) [] mdFiles) as [|x m];
        [reflexivity|].
      destruct (proj1 (Hm x) (or_introl eq_refl)) as [_ Hx]. discriminate Hx.
    - pose proof (proj1 (applyLevels_shape _ _ _ _ _ 0%nat Hinv Ht) eq_refl) as Hd.
      simpl in Hd. exact (proj1 Hd). }
  split; [assumption|]. now rewrite treeFiles_unfold, Hf.
Qed.

(** ** The By-Folder tree mirrors the folders *)

Lemma removelast_length_pred {A : Type} (l : list A) :
  length (removelast l) = pred (length l).
Proof.
  induction l as [|x l IH]; [reflexivity|].
  destruct l as [|y l]; [reflexivity|].
  change (removelast (x :: y :: l)) with (x :: removelast (y :: l)).
  change (S (length (removelast (y :: l))) = S (length l)).
  now rewrite IH.
Qed.

Lemma folderParts_length (p : jsstring) :
  length (folderParts p) = count_occ N.eq_dec p 47%N.
Proof.
  unfold folderParts, pop. now rewrite removelast_length_pred, split_length.
Qed.

Lemma In_removelast {A : Type} (l : list A) (x : A) :
  In x (removelast l) -> In x l.
Proof.
  induction l as [|y l IH]; [intros []|].
  destruct l as [|z l]; [intros []|].
  change (removelast (y :: z :: l)) with (y :: removelast (z :: l)).
  intros [->|H]; [now left | right; now apply IH].
Qed.

Lemma buildFolderTree_inv (matched allFiles : list TFile) :
  folderTreeInv (buildFolderTree matched allFiles).
Proof.
  unfold buildFolderTree.
  assert (Hgen : forall l root,
             folderTreeInv root ->
             folderTreeInv (fold_left
                              (fun folderRoot f =>
                                 if set_has TFile_eq_dec matched f then folderRoot
                                 else addFileToFolderTree folderRoot (path f) f)
                              l root)).
  { induction l as [|f l IH]; intros root Hr; simpl; [assumption|].
    apply IH. destruct (set_has TFile_eq_dec matched f); [assumption|].
    now apply addFileToFolderTree_inv. }
  apply Hgen. split; [constructor | intros f []].
Qed.

(** The By-Folder tree mirrors the folders of the vault.  Every file of
    the By-Folder tree that [renderTree] builds is in the file set of the
    node reached from the root along the folder names of its path: the
    segments of [path.split("/")] but the last.  There is one such segment
    for every ["/"] of the path, and none of them contains a ["/"]; a file
    whose path has no ["/"] is held by the root itself. *)
Theorem renderTree_folder_paths :
  forall (app : App) (allFiles mdFiles : list TFile) (cfg : ViewCfg),
  exists r,
    renderTree app allFiles mdFiles cfg = Some r /\
    match r with
    | NoFiles => allFiles = []
    | Trees _ folderRoot =>
        forall f,
          In f (treeFiles folderRoot) ->
          atPath folderRoot (folderParts (path f)) f /\
          length (folderParts (path f)) = count_occ N.eq_dec (path f) 47%N /\
          (forall seg, In seg (folderParts (path f)) -> ~ In 47%N seg) /\
          (count_occ N.eq_dec (path f) 47%N = 0%nat -> In f (files_of folderRoot))
    end.
Proof.
  intros app allFiles mdFiles cfg. unfold renderTree.
  destruct allFiles as [|a allFiles]; [now exists NoFiles|].
  cbv zeta.
  pose proof (tagsRoot_inv app mdFiles (view_levels cfg)) as Hinv.
  destruct (applyLevels_ok _ (view_levels cfg) 0 _ Hinv) as (t & Ht & _).
  rewrite Ht. cbn [bind]. eexists. split; [reflexivity|].
  destruct (buildFolderTree_inv
              (buildMatched (buildFileTags app mdFiles) (view_levels cfg) mdFiles)
              (a :: allFiles)) as [_ Hat].
  intros f Hf. specialize (Hat f Hf).
  split; [assumption|]. split; [apply folderParts_length|]. split.
  - intros seg Hseg. apply In_removelast in Hseg.
    now apply (split_no_sep 47%N (path f)).
  - intros H0. pose proof (folderParts_length (path f)) as Hl.
    rewrite H0 in Hl. destruct (folderParts (path f)); [exact Hat | discriminate Hl].
Qed.

(** ** Tag suggestions *)

Lemma countTag_fold :
  forall (ts : list jsstring) (m : list (jsstring * Z)),
    NoDup (map_keys m) ->
    NoDup (map_keys (fold_left countTag ts m)) /\
    (forall k,
        match map_get jsstring_eq_dec (fold_left countTag ts m) k with
        | Some n =>
            n = ((match map_get jsstring_eq_dec m k with
                  | Some n0 => n0
                  | None => 0
                  end) + Z.of_nat (shownAs k ts))%Z /\
            (map_get jsstring_eq_dec m k = None -> shownAs k ts <> 0%nat)
        | None => map_get jsstring_eq_dec m k = None /\ shownAs k ts = 0%nat
        end).
Proof.
  induction ts as [|t ts IH]; intros m Hnd.
  - simpl. split; [assumption|]. intros k.
    destruct (map_get jsstring_eq_dec m k) as [n|]; [|now split].
    split; [unfold shownAs; simpl; lia | discriminate].
  - cbn [fold_left].
    assert (Hnd' : NoDup (map_keys (countTag m t)))
      by (unfold countTag; now apply NoDup_map_keys_set).
    destruct (IH _ Hnd') as [H1 H2]. split; [assumption|].
    intros k. specialize (H2 k).
    assert (Hs : shownAs k (t :: ts) =
                 ((if str_eqb (stripHash t) k then 1 else 0) + shownAs k ts)%nat).
    { unfold shownAs. simpl. now destruct (str_eqb (stripHash t) k). }
    rewrite Hs. clear Hs.
    destruct (str_eqb (stripHash t) k) eqn:Ek.
    + apply str_eqb_eq in Ek. subst k.
      assert (Hg : map_get jsstring_eq_dec (countTag m t) (stripHash t) =
                   Some ((match map_get jsstring_eq_dec m (stripHash t) with
                          | Some n => n
                          | None => 0
                          end) + 1)%Z)
        by (unfold countTag; apply map_get_set_eq).
      rewrite Hg in H2.
      destruct (map_get jsstring_eq_dec (fold_left countTag ts (countTag m t))
                        (stripHash t)) as [n|].
      * destruct H2 as [H2 _]. split; [|intros _; discriminate].
        rewrite H2. destruct (map_get jsstring_eq_dec m (stripHash t)); lia.
      * destruct H2 as [H2 _]. discriminate H2.
    + assert (Hne : stripHash t <> k).
      { intros E. apply str_eqb_eq in E. congruence. }
      assert (Hg : map_get jsstring_eq_dec (countTag m t) k =
                   map_get jsstring_eq_dec m k)
        by (unfold countTag; now apply map_get_set_ne).
      rewrite Hg in H2. exact H2.
Qed.

Lemma fold_left_flat_map {A B C : Type} (step : C -> B -> C) (g : A -> list B) :
  forall (l : list A) (c : C),
    fold_left (fun c x => fold_left step (g x) c) l c =
    fold_left step (flat_map g l) c.
Proof.
  induction l as [|x l IH]; intros c; simpl; [reflexivity|].
  now rewrite fold_left_app, IH.
Qed.

(** The tag suggestions.  [collectTagCounts] gives one entry for every
    name under which a tag of some markdown file is shown (the tag without
    its marker), no name twice, and the count of an entry is the number of
    tags shown under that name, the tag sets of all markdown files taken
    together; no entry has the count zero. *)
Theorem collectTagCounts_spec :
  forall (app : App) (mdFiles : list TFile),
    NoDup (List.map sug_name (collectTagCounts app mdFiles)) /\
    forall s,
      In s (collectTagCounts app mdFiles) <->
      sug_count s = Z.of_nat (shownAs (sug_name s) (allTags app mdFiles)) /\
      shownAs (sug_name s) (allTags app mdFiles) <> 0%nat.
Proof.
  intros app mdFiles. unfold collectTagCounts, allTags. cbv zeta.
  rewrite fold_left_flat_map.
  set (ts := flat_map (collectTagsForFile app) mdFiles).
  destruct (countTag_fold ts [] (NoDup_nil _)) as [Hnd Hget].
  set (m := fold_left countTag ts []) in *.
  assert (Hk : List.map sug_name
                 (List.map (fun e => mkSuggestion (fst e) (snd e)) m) =
               map_keys m).
  { rewrite List.map_map. reflexivity. }
  split; [now rewrite Hk|].
  intros [k n]. cbn [sug_name sug_count]. specialize (Hget k).
  rewrite in_map_iff. split.
  - intros ([k' n'] & [= -> ->] & Hin).
    rewrite (In_map_get jsstring_eq_dec _ _ _ Hnd Hin) in Hget.
    simpl in Hget. destruct Hget as [-> Hne]. split; [lia | now apply Hne].
  - intros [-> Hne].
    destruct (map_get jsstring_eq_dec m k) as [n|] eqn:E.
    + exists (k, n). split.
      * destruct Hget as [Hn _]. simpl in Hn. subst n. reflexivity.
      * now apply (map_get_In jsstring_eq_dec).
    + destruct Hget as [_ H0]. contradiction.
Qed.

Section TagCountsSorted.

Variable localeCompare : jsstring -> jsstring -> Z.

Hypothesis localeCompare_total :
  forall a b, (0 < localeCompare a b)%Z -> (localeCompare b a <= 0)%Z.
Hypothesis localeCompare_trans :
  forall a b c, (localeCompare a b <= 0)%Z -> (localeCompare b c <= 0)%Z ->
                (localeCompare a c <= 0)%Z.

Lemma tagCountCompare_le (a b : Suggestion) :
  (tagCountCompare localeCompare a b <= 0)%Z <->
  (sug_count b < sug_count a)%Z \/
  (sug_count b = sug_count a /\
   (localeCompare (sug_name a) (sug_name b) <= 0)%Z).
Proof.
  unfold tagCountCompare.
  destruct (sug_count b - sug_count a =? 0)%Z eqn:E; simpl.
  - apply Z.eqb_eq in E. split; [intros H; right; split; [lia|assumption]|].
    intros [H|[_ H]]; [lia | assumption].
  - apply Z.eqb_neq in E. split; [intros H; left; lia | intros [H|[H _]]; lia].
Qed.

Lemma tagCountCompare_total (a b : Suggestion) :
  (0 < tagCountCompare localeCompare a b)%Z ->
  (tagCountCompare localeCompare b a <= 0)%Z.
Proof.
  intros H. apply tagCountCompare_le.
  assert (Hn : ~ (tagCountCompare localeCompare a b <= 0)%Z) by lia.
  rewrite tagCountCompare_le in Hn.
  destruct (Z.lt_trichotomy (sug_count a) (sug_count b)) as [Hlt|[Heq|Hgt]].
  - now left.
  - right. split; [assumption|]. apply localeCompare_total.
    destruct (Z_lt_le_dec 0 (localeCompare (sug_name a) (sug_name b)));
      [assumption|].
    exfalso. apply Hn. right. now split.
  - exfalso. apply Hn. now left.
Qed.

Lemma tagCountCompare_trans (a b c : Suggestion) :
  (tagCountCompare localeCompare a b <= 0)%Z ->
  (tagCountCompare localeCompare b c <= 0)%Z ->
  (tagCountCompare localeCompare a c <= 0)%Z.
Proof.
  rewrite !tagCountCompare_le.
  intros [H1|[H1 L1]] [H2|[H2 L2]]; try (left; lia).
  right. split; [lia|]. now apply (localeCompare_trans _ (sug_name b)).
Qed.

(** The order of the suggestions.  The list that the tag pickers are
    given holds the entries of [collectTagCounts], each once, the larger
    count first, and of two entries with the same count the one whose name
    [localeCompare] puts first. *)
Theorem tagCounts_sorted :
  forall (app : App) (mdFiles : list TFile),
    Permutation (tagCounts localeCompare app mdFiles)
                (collectTagCounts app mdFiles) /\
    forall l1 a l2 b l3,
      tagCounts localeCompare app mdFiles = l1 ++ a :: l2 ++ b :: l3 ->
      (sug_count b <= sug_count a)%Z /\
      (sug_count a = sug_count b ->
       (localeCompare (sug_name a) (sug_name b) <= 0)%Z).
Proof.
  intros app mdFiles. split; [apply Array_sort_perm|].
  intros l1 a l2 b l3 H. unfold tagCounts in H.
  apply (Array_sort_ordered _ tagCountCompare_total tagCountCompare_trans) in H.
  apply tagCountCompare_le in H. split; [lia|].
  intros Heq. destruct H as [H|[_ H]]; [lia | assumption].
Qed.

End TagCountsSorted.

(** [tagCounts_sorted] with the collation by code units, for the sample
    vault. *)
Lemma tagCounts_sorted_witness :
  Permutation (tagCounts codeUnitCompare appProject [fileA; fileB])
              (collectTagCounts appProject [fileA; fileB]) /\
  forall l1 a l2 b l3,
    tagCounts codeUnitCompare appProject [fileA; fileB] =
    l1 ++ a :: l2 ++ b :: l3 ->
    (sug_count b <= sug_count a)%Z /\
    (sug_count a = sug_count b ->
     (codeUnitCompare (sug_name a) (sug_name b) <= 0)%Z).
Proof.
  exact (tagCounts_sorted codeUnitCompare codeUnitCompare_total
           codeUnitCompare_trans appProject [fileA; fileB]).
Defined.

(** ** The alphabetic modes of [getSortedEntries] *)

Lemma StronglySorted_app {A : Type} (R : A -> A -> Prop) (l1 l2 : list A) :
  StronglySorted R l1 -> StronglySorted R l2 ->
  (forall a b, In a l1 -> In b l2 -> R a b) ->
  StronglySorted R (l1 ++ l2).
Proof.
  intros H1 H2 H. induction l1 as [|x l1 IH]; simpl; [assumption|].
  inversion H1 as [|? ? Hs Hx]; subst. constructor.
  - apply IH; [assumption|]. intros a b Ha Hb. apply H; [now right | assumption].
  - apply Forall_app. split; [assumption|].
    apply Forall_forall. intros b Hb. apply H; [now left | assumption].
Qed.

Lemma StronglySorted_rev {A : Type} (R : A -> A -> Prop) (l : list A) :
  StronglySorted R l -> StronglySorted (fun a b => R b a) (rev l).
Proof.
  induction 1 as [|x l Hs IH Hx]; simpl; [constructor|].
  apply StronglySorted_app; [assumption | repeat constructor |].
  intros a b Ha [<-|[]]. rewrite Forall_forall in Hx. apply Hx.
  now apply in_rev.
Qed.

(** Two sorted arrangements of the same elements are equal when the
    order tells the elements apart. *)
Lemma sorted_perm_unique {A : Type} (R : A -> A -> Prop) :
  forall l1 l2 : list A,
    StronglySorted R l1 -> StronglySorted R l2 -> Permutation l1 l2 ->
    (forall a b, In a l1 -> In b l1 -> R a b -> R b a -> a = b) ->
    l1 = l2.
Proof.
  induction l1 as [|a r1 IH]; intros l2 H1 H2 Hp Hanti.
  - now apply Permutation_nil in Hp.
  - destruct l2 as [|b r2].
    { apply Permutation_sym, Permutation_nil in Hp. discriminate Hp. }
    inversion H1 as [|? ? Hs1 Ha]; subst.
    inversion H2 as [|? ? Hs2 Hb]; subst.
    rewrite Forall_forall in Ha, Hb.
    assert (Hab : a = b).
    { assert (Hbin : In b (a :: r1))
        by (apply (Permutation_in _ (Permutation_sym Hp)); now left).
      assert (Hain : In a (b :: r2))
        by (apply (Permutation_in _ Hp); now left).
      destruct Hbin as [E|Hbin]; [assumption|].
      destruct Hain as [E|Hain]; [now symmetry|].
      apply Hanti; [now left | now right | now apply Ha | now apply Hb]. }
    subst b. f_equal. apply IH; try assumption.
    + now apply Permutation_cons_inv in Hp.
    + intros x y Hx Hy. apply Hanti; now right.
Qed.

Section AlphaModes.

Variable localeCompare : jsstring -> jsstring -> Z.

Hypothesis localeCompare_total :
  forall a b, (0 < localeCompare a b)%Z -> (localeCompare b a <= 0)%Z.
Hypothesis localeCompare_trans :
  forall a b c, (localeCompare a b <= 0)%Z -> (localeCompare b c <= 0)%Z ->
                (localeCompare a c <= 0)%Z.

Let asc (a b : jsstring * GroupNode) : Z := localeCompare (fst a) (fst b).
Let desc (a b : jsstring * GroupNode) : Z := localeCompare (fst b) (fst a).

Lemma asc_total (a b : jsstring * GroupNode) :
  (0 < asc a b)%Z -> (asc b a <= 0)%Z.
Proof. apply localeCompare_total. Qed.

Lemma asc_trans (a b c : jsstring * GroupNode) :
  (asc a b <= 0)%Z -> (asc b c <= 0)%Z -> (asc a c <= 0)%Z.
Proof. apply localeCompare_trans. Qed.

Lemma desc_total (a b : jsstring * GroupNode) :
  (0 < desc a b)%Z -> (desc b a <= 0)%Z.
Proof. apply localeCompare_total. Qed.

Lemma desc_trans (a b c : jsstring * GroupNode) :
  (desc a b <= 0)%Z -> (desc b c <= 0)%Z -> (desc a c <= 0)%Z.
Proof. intros H1 H2. exact (localeCompare_trans _ _ _ H2 H1). Qed.

(** The alphabetic modes.  In the mode ["alpha"] an entry never comes
    after an entry whose label [localeCompare] puts before its own, in the
    mode ["alpha-desc"] never before one; and when [localeCompare] tells
    the labels of the map apart, the order of ["alpha-desc"] is the order
    of ["alpha"] reversed. *)
Theorem getSortedEntries_alpha :
  forall (map : list (jsstring * GroupNode)),
    (forall l1 a l2 b l3,
        getSortedEntries localeCompare map Alpha = l1 ++ a :: l2 ++ b :: l3 ->
        (localeCompare (fst a) (fst b) <= 0)%Z) /\
    (forall l1 a l2 b l3,
        getSortedEntries localeCompare map AlphaDesc = l1 ++ a :: l2 ++ b :: l3 ->
        (localeCompare (fst b) (fst a) <= 0)%Z) /\
    (NoDup (map_keys map) ->
     (forall j k, In j (map_keys map) -> In k (map_keys map) ->
                  (localeCompare j k <= 0)%Z -> (localeCompare k j <= 0)%Z ->
                  j = k) ->
     getSortedEntries localeCompare map AlphaDesc =
     rev (getSortedEntries localeCompare map Alpha)).
Proof.
  intros map. split; [|split].
  - intros l1 a l2 b l3 H.
    exact (Array_sort_ordered asc asc_total asc_trans _ _ _ _ _ _ H).
  - intros l1 a l2 b l3 H.
    exact (Array_sort_ordered desc desc_total desc_trans _ _ _ _ _ _ H).
  - intros Hnd Hanti. cbn [getSortedEntries].
    pose proof (Array_sort_sorted desc desc_total desc_trans map) as Hd.
    pose proof (Array_sort_sorted asc asc_total asc_trans map) as Ha.
    apply StronglySorted_rev in Ha.
    pose proof (Array_sort_perm desc map) as Pd.
    pose proof (Array_sort_perm asc map) as Pa.
    apply (sorted_perm_unique _ _ _ Hd Ha).
    + rewrite Pd, <- (Permutation_rev (Array_sort asc map)). now symmetry.
    + intros [j u] [k v] Hj Hk H1 H2.
      apply (Permutation_in _ Pd) in Hj. apply (Permutation_in _ Pd) in Hk.
      assert (E : j = k).
      { apply Hanti; try assumption.
        - change (In (fst (j, u)) (List.map fst map)). now apply in_map.
        - change (In (fst (k, v)) (List.map fst map)). now apply in_map. }
      subst k. f_equal.
      pose proof (In_map_get jsstring_eq_dec _ _ _ Hnd Hj) as Gj.
      pose proof (In_map_get jsstring_eq_dec _ _ _ Hnd Hk) as Gk.
      congruence.
Qed.

End AlphaModes.

Lemma codeUnitCompare_antisym (a b : jsstring) :
  (codeUnitCompare a b <= 0)%Z -> (codeUnitCompare b a <= 0)%Z -> a = b.
Proof.
  revert b. induction a as [|x a IH]; intros [|y b]; simpl; try lia.
  - reflexivity.
  - rewrite (N.compare_antisym x y).
    destruct (N.compare_spec x y) as [->|H|H]; simpl; try lia.
    intros H1 H2. f_equal. now apply IH.
Qed.

(** [getSortedEntries_alpha] with the collation by code units, which
    tells all strings apart. *)
Lemma getSortedEntries_alpha_witness :
  (forall l1 a l2 b l3,
      getSortedEntries codeUnitCompare siblings Alpha = l1 ++ a :: l2 ++ b :: l3 ->
      (codeUnitCompare (fst a) (fst b) <= 0)%Z) /\
  (forall l1 a l2 b l3,
      getSortedEntries codeUnitCompare siblings AlphaDesc =
      l1 ++ a :: l2 ++ b :: l3 ->
      (codeUnitCompare (fst b) (fst a) <= 0)%Z) /\
  getSortedEntries codeUnitCompare siblings AlphaDesc =
  rev (getSortedEntries codeUnitCompare siblings Alpha).
Proof.
  destruct (getSortedEntries_alpha codeUnitCompare codeUnitCompare_total
              codeUnitCompare_trans siblings) as (H1 & H2 & H3).
  split; [exact H1|]. split; [exact H2|]. apply H3.
  - distinct.
  - intros j k _ _. apply codeUnitCompare_antisym.
Defined.

(** ** Adding a file to the By-Folder tree *)

(** [addFileToFolderTree] and the counts.  Adding a file puts it into the
    node its folder names lead to.  A tree that has the file there already
    is left as it is, so adding a file twice is adding it once; otherwise
    the tree holds the file in addition to the files it held, and
    [countFiles] of the root grows by one. *)
Theorem addFileToFolderTree_count :
  forall (root : GroupNode) (fullPath : jsstring) (file : TFile),
    atPath (addFileToFolderTree root fullPath file) (folderParts fullPath) file /\
    (atPath root (folderParts fullPath) file ->
     addFileToFolderTree root fullPath file = root) /\
    (~ atPath root (folderParts fullPath) file ->
     Permutation (treeFiles (addFileToFolderTree root fullPath file))
                 (file :: treeFiles root) /\
     countFiles (addFileToFolderTree root fullPath file) =
     (countFiles root + 1)%Z) /\
    addFileToFolderTree (addFileToFolderTree root fullPath file) fullPath file =
    addFileToFolderTree root fullPath file.
Proof.
  intros root fullPath file. unfold addFileToFolderTree.
  fold (folderParts fullPath).
  split; [apply atPath_addAlong|]. split; [apply addAlong_same|]. split.
  - intros Hno. pose proof (addAlong_perm _ _ _ Hno) as Hp.
    split; [assumption|].
    rewrite !countFiles_treeFiles, (Permutation_length Hp). simpl length. lia.
  - apply addAlong_same, atPath_addAlong.
Qed.

(** ** A view without levels *)

Lemma buildMatched_no_levels (fileTags : list (TFile * list jsstring))
  (mdFiles : list TFile) :
  buildMatched fileTags [] mdFiles = [].
Proof.
  destruct (buildMatched_spec fileTags [] mdFiles) as [_ Hm].
  destruct (buildMatched fileTags [] mdFiles) as [|x m]; [reflexivity|].
  destruct (proj1 (Hm x) (or_introl eq_refl)) as [_ Hx]. discriminate Hx.
Qed.

(** A view without levels, as the view of [DEFAULT_SETTINGS] is.  The
    By-Tags tree is the root alone, without children and without files (the
    renderer shows "Empty"), and the By-Folder tree holds every file of
    the vault. *)
Theorem renderTree_no_levels :
  forall (app : App) (allFiles mdFiles : list TFile) (cfg : ViewCfg),
    view_levels cfg = [] ->
    exists r,
      renderTree app allFiles mdFiles cfg = Some r /\
      match r with
      | NoFiles => allFiles = []
      | Trees tagsRoot folderRoot =>
          tagsRoot = mkGroupNode (js "root") (-1) (Some []) (Some []) /\
          NoDup (treeFiles folderRoot) /\
          forall f, In f (treeFiles folderRoot) <-> In f allFiles
      end.
Proof.
  intros app allFiles mdFiles cfg Hl. unfold renderTree.
  destruct allFiles as [|a allFiles]; [now exists NoFiles|].
  cbv zeta. rewrite Hl, buildMatched_no_levels. cbn [applyLevels bind].
  eexists. split; [reflexivity|]. split; [reflexivity|].
  destruct (buildFolderTree_spec [] (a :: allFiles)) as [Hnd Hm].
  split; [assumption|]. intros f. rewrite Hm. simpl. tauto.
Qed.

(** [renderTree_no_levels] for the view of the default settings. *)
Lemma renderTree_no_levels_witness :
  exists r,
    renderTree appProject [fileA; fileB; fileC] [fileA; fileB]
               (mkViewCfg (js "default") (js "Default") []) = Some r /\
    match r with
    | NoFiles => [fileA; fileB; fileC] = []
    | Trees tagsRoot folderRoot =>
        tagsRoot = mkGroupNode (js "root") (-1) (Some []) (Some []) /\
        NoDup (treeFiles folderRoot) /\
        forall f, In f (treeFiles folderRoot) <-> In f [fileA; fileB; fileC]
    end.
Proof.
  apply (renderTree_no_levels appProject [fileA; fileB; fileC] [fileA; fileB]
           (mkViewCfg (js "default") (js "Default") [])).
  reflexivity.
Defined.

(** ** The views menu *)

(** The check mark of the views menu.  When the active id is the id of a
    view of the list and the ids are pairwise distinct, the menu item with
    the check mark, and the row of the list of saved views that is marked
    active, is the view that [getActiveViewCfg] returns, and no other. *)
Theorem viewsMenuIcon_active :
  forall (settings : MagiofilesSettings) (a : jsstring) (v : ViewCfg),
    NoDup (List.map view_id (views settings)) ->
    activeViewId settings = Some a ->
    In a (List.map view_id (views settings)) ->
    In v (views settings) ->
    (viewsMenuIcon settings v = js "check" <->
     getActiveViewCfg settings = Some (Some v)) /\
    (activeIs (activeViewId settings) (view_id v) = true <->
     getActiveViewCfg settings = Some (Some v)).
Proof.
  intros [vs act sm fi sc] a v Hnd Ha Hin Hv. simpl in *. subst act.
  unfold viewsMenuIcon, getActiveViewCfg, activeIs.
  cbn [views activeViewId bind].
  apply in_map_iff in Hin as (w & Hw & Hwin).
  rewrite <- Hw. rewrite (find_id_NoDup _ _ Hnd Hwin).
  assert (Hiff : str_eqb (view_id v) (view_id w) = true <-> w = v).
  { rewrite str_eqb_eq. split; [|now intros ->].
    intros E. pose proof (find_id_NoDup _ _ Hnd Hv) as F.
    rewrite E, (find_id_NoDup _ _ Hnd Hwin) in F. congruence. }
  assert (Hsym : str_eqb (view_id w) (view_id v) = str_eqb (view_id v) (view_id w)).
  { apply eq_true_iff_eq. rewrite !str_eqb_eq. split; congruence. }
  split.
  - destruct (str_eqb (view_id v) (view_id w)) eqn:E.
    + split; [intros _ | reflexivity]. f_equal. f_equal. now apply Hiff.
    + split; [discriminate|]. intros [= W]. apply Hiff in W. discriminate W.
  - rewrite Hsym, Hiff. split; [now intros -> | now intros [= ->]].
Qed.

(** [viewsMenuIcon_active] for the first of two views. *)
Lemma viewsMenuIcon_active_witness :
  (viewsMenuIcon settingsTwo (mkViewCfg (js "default") (js "Default") []) =
   js "check" <->
   getActiveViewCfg settingsTwo =
   Some (Some (mkViewCfg (js "default") (js "Default") []))) /\
  (activeIs (activeViewId settingsTwo)
            (view_id (mkViewCfg (js "default") (js "Default") [])) = true <->
   getActiveViewCfg settingsTwo =
   Some (Some (mkViewCfg (js "default") (js "Default") []))).
Proof.
  apply (viewsMenuIcon_active settingsTwo (js "default")
           (mkViewCfg (js "default") (js "Default") [])).
  - simpl. distinct.
  - reflexivity.
  - simpl. now left.
  - simpl. now left.
Defined.

(** Without an active id the menu marks the view with the id
    ["default"], while [getActiveViewCfg] returns the first view: no item
    has the check mark when the first view has another id. *)
Example viewsMenuIcon_no_check :
  getActiveViewCfg settingsLoaded =
  Some (Some (mkViewCfg (js "view-1") (js "Work") [])) /\
  viewsMenuIcon settingsLoaded (mkViewCfg (js "view-1") (js "Work") []) =
  js "circle".
Proof. split; reflexivity. Qed.

(** ** The tag picker *)

Lemma includes_In (arr : list jsstring) (x : jsstring) :
  includes arr x = true <-> In x arr.
Proof.
  unfold includes. rewrite existsb_exists. split.
  - intros (y & Hy & E). apply str_eqb_eq in E. now subst.
  - intros H. exists x. split; [assumption | apply str_eqb_refl].
Qed.

Lemma pushNew_In (sel : list jsstring) (x y : jsstring) :
  In y (pushNew sel x) <-> In y sel \/ y = x.
Proof.
  unfold pushNew. destruct (includes sel x) eqn:E.
  - apply includes_In in E. split; [tauto | intros [H| ->]; assumption].
  - rewrite in_app_iff. simpl. intuition congruence.
Qed.

Lemma pushNew_NoDup (sel : list jsstring) (x : jsstring) :
  NoDup sel -> NoDup (pushNew sel x).
Proof.
  intros H. unfold pushNew. destruct (includes sel x) eqn:E; [assumption|].
  apply NoDup_snoc; [assumption|]. intros Hin. apply includes_In in Hin.
  congruence.
Qed.

Lemma pushNew_fold (raw : list jsstring) :
  forall sel,
    NoDup sel ->
    NoDup (fold_left pushNew raw sel) /\
    (forall y, In y (fold_left pushNew raw sel) <-> In y sel \/ In y raw) /\
    exists more, fold_left pushNew raw sel = sel ++ more.
Proof.
  induction raw as [|r raw IH]; intros sel Hnd; simpl.
  - split; [assumption|]. split; [tauto|]. exists []. now rewrite app_nil_r.
  - destruct (IH _ (pushNew_NoDup sel r Hnd)) as (H1 & H2 & more & H3).
    split; [assumption|]. split.
    + intros y. rewrite H2, pushNew_In. intuition.
    + rewrite H3. unfold pushNew. destruct (includes sel r).
      * now exists more.
      * exists (r :: more). now rewrite <- app_assoc.
Qed.

Lemma NoDup_filter {A : Type} (p : A -> bool) (l : list A) :
  NoDup l -> NoDup (List.filter p l).
Proof.
  induction 1 as [|x l Hx Hl IH]; simpl; [constructor|].
  destruct (p x); [|assumption]. constructor; [|assumption].
  intros H. apply filter_In in H. tauto.
Qed.

Lemma NoDup_removelast {A : Type} (l : list A) :
  NoDup l -> NoDup (removelast l).
Proof.
  intros H. destruct l as [|x l] using rev_ind; [assumption|].
  rewrite removelast_last. now apply NoDup_app_remove_r in H.
Qed.

Lemma NoDup_set_fold (l : list jsstring) :
  forall s, NoDup s -> NoDup (fold_left (set_add jsstring_eq_dec) l s).
Proof.
  induction l as [|x l IH]; intros s H; simpl; [assumption|].
  apply IH. now apply NoDup_set_add.
Qed.

Lemma handle_NoDup (p : TagPicker) (ev : PickerEvent) :
  NoDup (selected p) ->
  NoDup (selected (fst (handle p ev))) /\
  match snd (handle p ev) with
  | Some sel => sel = selected (fst (handle p ev))
  | None => selected (fst (handle p ev)) = selected p
  end.
Proof.
  intros H. destruct ev as [t|s|key|value]; cbn [handle].
  - simpl. split; [now apply NoDup_filter | reflexivity].
  - simpl. split; [now apply pushNew_NoDup | reflexivity].
  - unfold input_onkeydown.
    assert (Hc : NoDup (selected (fst (commitInput p))) /\
                 match snd (commitInput p) with
                 | Some sel => sel = selected (fst (commitInput p))
                 | None => selected (fst (commitInput p)) = selected p
                 end).
    { unfold commitInput.
      destruct (List.filter nonEmpty (List.map trim (split 44%N (input_value p))))
        as [|r raw]; [now split|].
      cbn [fst snd selected]. split; [|reflexivity].
      now apply (pushNew_fold (r :: raw)). }
    destruct (str_eqb key (js "Enter") || str_eqb key (js ",")); [exact Hc|].
    destruct (str_eqb key (js "Backspace") && negb (nonEmpty (input_value p)) &&
              negb (length (selected p) =? 0)%nat).
    + simpl. split; [now apply NoDup_removelast | reflexivity].
    + now split.
  - simpl. now split.
Qed.

(** The selection of a tag picker never holds a tag twice.  Whatever
    list the picker is created with, and whatever chips are removed,
    suggestions clicked, keys pressed and texts entered afterwards, the
    array [selected] is duplicate-free, and so is every array that
    [onChange] is called with. *)
Theorem runPicker_NoDup :
  forall (initial : list jsstring) (evs : list PickerEvent),
    NoDup (selected (fst (runPicker (createTagPicker initial) evs))) /\
    Forall (fun sel => NoDup sel) (snd (runPicker (createTagPicker initial) evs)).
Proof.
  intros initial evs.
  assert (H0 : NoDup (selected (createTagPicker initial)))
    by (apply NoDup_set_fold; constructor).
  revert H0. generalize (createTagPicker initial) as p.
  induction evs as [|ev evs IH]; intros p Hp; cbn [runPicker fst snd].
  - split; [assumption | constructor].
  - destruct (handle_NoDup p ev Hp) as [H1 H2].
    destruct (IH _ H1) as [H3 H4]. split; [assumption|].
    destruct (snd (handle p ev)) as [sel|]; [|assumption].
    constructor; [now subst sel | assumption].
Qed.

Lemma normalizeTag_trim (s : jsstring) : normalizeTag (trim s) = normalizeTag s.
Proof. unfold normalizeTag. now rewrite trim_idem. Qed.

Lemma normalizeTag_nonEmpty (s : jsstring) :
  nonEmpty (normalizeTag s) = nonEmpty (trim s).
Proof.
  unfold normalizeTag. destruct (trim s) as [|c t]; [reflexivity|].
  cbn [nonEmpty negb]. now destruct (startsWith (js "#") (c :: t)).
Qed.

(** The entries of the input, normalized, are what [parseTagsInput]
    gives for the input. *)
Lemma raw_parseTagsInput (input : jsstring) :
  List.map normalizeTag
    (List.filter nonEmpty (List.map trim (split 44%N input))) =
  parseTagsInput input.
Proof.
  unfold parseTagsInput. induction (split 44%N input) as [|part parts IH];
    simpl; [reflexivity|].
  rewrite normalizeTag_nonEmpty.
  destruct (nonEmpty (trim part)); simpl; [|exact IH].
  now rewrite normalizeTag_trim, IH.
Qed.

(** Committing the text of the input.  When no entry of the text,
    separated by commas, is left after trimming, [commitInput] changes
    nothing and does not call [onChange].  Otherwise it appends the new
    entries to the selection, keeps what was selected in its place, empties
    the input and calls [onChange] with the selection; and the tags that the
    level then stores are the stored forms of what was selected before
    together with the tags that [parseTagsInput] gives for the text. *)
Theorem commitInput_spec :
  forall (p : TagPicker) (level : Level),
    NoDup (selected p) ->
    match snd (commitInput p) with
    | None =>
        parseTagsInput (input_value p) = [] /\ fst (commitInput p) = p
    | Some sel =>
        parseTagsInput (input_value p) <> [] /\
        fst (commitInput p) = mkTagPicker sel [] /\
        NoDup sel /\
        (exists more, sel = selected p ++ more) /\
        (forall x, In x sel <->
                   In x (selected p) \/
                   (x <> [] /\ exists part, In part (split 44%N (input_value p)) /\
                                           trim part = x)) /\
        (forall t, In t (level_tags (level_onChange level sel)) <->
                   In t (List.map normalizeTag (selected p)) \/
                   In t (parseTagsInput (input_value p)))
    end.
Proof.
  intros p level Hnd. unfold commitInput.
  pose proof (raw_parseTagsInput (input_value p)) as Hraw.
  assert (Hin : forall x,
             In x (List.filter nonEmpty
                     (List.map trim (split 44%N (input_value p)))) <->
             x <> [] /\ exists part, In part (split 44%N (input_value p)) /\
                                     trim part = x).
  { intros x. rewrite filter_In, in_map_iff, nonEmpty_true. split.
    - intros [(part & E & H) Hx]. split; [assumption|]. now exists part.
    - intros [Hx (part & H & E)]. split; [|assumption]. now exists part. }
  destruct (List.filter nonEmpty (List.map trim (split 44%N (input_value p))))
    as [|r raw] eqn:E; cbn [fst snd].
  - split; [now rewrite <- Hraw | reflexivity].
  - destruct (pushNew_fold (r :: raw) _ Hnd) as (H1 & H2 & H3).
    split; [rewrite <- Hraw; discriminate|]. split; [reflexivity|].
    split; [assumption|]. split; [assumption|]. split.
    + intros x. now rewrite H2, Hin.
    + intros t. cbn [level_onChange level_tags]. rewrite <- Hraw.
      rewrite !in_map_iff. split.
      * intros (x & Ex & Hx). apply H2 in Hx as [Hx|Hx]; [left | right]; eauto.
      * intros [(x & Ex & Hx)|(x & Ex & Hx)]; exists x; (split; [assumption|]);
          apply H2; [now left | now right].
Qed.

(** [commitInput_spec] for the text ["b, ,a"] entered into a picker that
    has ["a"] selected. *)
Lemma commitInput_spec_witness :
  match snd (commitInput (mkTagPicker [js "a"] (js "b, ,a"))) with
  | None =>
      parseTagsInput (js "b, ,a") = [] /\
      fst (commitInput (mkTagPicker [js "a"] (js "b, ,a"))) =
      mkTagPicker [js "a"] (js "b, ,a")
  | Some sel =>
      parseTagsInput (js "b, ,a") <> [] /\
      fst (commitInput (mkTagPicker [js "a"] (js "b, ,a"))) = mkTagPicker sel [] /\
      NoDup sel /\
      (exists more, sel = [js "a"] ++ more) /\
      (forall x, In x sel <->
                 In x [js "a"] \/
                 (x <> [] /\ exists part, In part (split 44%N (js "b, ,a")) /\
                                         trim part = x)) /\
      (forall t, In t (level_tags (level_onChange (mkLevel (js "Level 1") []) sel)) <->
                 In t (List.map normalizeTag [js "a"]) \/
                 In t (parseTagsInput (js "b, ,a")))
  end.
Proof.
  apply (commitInput_spec (mkTagPicker [js "a"] (js "b, ,a"))
           (mkLevel (js "Level 1") [])).
  simpl. distinct.
Defined.

Lemma Some_inj {A : Type} (a b : A) : Some a = Some b -> a = b.
Proof. congruence. Qed.

Lemma In_firstn {A : Type} (n : nat) (l : list A) (x : A) :
  In x (firstn n l) -> In x l.
Proof.
  revert l. induction n as [|n IH]; intros [|y l]; simpl; try tauto.
  intros [H|H]; [now left | right; now apply IH].
Qed.

(** The suggestions of the dropdown.  [updateDropdown] never offers a tag
    that is selected, offers only entries of the suggestion list, and at
    most 400 of them; it hides the dropdown only when every suggestion that
    is not selected fails the query.  A suggestion that has been clicked
    is not offered again. *)
Theorem updateDropdown_spec :
  forall (toLowerCase : jsstring -> jsstring) (suggestions : list Suggestion)
         (p : TagPicker),
    match updateDropdown toLowerCase suggestions p with
    | Some shown =>
        shown <> [] /\
        (length shown <= 400)%nat /\
        forall s, In s shown ->
                  In s suggestions /\ ~ In (sug_name s) (selected p)
    | None =>
        forall s, In s suggestions -> ~ In (sug_name s) (selected p) ->
                  toLowerCase (trim (input_value p)) <> [] /\
                  String_includes (toLowerCase (sug_name s))
                                  (toLowerCase (trim (input_value p))) = false
    end /\
    forall s,
      match updateDropdown toLowerCase suggestions (fst (item_onclick p s)) with
      | Some shown => ~ In s shown
      | None => True
      end.
Proof.
  intros toLowerCase suggestions p.
  assert (Hav : forall (q : TagPicker) s,
             In s (List.filter (fun s => negb (includes (selected q) (sug_name s)))
                               suggestions) <->
             In s suggestions /\ ~ In (sug_name s) (selected q)).
  { intros q s. rewrite filter_In, negb_true_iff.
    split; intros [H1 H2]; (split; [assumption|]).
    - intros H. apply includes_In in H. congruence.
    - destruct (includes (selected q) (sug_name s)) eqn:E; [|reflexivity].
      apply includes_In in E. contradiction. }
  assert (Hsub : forall (q : TagPicker) shown s,
             updateDropdown toLowerCase suggestions q = Some shown ->
             In s shown ->
             In s suggestions /\ ~ In (sug_name s) (selected q)).
  { intros q shown s H Hs. unfold updateDropdown in H. cbv zeta in H.
    destruct (nonEmpty (toLowerCase (trim (input_value q)))).
    - destruct (List.filter _ (List.filter _ suggestions)) as [|x l] eqn:E;
        [discriminate|].
      apply Some_inj in H. subst shown. apply In_firstn in Hs. rewrite <- E in Hs.
      apply filter_In in Hs as [Hs _]. now apply Hav.
    - destruct (List.filter _ suggestions) as [|x l] eqn:E; [discriminate|].
      apply Some_inj in H. subst shown. apply In_firstn in Hs. rewrite <- E in Hs.
      now apply Hav. }
  split.
  - destruct (updateDropdown toLowerCase suggestions p) as [shown|] eqn:E.
    + split; [|split].
      * unfold updateDropdown in E. cbv zeta in E.
        destruct (if nonEmpty (toLowerCase (trim (input_value p))) then _ else _)
          as [|x l]; [discriminate|].
        apply Some_inj in E. subst shown. discriminate.
      * unfold updateDropdown in E. cbv zeta in E.
        destruct (if nonEmpty (toLowerCase (trim (input_value p))) then _ else _)
          as [|x l]; [discriminate|].
        apply Some_inj in E. subst shown. apply firstn_le_length.
      * intros s. now apply Hsub.
    + intros s Hs Hsel. unfold updateDropdown in E. cbv zeta in E.
      assert (Ha : In s (List.filter
                           (fun s => negb (includes (selected p) (sug_name s)))
                           suggestions)) by now apply Hav.
      destruct (nonEmpty (toLowerCase (trim (input_value p)))) eqn:Eq.
      * split; [now apply nonEmpty_true|].
        destruct (List.filter _ (List.filter _ suggestions)) as [|x l] eqn:Ef;
          [|discriminate].
        destruct (String_includes (toLowerCase (sug_name s))
                                  (toLowerCase (trim (input_value p)))) eqn:Ei;
          [|reflexivity].
        assert (Hin : In s []) by (rewrite <- Ef; apply filter_In; now split).
        destruct Hin.
      * destruct (List.filter _ suggestions) as [|x l]; [destruct Ha | discriminate].
  - intros s.
    destruct (updateDropdown toLowerCase suggestions (fst (item_onclick p s)))
      as [shown|] eqn:E; [|exact I].
    intros Hs. destruct (Hsub _ _ _ E Hs) as [_ Hn]. apply Hn.
    cbn [item_onclick fst selected]. apply pushNew_In. now right.
Qed.

(** ** The levels of the active view *)

Lemma find_updateFirst (p : ViewCfg -> bool) (f : ViewCfg -> ViewCfg) :
  (forall v, p (f v) = p v) ->
  forall l, List.find p (updateFirst p f l) = option_map f (List.find p l).
Proof.
  intros Hp. induction l as [|v l IH]; simpl; [reflexivity|].
  destruct (p v) eqn:E; simpl.
  - now rewrite Hp, E.
  - now rewrite E.
Qed.

Lemma map_id_updateFirst (p : ViewCfg -> bool) (f : ViewCfg -> ViewCfg) :
  (forall v, view_id (f v) = view_id v) ->
  forall l, List.map view_id (updateFirst p f l) = List.map view_id l.
Proof.
  intros Hf. induction l as [|v l IH]; simpl; [reflexivity|].
  destruct (p v); simpl; [now rewrite Hf | now rewrite IH].
Qed.

(** A handler that changes the active view.  When [getActiveViewCfg]
    returns the view [cfg], a handler that changes [cfg], and leaves its
    id alone, succeeds; afterwards [getActiveViewCfg] returns the changed
    view, and the ids of the views and their number are what they were. *)
Lemma withActiveViewCfg_active (settings : MagiofilesSettings) (cfg : ViewCfg)
  (f : ViewCfg -> ViewCfg) :
  (forall v, view_id (f v) = view_id v) ->
  getActiveViewCfg settings = Some (Some cfg) ->
  exists s',
    withActiveViewCfg settings f = Some s' /\
    getActiveViewCfg s' = Some (Some (f cfg)) /\
    List.map view_id (views s') = List.map view_id (views settings) /\
    activeViewId s' = activeViewId settings.
Proof.
  intros Hf Hget. destruct settings as [vs act sm fi sc].
  unfold getActiveViewCfg in Hget. unfold withActiveViewCfg.
  cbn [views activeViewId sortMode showFileIcons showCounts] in *.
  destruct (match act with
            | Some a => Some a
            | None => match vs with v0 :: _ => Some (view_id v0) | [] => None end
            end) as [i|] eqn:Ei; [|discriminate].
  cbn [bind] in *.
  assert (Hp : forall v, str_eqb (view_id (f v)) i = str_eqb (view_id v) i)
    by (intros v; now rewrite Hf).
  destruct (List.find (fun v => str_eqb (view_id v) i) vs) as [w|] eqn:Ew.
  - injection Hget as ->. eexists. split; [reflexivity|].
    unfold getActiveViewCfg. cbn [views activeViewId].
    assert (Ei' : match act with
                  | Some a => Some a
                  | None =>
                      match updateFirst (fun v => str_eqb (view_id v) i) f vs with
                      | v0 :: _ => Some (view_id v0)
                      | [] => None
                      end
                  end = Some i).
    { destruct act as [a|]; [assumption|].
      destruct vs as [|v0 r]; [discriminate|]. simpl.
      destruct (str_eqb (view_id v0) i); simpl; [now rewrite Hf | assumption]. }
    rewrite Ei'. cbn [bind].
    rewrite (find_updateFirst _ f Hp), Ew. simpl.
    split; [reflexivity|]. split; [|reflexivity].
    now apply map_id_updateFirst.
  - destruct vs as [|v0 r]; [discriminate|]. simpl in Hget.
    injection Hget as ->. eexists. split; [reflexivity|].
    unfold getActiveViewCfg. cbn [views activeViewId].
    assert (Ei' : match act with
                  | Some a => Some a
                  | None => Some (view_id (f cfg))
                  end = Some i).
    { destruct act as [a|]; [assumption|]. simpl in Ei. now rewrite Hf. }
    rewrite Ei'. cbn [bind].
    assert (Hnone : List.find (fun v => str_eqb (view_id v) i) (f cfg :: r) = None).
    { simpl in Ew. simpl. rewrite Hp.
      destruct (str_eqb (view_id cfg) i); [discriminate | assumption]. }
    rewrite Hnone. simpl. split; [reflexivity|]. split; [|reflexivity].
    now rewrite Hf.
Qed.

Lemma splice_snoc {A : Type} (l : list A) (x : A) :
  firstn (length l) (l ++ [x]) ++ skipn (S (length l)) (l ++ [x]) = l.
Proof.
  induction l as [|y l IH]; simpl; [reflexivity|]. f_equal. exact IH.
Qed.

(** Adding and removing a level.  When [getActiveViewCfg] returns the
    view [cfg], "+ Add level" succeeds; afterwards [getActiveViewCfg]
    returns [cfg] with one more level, named after its position and without
    tags, behind the levels it had, and no other view is given an id or
    taken away.  The "Remove" button of the added level then gives back the
    levels [cfg] had. *)
Theorem addLevelBtn_onclick_active :
  forall (settings : MagiofilesSettings) (cfg : ViewCfg),
    getActiveViewCfg settings = Some (Some cfg) ->
    exists s' s'',
      addLevelBtn_onclick settings = Some s' /\
      getActiveViewCfg s' =
      Some (Some (mkViewCfg (view_id cfg) (view_name cfg)
                    (view_levels cfg ++
                     [mkLevel (levelName (length (view_levels cfg) + 1)) []]))) /\
      List.map view_id (views s') = List.map view_id (views settings) /\
      activeViewId s' = activeViewId settings /\
      levelDelBtn_onclick s' (length (view_levels cfg)) = Some s'' /\
      getActiveViewCfg s'' =
      Some (Some (mkViewCfg (view_id cfg) (view_name cfg) (view_levels cfg))).
Proof.
  intros settings cfg Hget.
  destruct (withActiveViewCfg_active settings cfg pushLevel (fun v => eq_refl) Hget)
    as (s' & Hs' & Hg' & Hids & Hact).
  destruct (withActiveViewCfg_active s' (pushLevel cfg)
              (spliceLevel (length (view_levels cfg))) (fun v => eq_refl) Hg')
    as (s'' & Hs'' & Hg'' & _ & _).
  exists s', s''. split; [exact Hs'|]. split; [exact Hg'|].
  split; [exact Hids|]. split; [exact Hact|]. split; [exact Hs''|].
  rewrite Hg''. unfold spliceLevel, pushLevel. cbn [view_id view_name view_levels].
  now rewrite splice_snoc.
Qed.

(** [addLevelBtn_onclick_active] for the second of two views. *)
Lemma addLevelBtn_onclick_active_witness :
  exists s' s'',
    addLevelBtn_onclick (selectView settingsTwo (js "view-1")) = Some s' /\
    getActiveViewCfg s' =
    Some (Some (mkViewCfg (js "view-1") (js "Work")
                  ([] ++ [mkLevel (levelName (0 + 1)) []]))) /\
    List.map view_id (views s') =
    List.map view_id (views (selectView settingsTwo (js "view-1"))) /\
    activeViewId s' = activeViewId (selectView settingsTwo (js "view-1")) /\
    levelDelBtn_onclick s' 0 = Some s'' /\
    getActiveViewCfg s'' = Some (Some (mkViewCfg (js "view-1") (js "Work") [])).
Proof.
  apply (addLevelBtn_onclick_active (selectView settingsTwo (js "view-1"))
           (mkViewCfg (js "view-1") (js "Work") [])).
  reflexivity.
Defined.

(** ** A level without tags and the two trees *)

Lemma tagMatchesAny_no_patterns (tagSet : list jsstring) :
  tagMatchesAny tagSet [] = None.
Proof. reflexivity. Qed.

Lemma matchesSomeLevel_snoc (fileTags : list (TFile * list jsstring))
  (lvls : list Level) (nm : jsstring) (f : TFile) :
  matchesSomeLevel fileTags (lvls ++ [mkLevel nm []]) f =
  matchesSomeLevel fileTags lvls f.
Proof.
  unfold matchesSomeLevel. rewrite existsb_app. simpl.
  now rewrite !orb_false_r.
Qed.

Lemma buildMatched_snoc (fileTags : list (TFile * list jsstring))
  (lvls : list Level) (nm : jsstring) (mdFiles : list TFile) :
  buildMatched fileTags (lvls ++ [mkLevel nm []]) mdFiles =
  buildMatched fileTags lvls mdFiles.
Proof.
  unfold buildMatched. generalize (@nil TFile) as acc.
  induction mdFiles as [|f l IH]; intros acc; simpl; [reflexivity|].
  now rewrite matchesSomeLevel_snoc, IH.
Qed.

Lemma applyLevels_app (fileTags : list (TFile * list jsstring)) :
  forall (l1 l2 : list Level) (lv : Z) (n : GroupNode),
    applyLevels (l1 ++ l2) lv fileTags n =
    (m <- applyLevels l1 lv fileTags n ;;
     applyLevels l2 (lv + Z.of_nat (length l1)) fileTags m).
Proof.
  induction l1 as [|l l1 IH]; intros l2 lv n.
  - simpl. now rewrite Z.add_0_r.
  - cbn [app applyLevels length].
    destruct (propagateLevel n (level_tags l) fileTags lv) as [r|];
      cbn [bind]; [|reflexivity].
    rewrite IH. replace (lv + 1 + Z.of_nat (length l1))%Z
      with (lv + Z.of_nat (S (length l1)))%Z by lia.
    reflexivity.
Qed.

(** A level without tags moves no file from one tree to the other.  For
    a view that is given one more level, without tags, as "+ Add level"
    and the opening of the levels panel of a view without levels do,
    [renderTree] builds the By-Folder tree it built before, and a By-Tags
    tree that holds the files it held before: the tree of before with the
    new level applied to it. *)
Theorem renderTree_add_empty_level :
  forall (app : App) (allFiles mdFiles : list TFile) (cfg : ViewCfg)
         (nm : jsstring),
  exists r r',
    renderTree app allFiles mdFiles cfg = Some r /\
    renderTree app allFiles mdFiles
      (mkViewCfg (view_id cfg) (view_name cfg)
                 (view_levels cfg ++ [mkLevel nm []])) = Some r' /\
    match r, r' with
    | NoFiles, NoFiles => allFiles = []
    | Trees tagsRoot folderRoot, Trees tagsRoot' folderRoot' =>
        folderRoot' = folderRoot /\
        Permutation (treeFiles tagsRoot') (treeFiles tagsRoot) /\
        propagateLevel tagsRoot [] (buildFileTags app mdFiles)
                       (Z.of_nat (length (view_levels cfg))) = Some tagsRoot'
    | _, _ => False
    end.
Proof.
  intros app allFiles mdFiles cfg nm. unfold renderTree.
  destruct allFiles as [|a allFiles]; [now exists NoFiles, NoFiles|].
  cbv zeta. cbn [view_levels]. rewrite buildMatched_snoc.
  pose proof (tagsRoot_inv app mdFiles (view_levels cfg)) as Hinv.
  destruct (applyLevels_ok _ (view_levels cfg) 0 _ Hinv) as (t & Ht & Hti & _).
  rewrite applyLevels_app, Ht. cbn [bind applyLevels level_tags].
  rewrite Z.add_0_l.
  destruct (propagateLevel_ok [] _ (Z.of_nat (length (view_levels cfg))) t Hti)
    as (t' & Ht' & Hp & _).
  rewrite <- propagateLevel_rec_eq in Ht' by apply Hti.
  rewrite Ht'. cbn [bind].
  eexists. eexists. split; [reflexivity|]. split; [reflexivity|].
  split; [reflexivity|]. split; [assumption|]. exact Ht'.
Qed.

(** ** The panel *)

Lemma openedFiles_unfold (el : El) :
  openedFiles el =
  (match el_onclick el with
   | Some (OpenFile f) => [f]
   | _ => []
   end) ++ flat_map openedFiles (el_children el).
Proof. destruct el. reflexivity. Qed.

Lemma allEls_unfold (P : El -> Prop) (el : El) :
  allEls P el <-> P el /\ Forall (allEls P) (el_children el).
Proof.
  destruct el as [tg cls tx ic at_ st oc ch]. cbn [allEls el_children].
  assert (H : fold_right (fun c acc => allEls P c /\ acc) True ch <->
              Forall (allEls P) ch).
  { induction ch as [|c ch IH]; simpl.
    - split; [constructor | trivial].
    - rewrite IH. split.
      + intros [H1 H2]. now constructor.
      + intros H. inversion H; subst. now split. }
  now rewrite H.
Qed.

Lemma openedFiles_nil (el : El) :
  openedFiles el = [] ->
  (forall f, el_onclick el <> Some (OpenFile f)) /\
  flat_map openedFiles (el_children el) = [].
Proof.
  rewrite openedFiles_unfold. intros H. apply app_eq_nil in H as [H1 H2].
  split; [|assumption]. intros f E. rewrite E in H1. discriminate H1.
Qed.

Lemma openedFiles_collapsible (item self childrenWrap : El) (expanded : bool)
  (fullPath : jsstring) (content : list El) :
  openedFiles item = [] ->
  flat_map openedFiles (el_children self) = [] ->
  openedFiles childrenWrap = [] ->
  openedFiles (collapsible item self childrenWrap expanded fullPath content) =
  flat_map openedFiles content.
Proof.
  intros Hi Hs Hw.
  apply openedFiles_nil in Hi as [Hi1 Hi2]. apply openedFiles_nil in Hw as [Hw1 Hw2].
  assert (Ho : forall o : option Handler,
             (forall f, o <> Some (OpenFile f)) ->
             match o with Some (OpenFile f) => [f] | _ => [] end = @nil TFile).
  { intros [[q|f]|] H; try reflexivity. now contradiction (H f). }
  destruct item as [t1 c1 x1 i1 a1 s1 o1 h1].
  destruct self as [t2 c2 x2 i2 a2 s2 o2 h2].
  destruct childrenWrap as [t3 c3 x3 i3 a3 s3 o3 h3].
  cbn [el_onclick el_children] in *.
  destruct expanded; unfold collapsible, appendChildren, setOnclick, addClass,
    setStyle; cbn [el_tag el_cls el_text el_icon el_attrs el_style el_onclick
                   el_children openedFiles];
    rewrite (Ho o1 Hi1), !flat_map_app; cbn [flat_map openedFiles];
    rewrite (Ho o3 Hw1), !flat_map_app, Hi2, Hs, Hw2; cbn [app];
    now rewrite !app_nil_r.
Qed.

Lemma allEls_leaf (P : El -> Prop) (el : El) :
  el_children el = [] -> P el -> allEls P el.
Proof. intros Hc H. apply allEls_unfold. rewrite Hc. now split. Qed.

Lemma flairCounts_other (el : El) :
  hasClass el (js "nav-folder") = false -> flairCounts el.
Proof. intros H H'. rewrite H in H'. discriminate H'. Qed.

Lemma hasClass_addClass (el : El) (c x : jsstring) :
  hasClass (addClass el c) x = hasClass el x || str_eqb c x.
Proof.
  destruct el as [tg cls tx ic at_ st oc ch]. unfold hasClass, addClass.
  cbn [el_cls]. apply eq_true_iff_eq.
  rewrite orb_true_iff, !set_has_true, In_set_add, str_eqb_eq.
  intuition congruence.
Qed.

Lemma numberToStringZ_of_nat (n : nat) :
  numberToStringZ (Z.of_nat n) = numberToString (N.of_nat n).
Proof.
  unfold numberToStringZ.
  destruct (Z.ltb_spec (Z.of_nat n) 0) as [H|_]; [lia|].
  now rewrite <- nat_N_Z, N2Z.id.
Qed.

Lemma flairText_count (node : GroupNode) (rows : list TFile) :
  Permutation rows (treeFiles node) ->
  flairText (countFiles node) =
  js " (" ++ numberToString (N.of_nat (length rows)) ++ js ")".
Proof.
  intros Hp. unfold flairText.
  now rewrite countFiles_treeFiles, <- (Permutation_length Hp),
    numberToStringZ_of_nat.
Qed.

(** The counts in a group or section put together by [collapsible]. *)
Lemma flairCounts_collapsible (item self childrenWrap : El) (expanded : bool)
  (fullPath : jsstring) (content : list El) :
  el_children item = [] ->
  openedFiles item = [] ->
  flat_map openedFiles (el_children self) = [] ->
  openedFiles childrenWrap = [] ->
  el_children childrenWrap = [] ->
  hasClass self (js "nav-folder") = false ->
  hasClass childrenWrap (js "nav-folder") = false ->
  Forall (allEls flairCounts) (el_children self) ->
  Forall (allEls flairCounts) content ->
  match List.find (fun c => hasClass c (js "tree-item-flair")) (el_children self) with
  | Some flair => el_text flair
  | None => None
  end = Some (js " (" ++
              numberToString (N.of_nat (length (flat_map openedFiles content))) ++
              js ")") ->
  allEls flairCounts (collapsible item self childrenWrap expanded fullPath content).
Proof.
  intros Hic Hio Hso Hwo Hwc Hsf Hwf Hsa Hca Hflair.
  pose proof (openedFiles_collapsible item self childrenWrap expanded fullPath
                content Hio Hso Hwo) as Hrows.
  apply allEls_unfold. split.
  - intros _. rewrite Hrows. rewrite <- Hflair.
    destruct item as [t1 c1 x1 i1 a1 s1 o1 h1].
    destruct self as [t2 c2 x2 i2 a2 s2 o2 h2].
    cbn [el_children] in *. subst h1.
    now destruct expanded.
  - assert (Hc : el_children (collapsible item self childrenWrap expanded fullPath
                                content) =
                 [setOnclick (if expanded then self
                              else addClass self (js "is-collapsed"))
                             (Toggle fullPath);
                  appendChildren
                    (if expanded then childrenWrap
                     else setStyle childrenWrap (js "display") (js "none"))
                    content]).
    { destruct item as [t1 c1 x1 i1 a1 s1 o1 h1]. cbn [el_children] in Hic.
      subst h1. now destruct expanded. }
    rewrite Hc. constructor; [|constructor; [|constructor]].
    + apply allEls_unfold. split.
      * apply flairCounts_other.
        destruct expanded; [destruct self; exact Hsf|].
        assert (E : hasClass (addClass self (js "is-collapsed")) (js "nav-folder") =
                    false)
          by (rewrite hasClass_addClass, Hsf; reflexivity).
        destruct self; exact E.
      * destruct expanded; destruct self; exact Hsa.
    + apply allEls_unfold. split.
      * apply flairCounts_other.
        destruct expanded; destruct childrenWrap; exact Hwf.
      * assert (E : el_children
                      (appendChildren
                         (if expanded then childrenWrap
                          else setStyle childrenWrap (js "display") (js "none"))
                         content) = content).
        { destruct childrenWrap as [t3 c3 x3 i3 a3 s3 o3 h3].
          cbn [el_children] in Hwc. subst h3. now destruct expanded. }
        now rewrite E.
Qed.

Lemma forEach_ok {A B : Type} (body : A -> option B) (Q : A -> B -> Prop) :
  forall l : list A,
    (forall x, In x l -> exists y, body x = Some y /\ Q x y) ->
    exists ys, forEach body l = Some ys /\ Forall2 Q l ys.
Proof.
  induction l as [|x l IH]; intros H.
  - exists []. split; [reflexivity | constructor].
  - destruct (H x (or_introl eq_refl)) as (y & Hy & Hq).
    destruct IH as (ys & Hys & Hf); [intros z Hz; apply H; now right|].
    exists (y :: ys). cbn [forEach]. rewrite Hy, Hys.
    split; [reflexivity | now constructor].
Qed.

Lemma Forall2_flat_map_perm {A B C : Type} (g : B -> list C) (h : A -> list C) :
  forall (l : list A) (ys : list B),
    Forall2 (fun x y => Permutation (g y) (h x)) l ys ->
    Permutation (flat_map g ys) (flat_map h l).
Proof.
  intros l ys H. induction H as [|x y l ys Hxy _ IH]; simpl; [reflexivity|].
  now apply Permutation_app.
Qed.

Lemma nodeCount_child (node : GroupNode) (kc : jsstring * GroupNode) :
  In kc (children_of node) -> (nodeCount (snd kc) < nodeCount node)%nat.
Proof.
  destruct node as [nm lv [l|] fs]; [|intros []]. cbn [children_of children].
  cbn [nodeCount]. intros Hin.
  assert (H : (nodeCount (snd kc) <=
               fold_right (fun kc acc => (nodeCount (snd kc) + acc)%nat) O l)%nat).
  { induction l as [|x l IH]; [destruct Hin|]. simpl.
    destruct Hin as [->|Hin]; [lia|]. specialize (IH Hin). lia. }
  lia.
Qed.

Lemma getSortedEntries_perm (localeCompare : jsstring -> jsstring -> Z)
  (map : list (jsstring * GroupNode)) (mode : SortMode) :
  Permutation (getSortedEntries localeCompare map mode) map.
Proof. destruct mode; apply Array_sort_perm. Qed.

Section PanelFacts.

Variable localeCompare : jsstring -> jsstring -> Z.
Variable settings : MagiofilesSettings.
Variable expandedPaths : list jsstring.

Lemma renderFile_rows (file : TFile) :
  openedFiles (renderFile settings file) = [file] /\
  allEls flairCounts (renderFile settings file).
Proof.
  unfold renderFile. destruct (showFileIcons settings).
  - split; [reflexivity|].
    repeat (apply allEls_unfold; split;
            [apply flairCounts_other; reflexivity|]; cbn [el_children];
            repeat constructor).
  - split; [reflexivity|].
    repeat (apply allEls_unfold; split;
            [apply flairCounts_other; reflexivity|]; cbn [el_children];
            repeat constructor).
Qed.

Lemma renderFiles_rows (fs : list TFile) :
  flat_map openedFiles (List.map (renderFile settings) fs) = fs /\
  Forall (allEls flairCounts) (List.map (renderFile settings) fs).
Proof.
  induction fs as [|f fs [IH1 IH2]]; [split; [reflexivity | constructor]|].
  cbn [List.map flat_map]. destruct (renderFile_rows f) as [H1 H2].
  rewrite H1, IH1. split; [reflexivity | now constructor].
Qed.

End PanelFacts.

Section PanelGroups.

Variable localeCompare : jsstring -> jsstring -> Z.
Variable settings : MagiofilesSettings.
Variable expandedPaths : list jsstring.

(** What a group gives: its file rows are the files of the node, and its
    counts are the numbers of its rows. *)
Let groupOk (node : GroupNode) (el : El) : Prop :=
  Permutation (openedFiles el) (treeFiles node) /\
  (showCounts settings = true -> allEls flairCounts el).

Lemma sortFiles_rows (fs : list TFile) :
  Permutation
    (flat_map openedFiles
       (List.map (renderFile settings) (sortFiles localeCompare fs))) fs /\
  Forall (allEls flairCounts)
         (List.map (renderFile settings) (sortFiles localeCompare fs)).
Proof.
  destruct (renderFiles_rows settings (sortFiles localeCompare fs)) as [H1 H2].
  rewrite H1. split; [apply Array_sort_perm | assumption].
Qed.

(** The groups of the entries of a children map, rendered by [body]. *)
Lemma groups_ok (body : jsstring * GroupNode -> option El)
  (ch : list (jsstring * GroupNode)) :
  (forall e, In e ch -> exists el, body e = Some el /\ groupOk (snd e) el) ->
  exists groups,
    forEach body (getSortedEntries localeCompare ch (sortMode settings)) =
    Some groups /\
    Permutation (flat_map openedFiles groups) (childrenFiles ch) /\
    (showCounts settings = true -> Forall (allEls flairCounts) groups).
Proof.
  intros Hbody.
  pose proof (getSortedEntries_perm localeCompare ch (sortMode settings)) as Hp.
  destruct (forEach_ok body (fun e el => groupOk (snd e) el)
              (getSortedEntries localeCompare ch (sortMode settings)))
    as (groups & Hg & Hf).
  { intros e He. apply Hbody. now apply (Permutation_in _ Hp). }
  exists groups. split; [assumption|]. split.
  - transitivity (childrenFiles
                    (getSortedEntries localeCompare ch (sortMode settings))).
    + apply Forall2_flat_map_perm.
      apply (Forall2_impl (R1 := fun e el => groupOk (snd e) el)); [|assumption].
      now intros e el [H _].
    + unfold childrenFiles. now apply Permutation_flat_map.
  - intros Hc. apply (Forall2_Forall _ _ _ _ Hf).
    intros e el _ [_ H]. now apply H.
Qed.

Lemma renderGroup_fuel_ok :
  forall (fuel : nat) (node : GroupNode) (displayName parentPath : jsstring),
    (nodeCount node <= fuel)%nat ->
    exists el,
      renderGroup_fuel localeCompare settings expandedPaths fuel node
                       displayName parentPath = Some el /\
      groupOk node el.
Proof.
  induction fuel as [|fuel IH]; intros node displayName parentPath Hfuel.
  - destruct node as [nm lv ch fs]. simpl in Hfuel. lia.
  - cbn [renderGroup_fuel]. cbv zeta.
    set (fullPath := if nonEmpty parentPath
                     then parentPath ++ js "/" ++ displayName
                     else displayName).
    assert (Hgroups :
              exists groups,
                match children node with
                | Some (kc :: ch) =>
                    forEach
                      (fun e =>
                         renderGroup_fuel localeCompare settings expandedPaths
                                          fuel (snd e) (fst e) fullPath)
                      (getSortedEntries localeCompare (kc :: ch) (sortMode settings))
                | _ => Some []
                end = Some groups /\
                Permutation (flat_map openedFiles groups)
                            (childrenFiles (children_of node)) /\
                (showCounts settings = true ->
                 Forall (allEls flairCounts) groups)).
    { destruct (children node) as [[|kc ch]|] eqn:Ech;
        try (exists []; unfold children_of; rewrite Ech;
             split; [reflexivity | split; [reflexivity | constructor]]).
      unfold children_of. rewrite Ech. apply groups_ok.
      intros e He. apply IH.
      assert (Hlt : (nodeCount (snd e) < nodeCount node)%nat)
        by (apply nodeCount_child; unfold children_of; now rewrite Ech).
      lia. }
    destruct Hgroups as (groups & -> & Hgp & Hgf). cbn [bind].
    set (rows := match files node with
                 | Some (f :: fs) =>
                     List.map (renderFile settings)
                              (sortFiles localeCompare (f :: fs))
                 | _ => []
                 end).
    assert (Hrows : Permutation (flat_map openedFiles rows) (files_of node) /\
                    Forall (allEls flairCounts) rows).
    { unfold rows, files_of. destruct (files node) as [[|f fs]|];
        try (split; [reflexivity | constructor]).
      apply sortFiles_rows. }
    destruct Hrows as [Hrp Hrf].
    assert (Hcontent : Permutation (flat_map openedFiles (groups ++ rows))
                                   (treeFiles node)).
    { rewrite flat_map_app, treeFiles_unfold, Hgp, Hrp. apply Permutation_app_comm. }
    eexists. split; [reflexivity|]. split.
    + rewrite openedFiles_collapsible; [assumption | reflexivity | | reflexivity].
      now destruct (showCounts settings).
    + intros Hc. rewrite Hc.
      apply flairCounts_collapsible; try reflexivity.
      * repeat (constructor;
                [apply allEls_leaf; [reflexivity|];
                 apply flairCounts_other; reflexivity|]).
        constructor.
      * apply Forall_app. split; [now apply Hgf | assumption].
      * cbn [el_children createDiv appendChildren app List.find].
        change (Some (flairText (countFiles node)) =
                Some (js " (" ++
                      numberToString
                        (N.of_nat (length (flat_map openedFiles (groups ++ rows)))) ++
                      js ")")).
        f_equal. now apply flairText_count.
Qed.

End PanelGroups.

Lemma tagsRoot_files_nil (app : App) (mdFiles : list TFile) (lvls : list Level)
  (t : GroupNode) :
  applyLevels lvls 0 (buildFileTags app mdFiles)
    (mkGroupNode (js "root") (-1) (Some [])
       (Some (buildMatched (buildFileTags app mdFiles) lvls mdFiles))) = Some t ->
  files_of t = [].
Proof.
  intros Ht. pose proof (tagsRoot_inv app mdFiles lvls) as Hinv.
  destruct lvls as [|l lvls].
  - simpl in Ht. injection Ht as <-. apply buildMatched_no_levels.
  - pose proof (proj1 (applyLevels_shape _ _ _ _ _ 0%nat Hinv Ht) eq_refl) as Hd.
    simpl in Hd. exact (proj1 Hd).
Qed.

Lemma NoDup_app_disjoint {A : Type} (l1 l2 : list A) :
  NoDup l1 -> NoDup l2 -> (forall x, In x l1 -> ~ In x l2) -> NoDup (l1 ++ l2).
Proof.
  intros H1 H2 Hd. induction H1 as [|x l1 Hx H1 IH]; simpl; [assumption|].
  constructor.
  - rewrite in_app_iff. intros [H|H]; [contradiction|].
    apply (Hd x); [now left | assumption].
  - apply IH. intros y Hy. apply Hd. now right.
Qed.

(** The two trees together hold the files of the vault, each once. *)
Lemma renderTree_all_files (app : App) (allFiles mdFiles : list TFile)
  (cfg : ViewCfg) (t fo : GroupNode) :
  NoDup allFiles -> incl mdFiles allFiles ->
  renderTree app allFiles mdFiles cfg = Some (Trees t fo) ->
  Permutation (treeFiles t ++ treeFiles fo) allFiles.
Proof.
  intros Hnd Hincl Hr.
  destruct (renderTree_trees app allFiles mdFiles cfg) as (r & Hr' & H).
  rewrite Hr in Hr'. injection Hr' as <-. cbv zeta in H.
  destruct H as (_ & Hm & Hmd & Hp & _ & Hfnd & Hfm).
  set (matched := buildMatched (buildFileTags app mdFiles) (view_levels cfg) mdFiles)
    in *.
  assert (Htin : forall f, In f (treeFiles t) <-> In f matched).
  { intros f. split; intros Hf.
    - now apply (Permutation_in _ Hp).
    - now apply (Permutation_in _ (Permutation_sym Hp)). }
  apply NoDup_Permutation; [|assumption|].
  - apply NoDup_app_disjoint; [|assumption|].
    + now apply (Permutation_NoDup (Permutation_sym Hp)).
    + intros f Hf Hf'. apply Hfm in Hf' as [_ Hn]. apply Hn. now apply Htin.
  - intros f. rewrite in_app_iff, Htin, Hfm. split.
    + intros [H|[H _]]; [|assumption]. now apply Hincl, Hmd.
    + intros H. destruct (in_dec TFile_eq_dec f matched); [now left | right].
      now split.
Qed.

Section PanelSections.

Variable localeCompare : jsstring -> jsstring -> Z.
Variable settings : MagiofilesSettings.
Variable expandedPaths : list jsstring.

Lemma renderGroup_ok (node : GroupNode) (displayName parentPath : jsstring) :
  exists el,
    renderGroup localeCompare settings expandedPaths node displayName parentPath =
    Some el /\
    Permutation (openedFiles el) (treeFiles node) /\
    (showCounts settings = true -> allEls flairCounts el).
Proof. apply renderGroup_fuel_ok. apply Nat.le_refl. Qed.

Lemma sectionGroups_ok (root : GroupNode) (parentPath : jsstring)
  (placeholder : list El) :
  flat_map openedFiles placeholder = [] ->
  Forall (allEls flairCounts) placeholder ->
  exists groups,
    match children root with
    | Some (kc :: ch) =>
        forEach
          (fun e => renderGroup localeCompare settings expandedPaths
                                (snd e) (fst e) parentPath)
          (getSortedEntries localeCompare (kc :: ch) (sortMode settings))
    | _ => Some placeholder
    end = Some groups /\
    Permutation (flat_map openedFiles groups) (childrenFiles (children_of root)) /\
    (showCounts settings = true -> Forall (allEls flairCounts) groups).
Proof.
  intros Hp Hf. unfold children_of.
  destruct (children root) as [[|kc ch]|];
    try (exists placeholder; rewrite Hp;
         split; [reflexivity | split; [reflexivity | now intros _]]).
  apply groups_ok. intros e _. apply renderGroup_ok.
Qed.

Lemma renderSections_ok (tagsRoot folderRoot : GroupNode) :
  files_of tagsRoot = [] ->
  exists els,
    renderSections localeCompare settings expandedPaths tagsRoot folderRoot =
    Some els /\
    Permutation (flat_map openedFiles els)
                (treeFiles tagsRoot ++ treeFiles folderRoot) /\
    (showCounts settings = true -> Forall (allEls flairCounts) els).
Proof.
  intros Hroot. unfold renderSections. cbv zeta.
  destruct (sectionGroups_ok tagsRoot (js "by-tags")
              [createDiv [js "mgf-muted"] (Some (js "Empty"))] eq_refl)
    as (tagsContent & -> & Htp & Htf).
  { constructor; [|constructor].
    apply allEls_leaf; [reflexivity | apply flairCounts_other; reflexivity]. }
  destruct (sectionGroups_ok folderRoot (js "by-folder") [] eq_refl (Forall_nil _))
    as (folderGroups & -> & Hfp & Hff).
  cbn [bind].
  set (folderRows := match files folderRoot with
                     | Some (f :: fs) =>
                         List.map (renderFile settings)
                                  (sortFiles localeCompare (f :: fs))
                     | _ => []
                     end).
  assert (Hrows : Permutation (flat_map openedFiles folderRows) (files_of folderRoot) /\
                  Forall (allEls flairCounts) folderRows).
  { unfold folderRows, files_of. destruct (files folderRoot) as [[|f fs]|];
      try (split; [reflexivity | constructor]).
    apply sortFiles_rows. }
  destruct Hrows as [Hrp Hrf].
  assert (Htags : Permutation (flat_map openedFiles tagsContent) (treeFiles tagsRoot)).
  { now rewrite treeFiles_unfold, Hroot. }
  assert (Hfolder : Permutation (flat_map openedFiles (folderGroups ++ folderRows))
                                (treeFiles folderRoot)).
  { rewrite flat_map_app, treeFiles_unfold, Hfp, Hrp. apply Permutation_app_comm. }
  assert (Hhead : forall title root,
             flat_map openedFiles
               (el_children (sectionHeader settings title root)) = []).
  { intros title root. unfold sectionHeader. now destruct (showCounts settings). }
  eexists. split; [reflexivity|]. split.
  - cbn [flat_map].
    rewrite !openedFiles_collapsible; try reflexivity; try apply Hhead.
    rewrite app_nil_r. now apply Permutation_app.
  - intros Hc.
    assert (Hleaves : forall title root,
               Forall (allEls flairCounts)
                      (el_children (sectionHeader settings title root))).
    { intros title root. unfold sectionHeader. rewrite Hc.
      repeat (constructor;
              [apply allEls_leaf; [reflexivity|];
               apply flairCounts_other; reflexivity|]).
      constructor. }
    assert (Hflair : forall title root content,
               Permutation (flat_map openedFiles content) (treeFiles root) ->
               match List.find (fun c => hasClass c (js "tree-item-flair"))
                               (el_children (sectionHeader settings title root)) with
               | Some flair => el_text flair
               | None => None
               end =
               Some (js " (" ++
                     numberToString
                       (N.of_nat (length (flat_map openedFiles content))) ++
                     js ")")).
    { intros title root content Hp. unfold sectionHeader. rewrite Hc.
      cbn [el_children createDiv appendChildren app List.find].
      change (Some (flairText (countFiles root)) =
              Some (js " (" ++
                    numberToString
                      (N.of_nat (length (flat_map openedFiles content))) ++
                    js ")")).
      f_equal. now apply flairText_count. }
    constructor; [|constructor; [|constructor]].
    + apply flairCounts_collapsible; try reflexivity; try apply Hhead;
        try apply Hleaves.
      * now apply Htf.
      * now apply Hflair.
    + apply flairCounts_collapsible; try reflexivity; try apply Hhead;
        try apply Hleaves.
      * apply Forall_app. split; [now apply Hff | assumption].
      * now apply Hflair.
Qed.

(** What [renderTree] leaves in the panel, for the view that
    [getActiveViewCfg] returns. *)
Lemma renderTree_panel_ok (app : App) (allFiles mdFiles : list TFile)
  (cfg : ViewCfg) :
  getActiveViewCfg settings = Some (Some cfg) ->
  exists els,
    renderTree_panel localeCompare settings expandedPaths app allFiles mdFiles =
    Some els /\
    (showCounts settings = true -> Forall (allEls flairCounts) els) /\
    match allFiles with
    | [] => els = [createDiv [js "mgf-muted"] (Some (js "No files."))]
    | _ :: _ =>
        exists t fo,
          renderTree app allFiles mdFiles cfg = Some (Trees t fo) /\
          Permutation (flat_map openedFiles els) (treeFiles t ++ treeFiles fo)
    end.
Proof.
  intros Hcfg. unfold renderTree_panel. rewrite Hcfg. cbn [bind].
  destruct allFiles as [|a allFiles].
  - eexists. split; [reflexivity|]. split; [|reflexivity].
    intros _. constructor; [|constructor].
    apply allEls_leaf; [reflexivity | apply flairCounts_other; reflexivity].
  - unfold renderTree. cbv zeta.
    pose proof (tagsRoot_inv app mdFiles (view_levels cfg)) as Hinv.
    destruct (applyLevels_ok _ (view_levels cfg) 0 _ Hinv) as (t & Ht & _).
    rewrite Ht. cbn [bind].
    destruct (renderSections_ok t
                (buildFolderTree
                   (buildMatched (buildFileTags app mdFiles) (view_levels cfg) mdFiles)
                   (a :: allFiles))
                (tagsRoot_files_nil _ _ _ _ Ht)) as (els & Hels & Hp & Hf).
    exists els. split; [assumption|]. split; [assumption|].
    eexists. eexists. split; [reflexivity | assumption].
Qed.

End PanelSections.

(** Every file has its row.  For the view that [getActiveViewCfg]
    returns, [renderTree] does not throw, and the file rows of the panel,
    those of the section "By Tags" and of the section "By Folder" taken
    together, are the files of the vault, each in one row; an empty vault
    gives the one line "No files.".  (The vault lists no file twice, and
    its markdown files are among its files.) *)
Theorem renderTree_panel_rows :
  forall (localeCompare : jsstring -> jsstring -> Z)
         (settings : MagiofilesSettings) (expandedPaths : list jsstring)
         (app : App) (allFiles mdFiles : list TFile) (cfg : ViewCfg),
    getActiveViewCfg settings = Some (Some cfg) ->
    NoDup allFiles ->
    incl mdFiles allFiles ->
    exists els,
      renderTree_panel localeCompare settings expandedPaths app allFiles mdFiles =
      Some els /\
      Permutation (flat_map openedFiles els) allFiles /\
      (allFiles = [] ->
       els = [createDiv [js "mgf-muted"] (Some (js "No files."))]).
Proof.
  intros localeCompare settings expandedPaths app allFiles mdFiles cfg
         Hcfg Hnd Hincl.
  destruct (renderTree_panel_ok localeCompare settings expandedPaths app
              allFiles mdFiles cfg Hcfg) as (els & Hels & _ & H).
  exists els. split; [assumption|].
  destruct allFiles as [|a allFiles].
  - subst els. split; [reflexivity | now intros _].
  - destruct H as (t & fo & Hr & Hp). split; [|discriminate].
    rewrite Hp. now apply (renderTree_all_files app _ mdFiles cfg).
Qed.

(** [renderTree_panel_rows] for the sample vault. *)
Lemma renderTree_panel_rows_witness :
  exists els,
    renderTree_panel codeUnitCompare settingsProject expandedOnOpen appProject
                     [fileA; fileB; fileC] [fileA; fileB] = Some els /\
    Permutation (flat_map openedFiles els) [fileA; fileB; fileC] /\
    ([fileA; fileB; fileC] = [] ->
     els = [createDiv [js "mgf-muted"] (Some (js "No files."))]).
Proof.
  apply (renderTree_panel_rows codeUnitCompare settingsProject expandedOnOpen
           appProject [fileA; fileB; fileC] [fileA; fileB] cfgProject).
  - reflexivity.
  - distinct.
  - intros f. members.
Defined.

(** The counts of the panel.  With [showCounts] on, every section and
    every group of the panel, at any depth, shows in its header the number
    of the file rows that it contains. *)
Theorem renderTree_panel_counts :
  forall (localeCompare : jsstring -> jsstring -> Z)
         (settings : MagiofilesSettings) (expandedPaths : list jsstring)
         (app : App) (allFiles mdFiles : list TFile) (cfg : ViewCfg),
    getActiveViewCfg settings = Some (Some cfg) ->
    showCounts settings = true ->
    exists els,
      renderTree_panel localeCompare settings expandedPaths app allFiles mdFiles =
      Some els /\
      Forall (allEls flairCounts) els.
Proof.
  intros localeCompare settings expandedPaths app allFiles mdFiles cfg Hcfg Hc.
  destruct (renderTree_panel_ok localeCompare settings expandedPaths app
              allFiles mdFiles cfg Hcfg) as (els & Hels & Hf & _).
  exists els. split; [assumption | now apply Hf].
Qed.

(** [renderTree_panel_counts] for the sample vault. *)
Lemma renderTree_panel_counts_witness :
  exists els,
    renderTree_panel codeUnitCompare settingsProject expandedOnOpen appProject
                     [fileA; fileB; fileC] [fileA; fileB] = Some els /\
    Forall (allEls flairCounts) els.
Proof.
  apply (renderTree_panel_counts codeUnitCompare settingsProject expandedOnOpen
           appProject [fileA; fileB; fileC] [fileA; fileB] cfgProject).
  - reflexivity.
  - reflexivity.
Defined.

(** ** The expansion keys of the groups *)

Lemma toggledPaths_unfold (el : El) :
  toggledPaths el =
  (match el_onclick el with
   | Some (Toggle p) => [p]
   | _ => []
   end) ++ flat_map toggledPaths (el_children el).
Proof. destruct el. reflexivity. Qed.

Lemma toggledPaths_nil (el : El) :
  toggledPaths el = [] ->
  (forall p, el_onclick el <> Some (Toggle p)) /\
  flat_map toggledPaths (el_children el) = [].
Proof.
  rewrite toggledPaths_unfold. intros H. apply app_eq_nil in H as [H1 H2].
  split; [|assumption]. intros p E. rewrite E in H1. discriminate H1.
Qed.

Lemma toggledPaths_collapsible (item self childrenWrap : El) (expanded : bool)
  (fullPath : jsstring) (content : list El) :
  toggledPaths item = [] ->
  flat_map toggledPaths (el_children self) = [] ->
  toggledPaths childrenWrap = [] ->
  toggledPaths (collapsible item self childrenWrap expanded fullPath content) =
  fullPath :: flat_map toggledPaths content.
Proof.
  intros Hi Hs Hw.
  apply toggledPaths_nil in Hi as [Hi1 Hi2]. apply toggledPaths_nil in Hw as [Hw1 Hw2].
  assert (Ho : forall o : option Handler,
             (forall p, o <> Some (Toggle p)) ->
             match o with Some (Toggle p) => [p] | _ => [] end = @nil jsstring).
  { intros [[q|f]|] H; try reflexivity. now contradiction (H q). }
  destruct item as [t1 c1 x1 i1 a1 s1 o1 h1].
  destruct self as [t2 c2 x2 i2 a2 s2 o2 h2].
  destruct childrenWrap as [t3 c3 x3 i3 a3 s3 o3 h3].
  cbn [el_onclick el_children] in *.
  destruct expanded; unfold collapsible, appendChildren, setOnclick, addClass,
    setStyle; cbn [el_tag el_cls el_text el_icon el_attrs el_style el_onclick
                   el_children toggledPaths];
    rewrite (Ho o1 Hi1), !flat_map_app; cbn [flat_map toggledPaths];
    rewrite (Ho o3 Hw1), !flat_map_app, Hi2, Hs, Hw2; cbn [app];
    now rewrite !app_nil_r.
Qed.

Lemma forEach_Forall2 {A B : Type} (body : A -> option B) :
  forall (l : list A) (ys : list B),
    forEach body l = Some ys -> Forall2 (fun x y => body x = Some y) l ys.
Proof.
  induction l as [|x l IH]; intros ys H; cbn [forEach] in H.
  - injection H as <-. constructor.
  - destruct (body x) as [y|] eqn:Ey; [|discriminate]. cbn [bind] in H.
    destruct (forEach body l) as [ys'|]; [|discriminate]. cbn [bind] in H.
    injection H as <-. constructor; [assumption | now apply IH].
Qed.

Lemma groupPaths_unfold (parentPath : jsstring) (node : GroupNode) :
  groupPaths parentPath node =
  flat_map
    (fun kc =>
       (parentPath ++ js "/" ++ fst kc) ::
       groupPaths (parentPath ++ js "/" ++ fst kc) (snd kc))
    (children_of node).
Proof. destruct node as [nm lv [l|] fs]; reflexivity. Qed.

(** A path below [parentPath] is [parentPath], a separator, the label of
    a child, and then nothing or a separator and more. *)
Lemma groupPaths_shape :
  forall (node : GroupNode) (parentPath x : jsstring),
    In x (groupPaths parentPath node) ->
    exists k c tail,
      In (k, c) (children_of node) /\
      x = parentPath ++ 47%N :: k ++ tail /\
      (tail = [] \/ exists t, tail = 47%N :: t).
Proof.
  induction node as [nm lv ch fs IH] using GroupNode_ind.
  intros parentPath x Hx. rewrite groupPaths_unfold in Hx.
  apply in_flat_map in Hx as ([k c] & Hin & Hx). cbn [fst snd] in Hx.
  exists k, c. destruct Hx as [<-|Hx].
  - exists []. split; [assumption|]. split; [|now left].
    now rewrite app_nil_r.
  - destruct ch as [l|]; [|destruct Hin]. cbn [children_of children] in Hin.
    rewrite Forall_forall in IH.
    destruct (IH _ Hin _ _ Hx) as (k' & c' & tail & _ & -> & _).
    exists (47%N :: k' ++ tail). split; [assumption|]. split; [|right; eauto].
    change (js "/" ++ k) with (47%N :: k). rewrite <- !app_assoc.
    reflexivity.
Qed.

(** A label without separator is determined by a path that starts with
    it. *)
Lemma label_inj :
  forall (a b r s : jsstring),
    ~ In 47%N a -> ~ In 47%N b ->
    (r = [] \/ exists t, r = 47%N :: t) ->
    (s = [] \/ exists t, s = 47%N :: t) ->
    a ++ r = b ++ s -> a = b.
Proof.
  induction a as [|x a IH]; intros b r s Ha Hb Hr Hs E.
  - destruct b as [|y b]; [reflexivity|]. exfalso. simpl in E.
    destruct Hr as [->|(t & ->)]; [discriminate|].
    injection E as <- _. apply Hb. now left.
  - destruct b as [|y b].
    + exfalso. simpl in E. destruct Hs as [->|(t & ->)]; [discriminate|].
      injection E as -> _. apply Ha. now left.
    + simpl in E. injection E as -> E. f_equal.
      apply (IH b r s); auto; intros H; [apply Ha | apply Hb]; now right.
Qed.

Lemma groupPaths_NoDup :
  forall (node : GroupNode) (parentPath : jsstring),
    folderKeys node -> NoDup (groupPaths parentPath node).
Proof.
  induction node as [nm lv ch fs IH] using GroupNode_ind.
  intros parentPath Hk. rewrite groupPaths_unfold.
  apply allNodes_unfold in Hk as [[Hnd Hsep] Hch].
  destruct ch as [l|]; [|constructor].
  cbn [children_of children] in *.
  induction l as [|[k c] l IHl]; [constructor|].
  inversion IH as [|? ? IHc IHr]; subst.
  inversion Hnd as [|? ? Hk Hnd']; subst.
  inversion Hsep as [|? ? Hks Hsep']; subst.
  inversion Hch as [|? ? Hck Hch']; subst.
  cbn [flat_map fst snd] in *.
  change (NoDup (((parentPath ++ js "/" ++ k) ::
                  groupPaths (parentPath ++ js "/" ++ k) c) ++
                 flat_map
                   (fun kc =>
                      (parentPath ++ js "/" ++ fst kc) ::
                      groupPaths (parentPath ++ js "/" ++ fst kc) (snd kc)) l)).
  apply NoDup_app_disjoint.
  - constructor; [|now apply IHc].
    intros Hin. apply groupPaths_shape in Hin as (k' & c' & tail & _ & E & _).
    rewrite <- (app_nil_r (parentPath ++ js "/" ++ k)) in E at 1.
    apply app_inv_head in E. discriminate E.
  - now apply IHl.
  - intros x Hx Hx'.
    assert (Hx1 : exists tail, x = parentPath ++ 47%N :: k ++ tail /\
                               (tail = [] \/ exists t, tail = 47%N :: t)).
    { destruct Hx as [<-|Hx].
      - exists []. split; [now rewrite app_nil_r | now left].
      - apply groupPaths_shape in Hx as (k' & c' & tail & _ & -> & _).
        exists (47%N :: k' ++ tail). split; [|right; eauto].
        change (js "/" ++ k) with (47%N :: k). now rewrite <- !app_assoc. }
    assert (Hx2 : exists k2 c2 tail, In (k2, c2) l /\
                                     x = parentPath ++ 47%N :: k2 ++ tail /\
                                     (tail = [] \/ exists t, tail = 47%N :: t)).
    { apply in_flat_map in Hx' as ([k2 c2] & Hin & Hx'). cbn [fst snd] in Hx'.
      exists k2, c2. destruct Hx' as [<-|Hx'].
      - exists []. split; [assumption|]. split; [now rewrite app_nil_r | now left].
      - apply groupPaths_shape in Hx' as (k' & c' & tail & _ & -> & _).
        exists (47%N :: k' ++ tail). split; [assumption|]. split; [|right; eauto].
        change (js "/" ++ k2) with (47%N :: k2). now rewrite <- !app_assoc. }
    destruct Hx1 as (t1 & E1 & Ht1). destruct Hx2 as (k2 & c2 & t2 & Hin & E2 & Ht2).
    rewrite E1 in E2. apply app_inv_head in E2. injection E2 as E2.
    assert (Hk2 : ~ In 47%N k2).
    { rewrite Forall_forall in Hsep'. exact (Hsep' _ Hin). }
    pose proof (label_inj _ _ _ _ Hks Hk2 Ht1 Ht2 E2) as ->.
    apply Hk. change (In (fst (k2, c2)) (List.map fst l)). now apply in_map.
Qed.

Lemma groupPaths_prefix (node : GroupNode) (parentPath x : jsstring) :
  In x (groupPaths parentPath node) ->
  startsWith parentPath x = true /\ x <> parentPath.
Proof.
  intros H. apply groupPaths_shape in H as (k & c & tail & _ & -> & _).
  split; [apply startsWith_spec; eauto|].
  intros E. rewrite <- (app_nil_r parentPath) in E at 2.
  apply app_inv_head in E. discriminate E.
Qed.

Lemma Forall_map_set_entry {V : Type} (Q : jsstring * V -> Prop)
  (m : list (jsstring * V)) (k : jsstring) (v : V) :
  Forall Q m -> Q (k, v) -> Forall Q (map_set jsstring_eq_dec m k v).
Proof.
  intros Hm Hv. induction m as [|[k' v'] r IH]; simpl.
  - now constructor.
  - inversion Hm as [|? ? H1 H2]; subst.
    destruct (jsstring_eq_dec k k'); constructor; auto.
Qed.

Lemma folderKeys_unfold (n : GroupNode) :
  folderKeys n <->
  (NoDup (map_keys (children_of n)) /\
   Forall (fun kc => ~ In 47%N (fst kc)) (children_of n)) /\
  Forall (fun kc => folderKeys (snd kc)) (children_of n).
Proof. apply allNodes_unfold. Qed.

Lemma addAlong_folderKeys (parts : list jsstring) (f : TFile) :
  Forall (fun seg => ~ In 47%N seg) parts ->
  forall n, folderKeys n -> folderKeys (addAlong n parts f).
Proof.
  induction parts as [|k rest IH]; intros Hparts n Hn; cbn [addAlong].
  - apply folderKeys_unfold in Hn. apply folderKeys_unfold.
    now rewrite children_of_with_files.
  - inversion Hparts as [|? ? Hk Hrest]; subst.
    apply folderKeys_unfold in Hn as [[H1 H2] H3].
    apply folderKeys_unfold. rewrite children_of_with_children.
    split; [split|].
    + now apply NoDup_map_keys_set.
    + now apply Forall_map_set_entry.
    + apply (Forall_map_set folderKeys); [assumption|].
      apply IH; [assumption|].
      destruct (map_get jsstring_eq_dec (children_of n) k) as [c|] eqn:E.
      * apply (map_get_In jsstring_eq_dec) in E.
        rewrite Forall_forall in H3. exact (H3 _ E).
      * apply folderKeys_unfold. cbn [children_of children].
        split; [split|]; constructor.
Qed.

Lemma buildFolderTree_folderKeys (matched allFiles : list TFile) :
  folderKeys (buildFolderTree matched allFiles).
Proof.
  unfold buildFolderTree.
  assert (Hgen : forall l root,
             folderKeys root ->
             folderKeys (fold_left
                           (fun folderRoot f =>
                              if set_has TFile_eq_dec matched f then folderRoot
                              else addFileToFolderTree folderRoot (path f) f)
                           l root)).
  { induction l as [|f l IH]; intros root Hr; simpl; [assumption|].
    apply IH. destruct (set_has TFile_eq_dec matched f); [assumption|].
    apply addAlong_folderKeys; [|assumption].
    apply Forall_forall. intros seg Hseg. apply In_removelast in Hseg.
    now apply (split_no_sep 47%N (path f)). }
  apply Hgen. apply folderKeys_unfold. cbn [children_of children].
  split; [split|]; constructor.
Qed.

Section PanelToggles.

Variable localeCompare : jsstring -> jsstring -> Z.
Variable settings : MagiofilesSettings.
Variable expandedPaths : list jsstring.

Lemma renderFiles_toggles (fs : list TFile) :
  flat_map toggledPaths (List.map (renderFile settings) fs) = [].
Proof.
  induction fs as [|f fs IH]; [reflexivity|]. cbn [List.map flat_map].
  rewrite IH, app_nil_r. unfold renderFile. now destruct (showFileIcons settings).
Qed.

(** The toggles of the groups of a children map, when every group has
    its own path and the paths below it. *)
Lemma groups_toggles (body : jsstring * GroupNode -> option El)
  (parentPath : jsstring) (ch : list (jsstring * GroupNode))
  (groups : list El) :
  (forall e el, In e ch -> body e = Some el ->
                Permutation (toggledPaths el)
                  ((parentPath ++ js "/" ++ fst e) ::
                   groupPaths (parentPath ++ js "/" ++ fst e) (snd e))) ->
  forEach body (getSortedEntries localeCompare ch (sortMode settings)) =
  Some groups ->
  Permutation (flat_map toggledPaths groups)
    (flat_map
       (fun kc =>
          (parentPath ++ js "/" ++ fst kc) ::
          groupPaths (parentPath ++ js "/" ++ fst kc) (snd kc))
       ch).
Proof.
  intros Hbody Hg.
  pose proof (getSortedEntries_perm localeCompare ch (sortMode settings)) as Hp.
  apply forEach_Forall2 in Hg.
  rewrite <- (Permutation_flat_map _ Hp).
  apply Forall2_flat_map_perm.
  revert Hg. generalize (fun e => Permutation_in e Hp).
  generalize (getSortedEntries localeCompare ch (sortMode settings)).
  intros sorted Hin Hg. induction Hg as [|e el sorted groups' He _ IH];
    constructor.
  - apply Hbody; [apply Hin; now left | assumption].
  - apply IH. intros e' He'. apply Hin. now right.
Qed.

Lemma renderGroup_fuel_toggles :
  forall (fuel : nat) (node : GroupNode) (displayName parentPath : jsstring)
         (el : El),
    parentPath <> [] ->
    renderGroup_fuel localeCompare settings expandedPaths fuel node
                     displayName parentPath = Some el ->
    Permutation (toggledPaths el)
      ((parentPath ++ js "/" ++ displayName) ::
       groupPaths (parentPath ++ js "/" ++ displayName) node).
Proof.
  induction fuel as [|fuel IH]; intros node displayName parentPath el Hpp Hel;
    [discriminate|].
  cbn [renderGroup_fuel] in Hel. cbv zeta in Hel.
  assert (Hfp : (if nonEmpty parentPath
                 then parentPath ++ js "/" ++ displayName
                 else displayName) = parentPath ++ js "/" ++ displayName).
  { apply nonEmpty_true in Hpp. now rewrite Hpp. }
  rewrite Hfp in Hel. clear Hfp.
  set (fullPath := parentPath ++ js "/" ++ displayName) in *.
  assert (Hne : fullPath <> []).
  { unfold fullPath. destruct parentPath; [congruence | discriminate]. }
  destruct (match children node with
            | Some (kc :: ch) => _
            | _ => Some []
            end) as [groups|] eqn:Eg; [|discriminate].
  cbn [bind] in Hel. injection Hel as <-.
  rewrite toggledPaths_collapsible; try reflexivity.
  2:{ now destruct (showCounts settings). }
  constructor. rewrite flat_map_app.
  match goal with
  | |- Permutation (_ ++ ?r) _ => assert (Hrows : r = [])
  end.
  { destruct (files node) as [[|f fs]|]; try reflexivity.
    apply renderFiles_toggles. }
  rewrite Hrows, app_nil_r, groupPaths_unfold. unfold children_of.
  destruct (children node) as [[|kc ch]|].
  - injection Eg as <-. reflexivity.
  - apply (groups_toggles _ fullPath _ _ (fun e el _ H => IH _ _ _ _ Hne H) Eg).
  - injection Eg as <-. reflexivity.
Qed.

Lemma sectionGroups_toggles (root : GroupNode) (parentPath : jsstring)
  (placeholder groups : list El) :
  parentPath <> [] ->
  flat_map toggledPaths placeholder = [] ->
  match children root with
  | Some (kc :: ch) =>
      forEach
        (fun e => renderGroup localeCompare settings expandedPaths
                              (snd e) (fst e) parentPath)
        (getSortedEntries localeCompare (kc :: ch) (sortMode settings))
  | _ => Some placeholder
  end = Some groups ->
  Permutation (flat_map toggledPaths groups) (groupPaths parentPath root).
Proof.
  intros Hne Hp Hg. rewrite groupPaths_unfold. unfold children_of.
  destruct (children root) as [[|kc ch]|];
    try (injection Hg as <-; now rewrite Hp).
  apply (groups_toggles _ parentPath _ _
           (fun e el _ H => renderGroup_fuel_toggles _ _ _ _ _ Hne H) Hg).
Qed.

Lemma renderSections_toggles (tagsRoot folderRoot : GroupNode) (els : list El) :
  renderSections localeCompare settings expandedPaths tagsRoot folderRoot =
  Some els ->
  exists tagsSection folderSection,
    els = [tagsSection; folderSection] /\
    Permutation (toggledPaths tagsSection)
                (js "by-tags" :: groupPaths (js "by-tags") tagsRoot) /\
    Permutation (toggledPaths folderSection)
                (js "by-folder" :: groupPaths (js "by-folder") folderRoot).
Proof.
  unfold renderSections. cbv zeta. intros H.
  destruct (match children tagsRoot with
            | Some (kc :: ch) => _
            | _ => Some [createDiv [js "mgf-muted"] (Some (js "Empty"))]
            end) as [tagsContent|] eqn:Et; [|discriminate].
  cbn [bind] in H.
  destruct (match children folderRoot with
            | Some (kc :: ch) => _
            | _ => Some []
            end) as [folderGroups|] eqn:Ef; [|discriminate].
  cbn [bind] in H. injection H as <-.
  eexists. eexists. split; [reflexivity|].
  assert (Hhead : forall title root,
             flat_map toggledPaths
               (el_children (sectionHeader settings title root)) = []).
  { intros title root. unfold sectionHeader. now destruct (showCounts settings). }
  rewrite !toggledPaths_collapsible; try reflexivity; try apply Hhead.
  split; constructor.
  - apply (sectionGroups_toggles tagsRoot (js "by-tags")
             [createDiv [js "mgf-muted"] (Some (js "Empty"))] _
             ltac:(discriminate) eq_refl Et).
  - rewrite flat_map_app.
    match goal with
    | |- Permutation (_ ++ ?r) _ => assert (Hrows : r = [])
    end.
    { destruct (files folderRoot) as [[|f fs]|]; try reflexivity.
      apply renderFiles_toggles. }
    rewrite Hrows, app_nil_r.
    apply (sectionGroups_toggles folderRoot (js "by-folder") [] _
             ltac:(discriminate) eq_refl Ef).
Qed.

End PanelToggles.

Lemma section_paths_apart (p : jsstring) :
  startsWith (js "by-tags") p = true -> startsWith (js "by-folder") p = true ->
  False.
Proof.
  intros H1 H2. apply startsWith_spec in H1 as (r1 & ->).
  apply startsWith_spec in H2 as (r2 & E). cbv in E. congruence.
Qed.

(** The expansion keys of the folders.  For the view that
    [getActiveViewCfg] returns and a vault that is not empty, the panel
    consists of the section "By Tags" and the section "By Folder"; the
    paths that the toggles of the section "By Folder" keep in
    [expandedPaths] are pairwise distinct, so no two folders share their
    expanded state; they all start with ["by-folder"], and the paths of
    the section "By Tags" with ["by-tags"], so no folder shares it with a
    group of tags either. *)
Theorem renderTree_panel_folder_toggles :
  forall (localeCompare : jsstring -> jsstring -> Z)
         (settings : MagiofilesSettings) (expandedPaths : list jsstring)
         (app : App) (allFiles mdFiles : list TFile) (cfg : ViewCfg),
    getActiveViewCfg settings = Some (Some cfg) ->
    allFiles <> [] ->
    exists tagsSection folderSection,
      renderTree_panel localeCompare settings expandedPaths app allFiles mdFiles =
      Some [tagsSection; folderSection] /\
      NoDup (toggledPaths folderSection) /\
      (forall p, In p (toggledPaths folderSection) ->
                 startsWith (js "by-folder") p = true) /\
      (forall p, In p (toggledPaths tagsSection) ->
                 startsWith (js "by-tags") p = true /\
                 ~ In p (toggledPaths folderSection)).
Proof.
  intros localeCompare settings expandedPaths app allFiles mdFiles cfg Hcfg Hne.
  destruct (renderTree_panel_ok localeCompare settings expandedPaths app
              allFiles mdFiles cfg Hcfg) as (els & Hels & _ & H).
  destruct allFiles as [|a allFiles]; [congruence|].
  destruct H as (t & fo & Hr & _).
  assert (Hs : renderSections localeCompare settings expandedPaths t fo = Some els).
  { unfold renderTree_panel in Hels. rewrite Hcfg in Hels. cbn [bind] in Hels.
    now rewrite Hr in Hels. }
  destruct (renderSections_toggles _ _ _ _ _ _ Hs)
    as (tagsSection & folderSection & -> & Ht & Hf).
  exists tagsSection, folderSection. split; [assumption|].
  assert (Hfo : folderKeys fo).
  { unfold renderTree in Hr. cbv zeta in Hr.
    destruct (applyLevels _ _ _ _); [|discriminate]. cbn [bind] in Hr.
    injection Hr as _ <-. apply buildFolderTree_folderKeys. }
  assert (Hpre : forall (root : GroupNode) (pp p : jsstring),
             In p (pp :: groupPaths pp root) -> startsWith pp p = true).
  { intros root pp p [<-|Hp].
    - apply startsWith_spec. exists []. now rewrite app_nil_r.
    - now apply (groupPaths_prefix root). }
  assert (Hfpre : forall p, In p (toggledPaths folderSection) ->
                            startsWith (js "by-folder") p = true).
  { intros p Hp. apply (Hpre fo). now apply (Permutation_in _ Hf). }
  split; [|split; [assumption|]].
  - apply (Permutation_NoDup (Permutation_sym Hf)). constructor.
    + intros Hin. now apply groupPaths_prefix in Hin as [_ Hin].
    + now apply groupPaths_NoDup.
  - intros p Hp.
    assert (Htp : startsWith (js "by-tags") p = true)
      by (apply (Hpre t); now apply (Permutation_in _ Ht)).
    split; [assumption|]. intros Hp'. apply Hfpre in Hp'.
    exact (section_paths_apart p Htp Hp').
Qed.

(** [renderTree_panel_folder_toggles] for the sample vault. *)
Lemma renderTree_panel_folder_toggles_witness :
  exists tagsSection folderSection,
    renderTree_panel codeUnitCompare settingsProject expandedOnOpen appProject
                     [fileA; fileB; fileC] [fileA; fileB] =
    Some [tagsSection; folderSection] /\
    NoDup (toggledPaths folderSection) /\
    (forall p, In p (toggledPaths folderSection) ->
               startsWith (js "by-folder") p = true) /\
    (forall p, In p (toggledPaths tagsSection) ->
               startsWith (js "by-tags") p = true /\
               ~ In p (toggledPaths folderSection)).
Proof.
  apply (renderTree_panel_folder_toggles codeUnitCompare settingsProject
           expandedOnOpen appProject [fileA; fileB; fileC] [fileA; fileB]
           cfgProject).
  - reflexivity.
  - discriminate.
Defined.

(** The groups of the section "By Tags" can share an expansion key: the
    label of a group may contain the separator, and the group ["a/b"]
    of the first level has the path of the group ["b"] below the group
    ["a"]. *)
Example renderTree_panel_tags_toggles_collide :
  exists tagsSection folderSection,
    renderTree_panel codeUnitCompare settingsNested expandedOnOpen appNested
                     [fileP; fileQ] [fileP; fileQ] =
    Some [tagsSection; folderSection] /\
    toggledPaths tagsSection =
    [js "by-tags"; js "by-tags/a"; js "by-tags/a/b"; js "by-tags/a/b";
     js "by-tags/a/b/Others"].
Proof. eexists. eexists. split; vm_compute; reflexivity. Qed.

(** * Every split of the construction *)











(** * The empty pattern *)

(** C8 fails on the code.  [N.md] has the frontmatter tags ["a"] and
    [" "], so its tag set is [#a] and the empty string; the level has the
    patterns [""] and [#a], and both match the tag set.  [tagMatchesAny]
    returns the first of them, the empty string, which [if (match)] takes
    for no match: the split of the node that holds the file gives the one
    child ["Others"], with the file in it, and neither a bucket for the
    first matching pattern nor one for [#a].  In the tree that [renderTree]
    builds for the view the file is at [a > Others]. *)
Theorem propagateLevel_empty_pattern :
  collectTagsForFile appBlank fileN = [js "#a"; js ""] /\
  matchesPattern (collectTagsForFile appBlank fileN) (js "") /\
  matchesPattern (collectTagsForFile appBlank fileN) (js "#a") /\
  tagMatchesAny (collectTagsForFile appBlank fileN) [js ""; js "#a"] =
  Some (js "") /\
  propagateLevel (bucketOf (js "a") 0 [fileN]) [js ""; js "#a"]
                 [(fileN, collectTagsForFile appBlank fileN)] 1 =
  Some (mkGroupNode (js "a") 0
          (Some [(js "Others", bucketOf (js "Others") 1 [fileN])]) (Some [])) /\
  renderTree appBlank [fileN] [fileN] cfgBlank =
  Some (Trees
          (mkGroupNode (js "root") (-1)
             (Some [(js "a",
                     mkGroupNode (js "a") 0
                       (Some [(js "Others", bucketOf (js "Others") 1 [fileN])])
                       (Some []))])
             (Some []))
          (mkGroupNode (js "root") (-1) (Some []) (Some []))).
Proof.
  split; [reflexivity|]. split; [left; right; now left|].
  split; [left; now left|]. split; [reflexivity|].
  split; vm_compute; reflexivity.
Qed.

(** How the empty pattern gets into a level: the blank frontmatter tag
    gives the suggestion with the empty name; clicking it, and then
    entering [a], makes the picker call [onChange] with the empty string
    and ["a"], and the level stores the patterns [""] and [#a]. *)
Example empty_pattern_reachable :
  In (mkSuggestion (js "") 1) (collectTagCounts appBlank [fileN]) /\
  level_tags
    (level_onChange (mkLevel (js "Level 2") [])
       (last (snd (runPicker (levelPicker (mkLevel (js "Level 2") []))
                             [ItemClick (mkSuggestion (js "") 1);
                              InputText (js "a");
                              KeyDown (js "Enter")])) [])) =
  [js ""; js "#a"].
Proof. split; [right; now left | reflexivity]. Qed.
